(** * FastLane RAG orchestrator: a shallow embedding and its properties

    The development follows the JavaScript sources:
    - [src/intent_detector.js]  (IntentDetector)
    - [src/qdrantDao.js]        (QdrantDao: caches, hybrid search, RRF, MMR)
    - [src/knowledge_api.js]    (KnowledgeAPI: answers, sentence rescoring)
    - [schedule_api.js]         (ScheduleAPI: appointment store)
    - [src/memory.js]           (Memory: per-session context)
    - [src/orchestrator.js]     (Orchestrator: planning and dispatch)

    Conventions.
    - JavaScript numbers are idealised as rationals ([Q]); [Math.sqrt] is an
      oracle on [Q].
    - Strings are [string]s of 8-bit characters; case mapping and the
      character classes of regular expressions are the ASCII ones.
    - Asynchronous code is run in program order; a promise that rejects is an
      outcome [Throw], and [try]/[catch] is [try_catch].
    - The services the program talks to (Redis faults, the embedding provider,
      the vector index, the TF-IDF library, chrono, compromise, the fastText
      classifier, the clock and [Date]) are fields of an environment [Env].
    - The [latency_ms] fields and console output are left out. *)

From Stdlib Require Import ZArith QArith Qround Qabs Lqa String Ascii List Bool Lia Sorting.Sorted Permutation.
From stdpp Require Import base option gmap strings pretty.
Import ListNotations.

#[local] Open Scope string_scope.
#[local] Open Scope list_scope.

(* ===================================================================== *)
(** * JavaScript string primitives *)
(* ===================================================================== *)

Module JsString.

Definition code (c : ascii) : nat := nat_of_ascii c.

Definition in_range (lo hi : nat) (c : ascii) : bool :=
  (lo <=? code c)%nat && (code c <=? hi)%nat.

Definition is_upper : ascii -> bool := in_range 65 90.
Definition is_lower : ascii -> bool := in_range 97 122.
Definition is_digit : ascii -> bool := in_range 48 57.

(** [\s] restricted to ASCII: TAB, LF, VT, FF, CR and SPACE. *)
Definition is_space (c : ascii) : bool :=
  in_range 9 13 c || (code c =? 32)%nat.

(** [\w] *)
Definition is_word (c : ascii) : bool :=
  is_upper c || is_lower c || is_digit c || (code c =? 95)%nat.

Definition lower_char (c : ascii) : ascii :=
  if is_upper c then ascii_of_nat (code c + 32) else c.

Definition upper_char (c : ascii) : ascii :=
  if is_lower c then ascii_of_nat (code c - 32) else c.

(** [s.toLowerCase()] *)
Fixpoint toLowerCase (s : string) : string :=
  match s with
  | EmptyString => EmptyString
  | String c s' => String (lower_char c) (toLowerCase s')
  end.

(** [s.startsWith(p)] *)
Fixpoint startsWith (p s : string) : bool :=
  match p, s with
  | EmptyString, _ => true
  | String a p', String b s' => Ascii.eqb a b && startsWith p' s'
  | String _ _, EmptyString => false
  end.

(** [s.includes(p)] *)
Fixpoint includes (s p : string) : bool :=
  startsWith p s ||
  match s with
  | EmptyString => false
  | String _ s' => includes s' p
  end.

(** [s.slice(0, n)] *)
Fixpoint slice_to (n : nat) (s : string) : string :=
  match n, s with
  | S n', String c s' => String c (slice_to n' s')
  | _, _ => EmptyString
  end.

Fixpoint drop (n : nat) (s : string) : string :=
  match n, s with
  | S n', String _ s' => drop n' s'
  | _, _ => s
  end.

(** [s.slice(-n)]: the last [n] characters, all of [s] when it is shorter. *)
Definition slice_last (n : nat) (s : string) : string :=
  drop (String.length s - n) s.

Fixpoint rev_onto (s acc : string) : string :=
  match s with
  | EmptyString => acc
  | String c s' => rev_onto s' (String c acc)
  end.

Definition rev (s : string) : string := rev_onto s EmptyString.

Fixpoint trimStart (s : string) : string :=
  match s with
  | String c s' => if is_space c then trimStart s' else s
  | EmptyString => EmptyString
  end.

(** [s.trim()] *)
Definition trim (s : string) : string := rev (trimStart (rev (trimStart s))).

(** [s.endsWith(c)] for a one-character [c] *)
Definition endsWithChar (c : ascii) (s : string) : bool :=
  match rev s with
  | String d _ => Ascii.eqb c d
  | EmptyString => false
  end.

(** [s.split(c)] for a one-character separator [c] *)
Fixpoint split_char_go (c : ascii) (s : string) (cur : string) : list string :=
  match s with
  | EmptyString => [rev cur]
  | String d s' =>
      if Ascii.eqb c d then rev cur :: split_char_go c s' EmptyString
      else split_char_go c s' (String d cur)
  end.

Definition split_char (c : ascii) (s : string) : list string :=
  split_char_go c s EmptyString.

(** [l.join(sep)] *)
Definition join (sep : string) (l : list string) : string := String.concat sep l.

(** [s.replace(p, r)] for a string pattern: the first occurrence only. *)
Fixpoint replace_first (p r s : string) : string :=
  if startsWith p s then r +:+ drop (String.length p) s
  else match s with
       | EmptyString => EmptyString
       | String c s' => String c (replace_first p r s')
       end.

(** [[...new Set(l)]]: the distinct elements in order of first occurrence. *)
Fixpoint dedup_keep_first (seen : list string) (l : list string) : list string :=
  match l with
  | [] => []
  | x :: l' =>
      if existsb (String.eqb x) seen then dedup_keep_first seen l'
      else x :: dedup_keep_first (x :: seen) l'
  end.

Definition uniq (l : list string) : list string := dedup_keep_first [] l.

End JsString.

(* ===================================================================== *)
(** * Regular expressions

    The fragment of JavaScript regular expressions the sources use, with
    the backtracking semantics of [RegExp.prototype.exec]: alternatives are
    tried left to right, quantifiers are greedy, and there is one capturing
    group. Quantifiers only ever apply to character classes in the sources,
    so [Star] and [Plus] take a class. *)
(* ===================================================================== *)

Module Regex.
Import JsString.

Inductive re : Type :=
| Eps
| Cls (p : ascii -> bool)          (* a literal character or a class *)
| Cat (a b : re)
| Alt (a b : re)
| Star (p : ascii -> bool)         (* [c*] *)
| Plus (p : ascii -> bool)         (* [c+] *)
| Group (a : re)                   (* [( ... )], capture 1 *)
| WordBoundary                     (* [\b] *)
| EndOfInput                       (* [$] *)
| LookBehind (p : ascii -> bool)   (* [(?<=c)] *)
| LookAhead (p : ascii -> bool).   (* [(?=c)] *)

Definition chr (c : ascii) : re := Cls (Ascii.eqb c).

(** A literal word. *)
Fixpoint lit (s : string) : re :=
  match s with
  | EmptyString => Eps
  | String c EmptyString => chr c
  | String c s' => Cat (chr c) (lit s')
  end.

Fixpoint alts (rs : list re) : re :=
  match rs with
  | [] => Eps
  | [r] => r
  | r :: rs' => Alt r (alts rs')
  end.

(** Class membership; with the [i] flag both cases of the character count. *)
Definition cls_ok (ic : bool) (p : ascii -> bool) (c : ascii) : bool :=
  if ic then p c || p (lower_char c) || p (upper_char c) else p c.

Definition opt_word (o : option ascii) : bool :=
  match o with Some c => is_word c | None => false end.

Definition head_char (s : string) : option ascii :=
  match s with String c _ => Some c | EmptyString => None end.

(** A position in the subject: the character before it and what follows. *)
Record pos := Pos { before : option ascii; rest : string }.

Section Matcher.
Context {R : Type}.
Variable ic : bool.

(** Greedy iteration of a class: the longest run first, then shorter ones. *)
Fixpoint star (p : ascii -> bool) (prev : option ascii) (s : string)
    (cap : option string) (k : pos -> option string -> option R) : option R :=
  match s with
  | String c s' =>
      if cls_ok ic p c then
        match star p (Some c) s' cap k with
        | Some r => Some r
        | None => k (Pos prev s) cap
        end
      else k (Pos prev s) cap
  | EmptyString => k (Pos prev s) cap
  end.

Fixpoint run (r : re) (x : pos) (cap : option string)
    (k : pos -> option string -> option R) : option R :=
  match r with
  | Eps => k x cap
  | Cls p =>
      match rest x with
      | String c s' => if cls_ok ic p c then k (Pos (Some c) s') cap else None
      | EmptyString => None
      end
  | Cat a b => run a x cap (fun y cap' => run b y cap' k)
  | Alt a b =>
      match run a x cap k with
      | Some res => Some res
      | None => run b x cap k
      end
  | Star p => star p (before x) (rest x) cap k
  | Plus p =>
      match rest x with
      | String c s' => if cls_ok ic p c then star p (Some c) s' cap k else None
      | EmptyString => None
      end
  | Group a =>
      run a x cap (fun y _ =>
        k y (Some (slice_to (String.length (rest x) - String.length (rest y)) (rest x))))
  | WordBoundary =>
      if xorb (opt_word (before x)) (opt_word (head_char (rest x))) then k x cap else None
  | EndOfInput =>
      match rest x with EmptyString => k x cap | _ => None end
  | LookBehind p =>
      match before x with
      | Some c => if cls_ok ic p c then k x cap else None
      | None => None
      end
  | LookAhead p =>
      match rest x with
      | String c _ => if cls_ok ic p c then k x cap else None
      | EmptyString => None
      end
  end.
End Matcher.

(** A match anchored at a position: where it ends, and capture 1. *)
Definition match_at (ic : bool) (r : re) (x : pos) : option (pos * option string) :=
  run ic r x None (fun y cap => Some (y, cap)).

(** [s.match(r)] without the [g] flag: the leftmost match. *)
Fixpoint exec_from (ic : bool) (r : re) (prev : option ascii) (s : string)
    : option (pos * option string) :=
  match match_at ic r (Pos prev s) with
  | Some m => Some m
  | None =>
      match s with
      | String c s' => exec_from ic r (Some c) s'
      | EmptyString => None
      end
  end.

Definition exec (ic : bool) (r : re) (s : string) : option (pos * option string) :=
  exec_from ic r None s.

(** [r.test(s)] *)
Definition test (ic : bool) (r : re) (s : string) : bool :=
  match exec ic r s with Some _ => true | None => false end.

(** [s.match(r)[1]] *)
Definition capture1 (ic : bool) (r : re) (s : string) : option string :=
  match exec ic r s with
  | Some (_, cap) => cap
  | None => None
  end.

(** [s.split(r)] (ECMAScript's [Symbol.split]): [cur] holds, reversed, the
    characters since the last separator; a match that ends where the last
    separator ended is skipped. *)
Fixpoint split_go (fuel : nat) (ic : bool) (r : re) (prev : option ascii)
    (s : string) (cur : string) : list string :=
  match fuel with
  | O => [rev cur]
  | S fuel' =>
      match s with
      | EmptyString => [rev cur]
      | String c s' =>
          match match_at ic r (Pos prev s) with
          | Some (y, _) =>
              if (String.length (rest y) =? String.length s)%nat
                 && (String.length cur =? 0)%nat then
                split_go fuel' ic r (Some c) s' (String c cur)
              else
                rev cur :: split_go fuel' ic r (before y) (rest y) EmptyString
          | None => split_go fuel' ic r (Some c) s' (String c cur)
          end
      end
  end.

Definition split (ic : bool) (r : re) (s : string) : list string :=
  match s with
  | EmptyString =>
      match match_at ic r (Pos None s) with Some _ => [] | None => [s] end
  | _ => split_go (S (2 * String.length s)) ic r None s EmptyString
  end.

(** [s.replace(r, '')] with the [g] flag, for an [r] that matches no empty
    string. *)
Fixpoint remove_all_go (fuel : nat) (ic : bool) (r : re) (prev : option ascii)
    (s : string) : string :=
  match fuel with
  | O => s
  | S fuel' =>
      match s with
      | EmptyString => EmptyString
      | String c s' =>
          match match_at ic r (Pos prev s) with
          | Some (y, _) =>
              if (String.length (rest y) =? String.length s)%nat then
                String c (remove_all_go fuel' ic r (Some c) s')
              else remove_all_go fuel' ic r (before y) (rest y)
          | None => String c (remove_all_go fuel' ic r (Some c) s')
          end
      end
  end.

Definition remove_all (ic : bool) (r : re) (s : string) : string :=
  remove_all_go (S (String.length s)) ic r None s.

(** [s.split(/\s+/)] *)
Definition split_ws (s : string) : list string := split false (Plus is_space) s.

End Regex.

(* ===================================================================== *)
(** * Numbers and arrays *)
(* ===================================================================== *)

Module Js.

(** [a > b] and [a < b] on numbers *)
Definition gt (a b : Q) : bool := negb (Qle_bool a b).
Definition lt (a b : Q) : bool := negb (Qle_bool b a).

Definition of_nat (n : nat) : Q := inject_Z (Z.of_nat n).

(** [Math.max(a, b)] *)
Definition max (a b : Q) : Q := if Qle_bool a b then b else a.

(** [Math.round(x)]: the nearest integer, halves rounded up. *)
Definition round (x : Q) : Z := Qfloor (x + (1 # 2)).

(** [Math.log(1)] *)
Definition log_1 : Q := 0.

(** [l.sort(cmp)] is a stable sort; [before a b] says that [cmp(a, b)] is
    negative, so that [a] has to come before [b]. *)
Section Sort.
Context {A : Type} (before : A -> A -> bool).

Fixpoint insert_sorted (x : A) (l : list A) : list A :=
  match l with
  | [] => [x]
  | y :: l' => if before y x then y :: insert_sorted x l' else x :: y :: l'
  end.

Definition sort (l : list A) : list A := fold_right insert_sorted [] l.
End Sort.

(** [l.slice(0, n)] *)
Definition slice_to {A} (n : nat) (l : list A) : list A := firstn n l.

(** An insertion-ordered [Map] with string keys. *)
Section OrderedMap.
Context {V : Type}.

Definition omap := list (string * V).

Fixpoint map_get (key : string) (m : omap) : option V :=
  match m with
  | [] => None
  | (k, v) :: m' => if String.eqb key k then Some v else map_get key m'
  end.

Definition map_has (key : string) (m : omap) : bool :=
  match map_get key m with Some _ => true | None => false end.

(** [m.set(key, v)]: a known key keeps its place, a new one goes last. *)
Fixpoint map_set (key : string) (v : V) (m : omap) : omap :=
  match m with
  | [] => [(key, v)]
  | (k, w) :: m' =>
      if String.eqb key k then (k, v) :: m' else (k, w) :: map_set key v m'
  end.

Definition map_values (m : omap) : list V := map snd m.
End OrderedMap.

(** [Buffer.from(s).toString('base64')] *)
Definition b64_alphabet : string :=
  "ABCDEFGHIJKLMNOPQRSTUVWXYZabcdefghijklmnopqrstuvwxyz0123456789+/".

Definition b64_digit (n : N) : ascii :=
  match String.get (N.to_nat n) b64_alphabet with Some c => c | None => "="%char end.

Fixpoint base64_bytes (l : list N) : string :=
  match l with
  | a :: b :: c :: l' =>
      let n := (a * 65536 + b * 256 + c)%N in
      String (b64_digit (n / 262144))
        (String (b64_digit ((n / 4096) mod 64))
           (String (b64_digit ((n / 64) mod 64))
              (String (b64_digit (n mod 64)) (base64_bytes l'))))
  | [a; b] =>
      let n := (a * 65536 + b * 256)%N in
      String (b64_digit (n / 262144))
        (String (b64_digit ((n / 4096) mod 64))
           (String (b64_digit ((n / 64) mod 64)) "="))
  | [a] =>
      let n := (a * 65536)%N in
      String (b64_digit (n / 262144)) (String (b64_digit ((n / 4096) mod 64)) "==")
  | [] => EmptyString
  end.

Definition base64 (s : string) : string :=
  base64_bytes (map N_of_ascii (list_ascii_of_string s)).

End Js.

(* ===================================================================== *)
(** * Data model *)
(* ===================================================================== *)

(** [{ schedule, knowledge }] (intent_detector.js) *)
Record Intents := { schedule : bool; knowledge : bool }.

(** One prediction of the fastText classifier: [{ label, value }]. *)
Record Prediction := { label : string; value : Q }.

(** The payload of a retrieved chunk; the lexical branch builds it without
    [tags]. *)
Record Payload := {
  text : string;
  doc_id : string;
  chunk_index : nat;
  tags : option (list string)
}.

(** A retrieved chunk: [{ id, score, payload }]. *)
Record Hit := { point_id : string; score : Q; payload : Payload }.

(** An entry of [documentMap]. *)
Record DocEntry := {
  entry_id : string;
  entry_text : string;
  entry_doc_id : string;
  entry_chunk_index : nat
}.

(** [{ id, chunk, score, ref }] (knowledge_api.js) *)
Record Citation := { cite_id : string; cite_chunk : nat; cite_score : Q; cite_ref : nat }.

(** [{ reply, citations }] *)
Record Answer := { answer_reply : string; answer_citations : list Citation }.

(** The appointment record (schedule_api.js). *)
Record Appointment := {
  appt_id : string;
  patient : string;
  normalized_slot_iso : string;
  location : string;
  status : string;
  created_at : string;
  updated_at : option string
}.

(** What the schedule API returns: [{ ok: true, ...appointment }] or
    [{ ok: false, error }]. *)
Inductive ApiResult :=
| ApiOk (a : Appointment)
| ApiError (error : string).

Definition api_ok (r : ApiResult) : bool :=
  match r with ApiOk _ => true | ApiError _ => false end.

(** [last_appt] of a session (memory.js). *)
Record LastAppt := {
  last_patient : string;
  last_slot : string;
  last_location : string;
  last_appt_id : string;
  last_timestamp : string
}.

Record Session := { last_appt : option LastAppt }.

(** The entries of [plan_steps]. *)
Inductive PlanStep :=
| intent_detection (detected : Intents)
| extract_entities (name : option string) (time : option string) (loc : string)
| extract_time (new_time : option string)
| schedule_appointment (ok : bool)
| reschedule_appointment (ok : bool)
| retrieve_knowledge (docs_found : nat).

(** The [step] field of a plan step. *)
Definition step (p : PlanStep) : string :=
  match p with
  | intent_detection _ => "intent_detection"
  | extract_entities _ _ _ => "extract_entities"
  | extract_time _ => "extract_time"
  | schedule_appointment _ => "schedule_appointment"
  | reschedule_appointment _ => "reschedule_appointment"
  | retrieve_knowledge _ => "retrieve_knowledge"
  end.

(** [{ name, args, result }]; the arguments are kept as a list of fields. *)
Record ToolCall := {
  tool_name : string;
  tool_args : list (string * string);
  tool_result : ApiResult
}.

(** The response of a turn; [tool_calls] and [error] are absent on some paths. *)
Record Response := {
  reply : string;
  citations : list Citation;
  plan_steps : list PlanStep;
  tool_calls : option (list ToolCall);
  error : option string
}.

(* ===================================================================== *)
(** * The world: Redis, the clock and the program's own fields *)
(* ===================================================================== *)

(** The Redis keyspace, one finite map per key prefix, keyed by the full key.
    A value is stored with the TTL it was written with ([SETEX]); the values
    are the JSON documents the program writes, kept in parsed form. Expiry is
    not modelled: the theorems speak of reads within the TTL. *)
Record Redis := {
  emb_cache : gmap string (N * list Q);          (* emb:<key>        *)
  query_cache : gmap string (N * list Hit);      (* query:<key>      *)
  knowledge_cache : gmap string (N * Answer);    (* knowledge:<key>  *)
  memory_store : gmap string (N * Session);      (* memory:<session> *)
  appt_store : gmap string (N * Appointment);    (* appt:<id>        *)
  appts_all : gset string;                         (* the set appts:all *)
  redis_ops : nat                                  (* commands issued so far *)
}.

Record World := {
  redis : Redis;
  clock_reads : nat;                 (* readings of the clock so far *)
  isReady : bool;                    (* IntentDetector.isReady *)
  lastApptNumber : nat;              (* ScheduleAPI.lastApptNumber *)
  tfidf_documents : list string;     (* QdrantDao.tfidf.documents *)
  documentMap : gmap nat DocEntry;   (* QdrantDao.documentMap *)
  planSteps : list PlanStep          (* the [planSteps] array of the running turn *)
}.

Definition set_redis_ops (n : nat) (r : Redis) : Redis :=
  {| emb_cache := emb_cache r; query_cache := query_cache r;
     knowledge_cache := knowledge_cache r; memory_store := memory_store r;
     appt_store := appt_store r; appts_all := appts_all r; redis_ops := n |}.

Definition set_emb_cache (m : gmap string (N * list Q)) (r : Redis) : Redis :=
  {| emb_cache := m; query_cache := query_cache r;
     knowledge_cache := knowledge_cache r; memory_store := memory_store r;
     appt_store := appt_store r; appts_all := appts_all r; redis_ops := redis_ops r |}.

Definition set_query_cache (m : gmap string (N * list Hit)) (r : Redis) : Redis :=
  {| emb_cache := emb_cache r; query_cache := m;
     knowledge_cache := knowledge_cache r; memory_store := memory_store r;
     appt_store := appt_store r; appts_all := appts_all r; redis_ops := redis_ops r |}.

Definition set_knowledge_cache (m : gmap string (N * Answer)) (r : Redis) : Redis :=
  {| emb_cache := emb_cache r; query_cache := query_cache r;
     knowledge_cache := m; memory_store := memory_store r;
     appt_store := appt_store r; appts_all := appts_all r; redis_ops := redis_ops r |}.

Definition set_memory_store (m : gmap string (N * Session)) (r : Redis) : Redis :=
  {| emb_cache := emb_cache r; query_cache := query_cache r;
     knowledge_cache := knowledge_cache r; memory_store := m;
     appt_store := appt_store r; appts_all := appts_all r; redis_ops := redis_ops r |}.

Definition set_appt_store (m : gmap string (N * Appointment)) (r : Redis) : Redis :=
  {| emb_cache := emb_cache r; query_cache := query_cache r;
     knowledge_cache := knowledge_cache r; memory_store := memory_store r;
     appt_store := m; appts_all := appts_all r; redis_ops := redis_ops r |}.

Definition set_appts_all (s : gset string) (r : Redis) : Redis :=
  {| emb_cache := emb_cache r; query_cache := query_cache r;
     knowledge_cache := knowledge_cache r; memory_store := memory_store r;
     appt_store := appt_store r; appts_all := s; redis_ops := redis_ops r |}.

Definition set_redis (r : Redis) (w : World) : World :=
  {| redis := r; clock_reads := clock_reads w; isReady := isReady w;
     lastApptNumber := lastApptNumber w; tfidf_documents := tfidf_documents w;
     documentMap := documentMap w; planSteps := planSteps w |}.

Definition set_clock_reads (n : nat) (w : World) : World :=
  {| redis := redis w; clock_reads := n; isReady := isReady w;
     lastApptNumber := lastApptNumber w; tfidf_documents := tfidf_documents w;
     documentMap := documentMap w; planSteps := planSteps w |}.

Definition set_lastApptNumber (n : nat) (w : World) : World :=
  {| redis := redis w; clock_reads := clock_reads w; isReady := isReady w;
     lastApptNumber := n; tfidf_documents := tfidf_documents w;
     documentMap := documentMap w; planSteps := planSteps w |}.

Definition set_planSteps (l : list PlanStep) (w : World) : World :=
  {| redis := redis w; clock_reads := clock_reads w; isReady := isReady w;
     lastApptNumber := lastApptNumber w; tfidf_documents := tfidf_documents w;
     documentMap := documentMap w; planSteps := l |}.

(** A key prefix of Redis with the type of the documents stored under it. *)
Record Namespace (V : Type) := {
  ns_prefix : string;
  ns_read : Redis -> gmap string (N * V);
  ns_write : gmap string (N * V) -> Redis -> Redis
}.
Arguments ns_prefix {V}.
Arguments ns_read {V}.
Arguments ns_write {V}.

Definition emb_ns : Namespace (list Q) :=
  {| ns_prefix := "emb:"; ns_read := emb_cache; ns_write := set_emb_cache |}.
Definition query_ns : Namespace (list Hit) :=
  {| ns_prefix := "query:"; ns_read := query_cache; ns_write := set_query_cache |}.
Definition knowledge_ns : Namespace Answer :=
  {| ns_prefix := "knowledge:"; ns_read := knowledge_cache; ns_write := set_knowledge_cache |}.
Definition memory_ns : Namespace Session :=
  {| ns_prefix := "memory:"; ns_read := memory_store; ns_write := set_memory_store |}.
Definition appt_ns : Namespace Appointment :=
  {| ns_prefix := "appt:"; ns_read := appt_store; ns_write := set_appt_store |}.

(** How a call ends: a value, or a thrown error with its message. *)
Inductive Outcome (A : Type) :=
| Ok (a : A)
| Throw (message : string).
Arguments Ok {A}.
Arguments Throw {A}.

(** What lies outside the program. *)
Record Env := {
  (** [redis_fault n command key]: the [n]-th Redis command, [command] on
      [key], rejects with this message. *)
  redis_fault : nat -> string -> string -> option string;
  (** [openai.embeddings.create] with 512 dimensions *)
  openai_embedding : string -> Outcome (list Q);
  (** [qdrant.search] with payloads, score threshold 0.2 and a limit *)
  qdrant_search : list Q -> nat -> Outcome (list Hit);
  (** [tfidf.tfidfs(query, callback)]: the measure of each indexed document,
      in index order *)
  tfidf_tfidfs : list string -> string -> Outcome (list Q);
  Math_sqrt : Q -> Q;
  (** the [n]-th reading of the clock, in milliseconds since the epoch *)
  Date_now : nat -> N;
  (** [new Date(s).getTime()]; [None] is an invalid date *)
  Date_parse : string -> option Z;
  Date_toISOString : Z -> string;
  (** [toLocaleString('en-US', ...)] with the options of the orchestrator *)
  Date_toLocaleString : Z -> string;
  (** [chrono.parseDate] *)
  chrono_parseDate : string -> option Z;
  (** [nlp(message).people().out('array')] *)
  nlp_people : string -> list string;
  (** [classifier.predict(message, 2)] *)
  classifier_predict : string -> Outcome (list Prediction);
  (** in a dual-intent turn, the scheduling branch finishes before the
      knowledge branch *)
  dual_schedule_first : bool
}.

(** Computations: state passing over the world, with exceptions. *)
Definition M (A : Type) : Type := World -> Outcome A * World.

Definition ret {A} (a : A) : M A := fun w => (Ok a, w).

Definition bind {A B} (m : M A) (f : A -> M B) : M B :=
  fun w => match m w with
           | (Ok a, w') => f a w'
           | (Throw e, w') => (Throw e, w')
           end.

Definition throw {A} (e : string) : M A := fun w => (Throw e, w).

(** [try { m } catch (error) { h(error.message) }] *)
Definition try_catch {A} (m : M A) (h : string -> M A) : M A :=
  fun w => match m w with
           | (Ok a, w') => (Ok a, w')
           | (Throw e, w') => h e w'
           end.

(** Run [m] and hand back how it ended. *)
Definition settle {A} (m : M A) : M (Outcome A) :=
  fun w => let '(o, w') := m w in (Ok o, w').

Definition of_outcome {A} (o : Outcome A) : M A := fun w => (o, w).

Definition gets {A} (f : World -> A) : M A := fun w => (Ok (f w), w).
Definition modify (f : World -> World) : M unit := fun w => (Ok tt, f w).

Declare Scope m_scope.
Delimit Scope m_scope with M.
Notation "x <- m ;; k" := (bind m (fun x => k))
  (at level 100, m at next level, right associativity) : m_scope.
Notation "m ;;; k" := (bind m (fun _ => k))
  (at level 100, right associativity) : m_scope.
#[local] Open Scope m_scope.

Fixpoint mapM {A B} (f : A -> M B) (l : list A) : M (list B) :=
  match l with
  | [] => ret []
  | x :: l' => y <- f x ;; ys <- mapM f l' ;; ret (y :: ys)
  end.

(** The first error of a list of outcomes, or all the values. *)
Fixpoint all_ok {A} (l : list (Outcome A)) : Outcome (list A) :=
  match l with
  | [] => Ok []
  | Throw e :: _ => Throw e
  | Ok a :: l' =>
      match all_ok l' with
      | Ok l'' => Ok (a :: l'')
      | Throw e => Throw e
      end
  end.

(** [planSteps.push(s)] *)
Definition push_step (s : PlanStep) : M unit :=
  modify (fun w => set_planSteps (planSteps w ++ [s]) w).

(** A JavaScript string in a condition: the empty string is falsy. *)
Definition truthy (s : string) : bool := negb (String.eqb s "").

Definition opt_truthy (o : option string) : bool :=
  match o with Some s => truthy s | None => false end.

(* ===================================================================== *)
(** * The program *)
(* ===================================================================== *)

Section Program.
Variable E : Env.
Import JsString.

(** ** Redis commands *)

(** One command on [key]: it is counted, and rejects when the environment
    says so. *)
Definition redis_command {A} (command key : string) (f : Redis -> A * Redis) : M A :=
  fun w =>
    let r := redis w in
    let r1 := set_redis_ops (S (redis_ops r)) r in
    match redis_fault E (redis_ops r) command key with
    | Some message => (Throw message, set_redis r1 w)
    | None => let '(a, r2) := f r1 in (Ok a, set_redis r2 w)
    end.

(** [JSON.parse(await redis.get(key))], [None] for a missing key *)
Definition redis_get {V} (ns : Namespace V) (key : string) : M (option V) :=
  redis_command "GET" key (fun r => (snd <$> ns_read ns r !! key, r)).

(** [redis.setex(key, ttl, JSON.stringify(v))] *)
Definition redis_setex {V} (ns : Namespace V) (key : string) (ttl : N) (v : V) : M unit :=
  redis_command "SETEX" key
    (fun r => (tt, ns_write ns (<[key := (ttl, v)]> (ns_read ns r)) r)).

(** [redis.exists(key)] for an appointment key *)
Definition redis_exists (key : string) : M bool :=
  redis_command "EXISTS" key
    (fun r => (bool_decide (is_Some (appt_store r !! key)), r)).

(** [redis.sadd('appts:all', member)] *)
Definition redis_sadd (member : string) : M unit :=
  redis_command "SADD" "appts:all"
    (fun r => (tt, set_appts_all ({[member]} ∪ appts_all r) r)).

(** [new Date().toISOString()] and [Date.now()] read the clock. *)
Definition date_now : M N :=
  fun w => (Ok (Date_now E (clock_reads w)), set_clock_reads (S (clock_reads w)) w).

Definition now_iso : M string :=
  t <- date_now ;; ret (Date_toISOString E (Z.of_N t)).

(* ------------------------------------------------------------------- *)
(** ** IntentDetector (src/intent_detector.js) *)
(* ------------------------------------------------------------------- *)

Definition scheduleKeywords : list string :=
  ["book"; "schedule"; "appointment"; "reschedule"; "change";
   "move"; "make it"; "change to"; "rebook"; "slot"].

Definition knowledgeKeywords : list string :=
  ["what"; "where"; "how"; "when"; "why"; "tell me"; "policy";
   "parking"; "hours"; "insurance"; "prepare"; "bring"; "access";
   "grace"; "late"; "cancellation"; "location"; "office"].

Definition keywordFallback (message : string) : Intents :=
  let lower := toLowerCase message in
  let hasSchedule := existsb (fun kw => includes lower kw) scheduleKeywords in
  let hasKnowledge := existsb (fun kw => includes lower kw) knowledgeKeywords in
  {| schedule := hasSchedule; knowledge := hasKnowledge && negb hasSchedule |}.

Definition strip_label (p : Prediction) : string :=
  replace_first "__label__" "" (label p).

(** The body of [predictions.forEach]. *)
Definition mark_prediction (intents : Intents) (pred : Prediction) : Intents :=
  let l := strip_label pred in
  let intents1 :=
    if String.eqb l "schedule" && Js.gt (value pred) (3 # 10)
    then {| schedule := true; knowledge := knowledge intents |} else intents in
  if String.eqb l "knowledge" && Js.gt (value pred) (3 # 10)
  then {| schedule := schedule intents1; knowledge := true |} else intents1.

(** [intents[topLabel] = true]; another label adds a property nobody reads. *)
Definition set_label (intents : Intents) (topLabel : string) : Intents :=
  if String.eqb topLabel "schedule" then {| schedule := true; knowledge := knowledge intents |}
  else if String.eqb topLabel "knowledge" then {| schedule := schedule intents; knowledge := true |}
  else intents.

(** [predict], from the predictions of the classifier on. *)
Definition intents_of_predictions (predictions : list Prediction) : Intents :=
  let intents := fold_left mark_prediction predictions {| schedule := false; knowledge := false |} in
  match predictions with
  | top :: _ =>
      if negb (schedule intents) && negb (knowledge intents)
      then set_label intents (strip_label top)
      else intents
  | [] => intents
  end.

Definition predict (message : string) : M Intents :=
  ready <- gets isReady ;;
  if negb ready then ret (keywordFallback message)
  else
    try_catch
      (predictions <- of_outcome (classifier_predict E message) ;;
       ret (intents_of_predictions predictions))
      (fun _ => ret (keywordFallback message)).

(* ------------------------------------------------------------------- *)
(** ** QdrantDao (src/qdrantDao.js) *)
(* ------------------------------------------------------------------- *)

Definition getCachedEmbedding (text : string) : M (option (list Q)) :=
  try_catch
    (let cacheKey := "emb:" +:+ slice_to 100 (Js.base64 text) in
     redis_get emb_ns cacheKey)
    (fun _ => ret None).

Definition setCachedEmbedding (text : string) (embedding : list Q) : M unit :=
  try_catch
    (let cacheKey := "emb:" +:+ slice_to 100 (Js.base64 text) in
     redis_setex emb_ns cacheKey 3600%N embedding)
    (fun _ => ret tt).

(** [generateEmbedding] once the cache has answered. *)
Definition embedding_after_probe (text : string) (cached : option (list Q)) : M (list Q) :=
  match cached with
  | Some e => ret e
  | None =>
      embedding <- of_outcome (openai_embedding E text) ;;
      try_catch (setCachedEmbedding text embedding) (fun _ => ret tt) ;;;
      ret embedding
  end.

Definition generateEmbedding (text : string) : M (list Q) :=
  try_catch
    (cached <- getCachedEmbedding text ;; embedding_after_probe text cached)
    (fun e => throw e).

(** [Promise.all(texts.map(generateEmbedding))]: every call issues its
    cache read before any of them goes on, so the reads all see the cache
    as it was; the calls that went on keep running when one rejects. *)
Definition generateEmbeddings (texts : list string) : M (list (list Q)) :=
  probes <- mapM getCachedEmbedding texts ;;
  outcomes <- mapM (fun tc => settle (embedding_after_probe (fst tc) (snd tc)))
                   (combine texts probes) ;;
  of_outcome (all_ok outcomes).

Definition getCachedResults (query : string) : M (option (list Hit)) :=
  try_catch
    (let cacheKey := "query:" +:+ Js.base64 query in
     redis_get query_ns cacheKey)
    (fun _ => ret None).

Definition setCachedResults (query : string) (results : list Hit) : M unit :=
  try_catch
    (let cacheKey := "query:" +:+ Js.base64 query in
     redis_setex query_ns cacheKey 30%N results)
    (fun _ => ret tt).

(** The callback of [tfidfs], applied to document [i] with its measure. *)
Definition bm25_collect (dm : gmap nat DocEntry) (i : nat) (measure : Q) : list Hit :=
  match dm !! i with
  | Some doc =>
      if Js.gt measure 0%Q then
        [ {| point_id := entry_id doc; score := measure;
             payload := {| text := entry_text doc; doc_id := entry_doc_id doc;
                           chunk_index := entry_chunk_index doc; tags := None |} |} ]
      else []
  | None => []
  end.

Definition bm25Search (query : string) (limit : nat) : M (list Hit) :=
  try_catch
    (docs <- gets tfidf_documents ;;
     if (length docs =? 0)%nat then ret []
     else
       measures <- of_outcome (tfidf_tfidfs E docs query) ;;
       dm <- gets documentMap ;;
       let results := concat (imap (bm25_collect dm) measures) in
       ret (Js.slice_to limit (Js.sort (fun a b => Js.gt (score a) (score b)) results)))
    (fun _ => ret []).

Definition vectorSearch (query : string) (limit : nat) : M (list Hit) :=
  try_catch
    (queryEmbedding <- generateEmbedding query ;;
     of_outcome (qdrant_search E queryEmbedding limit))
    (fun _ => ret []).

(** Reciprocal rank fusion. *)
Definition rrfScore (rank : nat) : Q := (1 / (Js.of_nat 60 + Js.of_nat rank + 1))%Q.

(** [bm25Results.forEach((result, rank) => ...)], from rank [rank] on. *)
Fixpoint add_bm25 (results : list Hit) (rank : nat) (scoreMap : Js.omap (V := Q * Hit))
    : Js.omap (V := Q * Hit) :=
  match results with
  | [] => scoreMap
  | result :: rest =>
      add_bm25 rest (S rank) (Js.map_set (point_id result) (rrfScore rank, result) scoreMap)
  end.

(** [vectorResults.forEach((result, rank) => ...)], from rank [rank] on. *)
Fixpoint add_vector (results : list Hit) (rank : nat) (scoreMap : Js.omap (V := Q * Hit))
    : Js.omap (V := Q * Hit) :=
  match results with
  | [] => scoreMap
  | result :: rest =>
      add_vector rest (S rank)
        (match Js.map_get (point_id result) scoreMap with
         | Some (s, r) => Js.map_set (point_id result) ((s + rrfScore rank)%Q, r) scoreMap
         | None => Js.map_set (point_id result) (rrfScore rank, result) scoreMap
         end)
  end.

(** [{ ...item.result, score: item.score }] *)
Definition with_score (item : Q * Hit) : Hit :=
  {| point_id := point_id (snd item); score := fst item; payload := payload (snd item) |}.

Definition mergeResults (bm25Results vectorResults : list Hit) : list Hit :=
  let scoreMap := add_vector vectorResults 0 (add_bm25 bm25Results 0 []) in
  map with_score
    (Js.sort (fun a b : Q * Hit => Js.gt (fst a) (fst b)) (Js.map_values scoreMap)).

(** Jaccard similarity of the word sets of two texts. *)
Definition textSimilarity (text1 text2 : string) : Q :=
  let words1 := uniq (Regex.split_ws (toLowerCase text1)) in
  let words2 := uniq (Regex.split_ws (toLowerCase text2)) in
  let intersection := uniq (List.filter (fun x => existsb (String.eqb x) words2) words1) in
  let union := uniq (words1 ++ words2) in
  (Js.of_nat (length intersection) / Js.of_nat (length union))%Q.

(** The largest similarity of a candidate to the selected items. *)
Definition maxSimilarity (candidate : Hit) (selected : list Hit) : Q :=
  fold_left
    (fun m selectedItem =>
       Js.max m (textSimilarity (text (payload candidate)) (text (payload selectedItem))))
    selected 0%Q.

Definition mmrScore (lambda : Q) (selected : list Hit) (candidate : Hit) : Q :=
  (lambda * score candidate - (1 - lambda) * maxSimilarity candidate selected)%Q.

(** The inner [for] loop: [best] is [(bestIndex, bestScore)], and [None]
    stands for the initial [-Infinity]. *)
Fixpoint best_index (lambda : Q) (selected remaining : list Hit) (i : nat)
    (best : nat * option Q) : nat * option Q :=
  match remaining with
  | [] => best
  | candidate :: rest =>
      let s := mmrScore lambda selected candidate in
      let better := match snd best with
                    | None => true
                    | Some bestScore => Js.gt s bestScore
                    end in
      best_index lambda selected rest (S i) (if better then (i, Some s) else best)
  end.

(** [remaining.splice(i, 1)]: the removed element and what is left. *)
Definition splice1 (i : nat) (l : list Hit) : option Hit * list Hit :=
  (nth_error l i, firstn i l ++ skipn (S i) l).

(** The [while] loop; every round takes one element out of [remaining]. *)
Fixpoint mmr_loop (rounds : nat) (lambda : Q) (finalLimit : nat)
    (selected remaining : list Hit) : list Hit :=
  match rounds with
  | O => selected
  | S rounds' =>
      if (length selected <? finalLimit)%nat && (0 <? length remaining)%nat then
        let bestIndex := fst (best_index lambda selected remaining 0 (0%nat, None)) in
        match splice1 bestIndex remaining with
        | (Some c, remaining') => mmr_loop rounds' lambda finalLimit (selected ++ [c]) remaining'
        | (None, _) => selected
        end
      else selected
  end.

Definition applyMMR_with (lambda : Q) (results : list Hit) (finalLimit : nat) : list Hit :=
  if (length results <=? finalLimit)%nat then results
  else
    match results with
    | [] => []
    | first :: remaining => mmr_loop (length remaining) lambda finalLimit [first] remaining
    end.

(** [applyMMR(results, finalLimit)] with the default [lambda = 0.5] *)
Definition applyMMR (results : list Hit) (finalLimit : nat) : list Hit :=
  applyMMR_with (1 # 2) results finalLimit.

Definition searchDocuments (query : string) (limit : nat) : M (list Hit) :=
  try_catch
    (cached <- getCachedResults query ;;
     match cached with
     | Some hits => ret hits
     | None =>
         bm25Results <- bm25Search query 8 ;;
         vectorResults <- vectorSearch query 8 ;;
         let merged := mergeResults bm25Results vectorResults in
         let top8 := Js.slice_to 8 merged in
         let top3 := applyMMR top8 limit in
         try_catch (setCachedResults query top3) (fun _ => ret tt) ;;;
         ret top3
     end)
    (fun e => throw e).

(* ------------------------------------------------------------------- *)
(** ** KnowledgeAPI (src/knowledge_api.js) *)
(* ------------------------------------------------------------------- *)

(** [/===\s*[^=]+\s*===/g] *)
Definition banner_re : Regex.re :=
  Regex.Cat (Regex.lit "===")
    (Regex.Cat (Regex.Star is_space)
       (Regex.Cat (Regex.Plus (fun c => negb (Ascii.eqb c "=")))
          (Regex.Cat (Regex.Star is_space) (Regex.lit "===")))).

Definition is_terminator (c : ascii) : bool :=
  Ascii.eqb c "." || Ascii.eqb c "!" || Ascii.eqb c "?".

(** [/(?<=[.!?])\s+(?=[A-Z])/] *)
Definition sentence_break_re : Regex.re :=
  Regex.Cat (Regex.LookBehind is_terminator)
    (Regex.Cat (Regex.Plus is_space) (Regex.LookAhead is_upper)).

(** [/[.!?]$/] *)
Definition terminal_re : Regex.re := Regex.Cat (Regex.Cls is_terminator) Regex.EndOfInput.

(** [/\.\s+/] *)
Definition period_break_re : Regex.re := Regex.Cat (Regex.chr ".") (Regex.Plus is_space).

Definition terminate (s : string) : string :=
  if endsWithChar "." s || endsWithChar "!" s || endsWithChar "?" s then s else s +:+ ".".

Definition longer_than (n : nat) (s : string) : bool := (n <? String.length s)%nat.

Definition splitIntoSentences (text : string) : list string :=
  let cleanedText := Regex.remove_all false banner_re text in
  let lines := List.filter (longer_than 0) (map trim (split_char "010" cleanedText)) in
  let sentences :=
    flat_map
      (fun line =>
         let lineSentences :=
           List.filter (longer_than 10) (map trim (Regex.split false sentence_break_re line)) in
         flat_map
           (fun sent =>
              if longer_than 200 sent || negb (Regex.test false terminal_re sent) then
                map terminate
                  (List.filter (longer_than 10) (map trim (Regex.split false period_break_re sent)))
              else [sent])
           lineSentences)
      lines in
  uniq sentences.

Definition calculateBM25Score (query sentence : string) : Q :=
  let queryTerms := Regex.split_ws (toLowerCase query) in
  let sentenceTerms := Regex.split_ws (toLowerCase sentence) in
  let k1 : Q := 12 # 10 in
  let b : Q := 75 # 100 in
  let avgLength : Q := 20 # 1 in
  fold_left
    (fun (score : Q) (term : string) =>
       let termFreq := length (List.filter (fun t => String.eqb t term) sentenceTerms) in
       if (0 <? termFreq)%nat then
         let idf := Js.log_1 in
         let tf := (Js.of_nat termFreq * (k1 + 1)
                    / (Js.of_nat termFreq
                       + k1 * (1 - b + b * (Js.of_nat (length sentenceTerms) / avgLength))))%Q in
         (score + idf * tf)%Q
       else score)
    queryTerms 0%Q.

Definition cosineSimilarity (vecA vecB : list Q) : Q :=
  if negb (length vecA =? length vecB)%nat then 0%Q
  else
    let '(dotProduct, normA, normB) :=
      fold_left
        (fun (acc : Q * Q * Q) (ab : Q * Q) =>
           let '(d, na, nb) := acc in
           ((d + fst ab * snd ab)%Q, (na + fst ab * fst ab)%Q, (nb + snd ab * snd ab)%Q))
        (combine vecA vecB) (0%Q, 0%Q, 0%Q) in
    (dotProduct / (Math_sqrt E normA * Math_sqrt E normB))%Q.

(** The score of a sentence in [findBestSentence]. *)
Definition combinedScore (query : string) (queryEmbedding : list Q)
    (sentence : string) (sentenceEmbedding : list Q) : Q :=
  let semanticScore := cosineSimilarity queryEmbedding sentenceEmbedding in
  let bm25Score := calculateBM25Score query sentence in
  ((7 # 10) * semanticScore + (3 # 10) * bm25Score)%Q.

(** One round of the scoring loop on [(bestSentence, bestScore)]. *)
Definition score_step (query : string) (queryEmbedding : list Q)
    (best : string * Q) (se : string * list Q) : string * Q :=
  let s := combinedScore query queryEmbedding (fst se) (snd se) in
  if Js.gt s (snd best) then (fst se, s) else best.

Definition findBestSentence (query text0 : string) : M string :=
  try_catch
    (let sentences := splitIntoSentences text0 in
     match sentences with
     | [] => ret text0
     | [only] => ret only
     | first :: _ =>
         let validSentences := List.filter (fun s => (String.length s <=? 500)%nat) sentences in
         match validSentences with
         | [] => ret first
         | firstValid :: _ =>
             embeddings <- generateEmbeddings (query :: validSentences) ;;
             match embeddings with
             | queryEmbedding :: sentenceEmbeddings =>
                 let best :=
                   fold_left (score_step query queryEmbedding)
                     (combine validSentences sentenceEmbeddings) (firstValid, (-1)%Q) in
                 ret (trim (fst best))
             | [] => ret text0
             end
         end
     end)
    (fun _ => ret text0).

(** [Math.round(doc.score * 100) / 100] *)
Definition round2 (x : Q) : Q := (inject_Z (Js.round (x * 100)) / 100)%Q.

Definition citation_of (idx : nat) (doc : Hit) : Citation :=
  {| cite_id := doc_id (payload doc); cite_chunk := chunk_index (payload doc);
     cite_score := round2 (score doc); cite_ref := idx + 1 |}.

Definition no_information : Answer :=
  {| answer_reply := "I don't have information about that in my knowledge base.";
     answer_citations := [] |}.

Definition retrieval_error : Answer :=
  {| answer_reply := "Sorry, I encountered an error retrieving that information.";
     answer_citations := [] |}.

Definition getKnowledgeAnswer (message : string) : M Answer :=
  try_catch
    (let cacheKey := "knowledge:" +:+ slice_to 100 (Js.base64 message) in
     cached <- redis_get knowledge_ns cacheKey ;;
     match cached with
     | Some answer => ret answer
     | None =>
         docs <- searchDocuments message 3 ;;
         match docs with
         | [] => ret no_information
         | topDoc :: _ =>
             let citations := imap citation_of docs in
             bestSentence <- findBestSentence message (text (payload topDoc)) ;;
             let result := {| answer_reply := bestSentence; answer_citations := citations |} in
             redis_setex knowledge_ns cacheKey 600%N result ;;;
             ret result
         end
     end)
    (fun _ => ret retrieval_error).

(* ------------------------------------------------------------------- *)
(** ** ScheduleAPI (schedule_api.js) *)
(* ------------------------------------------------------------------- *)

(** [`A-${timestamp}-${n}`] with [timestamp = now.toString().slice(-6)] *)
Definition appt_id_of (now : N) (n : nat) : string :=
  "A-" +:+ slice_last 6 (pretty now) +:+ "-" +:+ pretty n.

(** [generateApptId] calls itself again while the identifier is taken;
    [tries] bounds the calls, see [generateApptId]. *)
Fixpoint generateApptId_from (tries : nat) : M string :=
  match tries with
  | O => throw "generateApptId: no identifier left"
  | S tries' =>
      now <- date_now ;;
      n <- gets lastApptNumber ;;
      modify (set_lastApptNumber (S n)) ;;;
      let apptId := appt_id_of now (S n) in
      taken <- redis_exists ("appt:" +:+ apptId) ;;
      if taken then generateApptId_from tries' else ret apptId
  end.

(** Every call tries a new counter value, so one call more than there are
    appointments always finds a free identifier. *)
Definition generateApptId : M string :=
  fun w => generateApptId_from (S (size (appt_store (redis w)))) w.

Definition scheduleAppointment (name slot loc : string) : M ApiResult :=
  try_catch
    (if negb (truthy name) || negb (truthy slot) || negb (truthy loc) then
       ret (ApiError "Missing required fields: name, slot, location")
     else
       apptId <- generateApptId ;;
       match Date_parse E slot with
       | None => ret (ApiError "Invalid date/time format")
       | Some slotDate =>
           created <- now_iso ;;
           let appointment :=
             {| appt_id := apptId; patient := name;
                normalized_slot_iso := Date_toISOString E slotDate;
                location := loc; status := "scheduled";
                created_at := created; updated_at := None |} in
           redis_setex appt_ns ("appt:" +:+ apptId) (86400 * 7)%N appointment ;;;
           redis_sadd apptId ;;;
           ret (ApiOk appointment)
       end)
    (fun e => ret (ApiError e)).

Definition rescheduleAppointment (apptId newSlot : string) : M ApiResult :=
  try_catch
    (apptData <- redis_get appt_ns ("appt:" +:+ apptId) ;;
     match apptData with
     | None => ret (ApiError ("Appointment " +:+ apptId +:+ " not found"))
     | Some appointment =>
         match Date_parse E newSlot with
         | None => ret (ApiError "Invalid date/time format")
         | Some slotDate =>
             updated <- now_iso ;;
             let appointment' :=
               {| appt_id := appt_id appointment; patient := patient appointment;
                  normalized_slot_iso := Date_toISOString E slotDate;
                  location := location appointment; status := status appointment;
                  created_at := created_at appointment; updated_at := Some updated |} in
             redis_setex appt_ns ("appt:" +:+ apptId) (86400 * 7)%N appointment' ;;;
             ret (ApiOk appointment')
         end
     end)
    (fun e => ret (ApiError e)).

Definition getAppointment (apptId : string) : M (option Appointment) :=
  try_catch (redis_get appt_ns ("appt:" +:+ apptId)) (fun _ => ret None).

(* ------------------------------------------------------------------- *)
(** ** Memory (src/memory.js) *)
(* ------------------------------------------------------------------- *)

Definition getLastAppt (sessionId : string) : M (option LastAppt) :=
  data <- redis_get memory_ns ("memory:" +:+ sessionId) ;;
  match data with
  | None => ret None
  | Some session => ret (last_appt session)
  end.

(** [apptData] is [{ patient, slot, location, appt_id }]; the session read
    back has no other field than [last_appt], which is overwritten. *)
Definition setLastAppt (sessionId : string) (p slot loc apptId : string) : M unit :=
  let key := "memory:" +:+ sessionId in
  _existing <- redis_get memory_ns key ;;
  timestamp <- now_iso ;;
  let session :=
    {| last_appt := Some {| last_patient := p; last_slot := slot; last_location := loc;
                            last_appt_id := apptId; last_timestamp := timestamp |} |} in
  redis_setex memory_ns key 1800%N session.

(* ------------------------------------------------------------------- *)
(** ** Orchestrator (src/orchestrator.js) *)
(* ------------------------------------------------------------------- *)

Definition extractTime (message : string) : option string :=
  match chrono_parseDate E message with
  | Some parsed => Some (Date_toISOString E parsed)
  | None => None
  end.

(** [([A-Z][a-z]+)] *)
Definition name_group : Regex.re :=
  Regex.Group (Regex.Cat (Regex.Cls is_upper) (Regex.Plus is_lower)).

Definition words (l : list string) : Regex.re := Regex.alts (map Regex.lit l).

(** The three patterns of [extractName]; each carries the [i] flag. *)
Definition name_patterns : list Regex.re :=
  [ (* /\b(?:book|schedule)\s+([A-Z][a-z]+)/i *)
    Regex.Cat Regex.WordBoundary
      (Regex.Cat (words ["book"; "schedule"])
         (Regex.Cat (Regex.Plus is_space) name_group));
    (* /\b(?:for|patient)\s+([A-Z][a-z]+)/i *)
    Regex.Cat Regex.WordBoundary
      (Regex.Cat (words ["for"; "patient"])
         (Regex.Cat (Regex.Plus is_space) name_group));
    (* /\b([A-Z][a-z]+)\s+(?:tomorrow|today|next|at|for)/i *)
    Regex.Cat Regex.WordBoundary
      (Regex.Cat name_group
         (Regex.Cat (Regex.Plus is_space)
            (words ["tomorrow"; "today"; "next"; "at"; "for"]))) ].

(** The [for] loop over the patterns: the first one with a match. *)
Fixpoint first_capture (patterns : list Regex.re) (message : string) : option string :=
  match patterns with
  | [] => None
  | pattern :: rest =>
      match Regex.capture1 true pattern message with
      | Some m => if truthy m then Some m else first_capture rest message
      | None => first_capture rest message
      end
  end.

Definition extractName (message : string) : option string :=
  match nlp_people E message with
  | person :: _ => Some person
  | [] => first_capture name_patterns message
  end.

Definition extractLocation (message : string) : string :=
  let lower := toLowerCase message in
  if includes lower "midtown" then "Midtown"
  else if includes lower "uptown" then "Uptown"
  else if includes lower "downtown" then "Downtown"
  else if includes lower "brooklyn" then "Brooklyn"
  else if includes lower "queens" then "Queens"
  else if includes lower "bronx" then "Bronx"
  else if includes lower "manhattan" then "Manhattan"
  else "Midtown".

(** [/make it|change to|move|reschedule|change the|move it/i] *)
Definition reschedule_re : Regex.re :=
  words ["make it"; "change to"; "move"; "reschedule"; "change the"; "move it"].

Definition isReschedule (message : string) : bool :=
  Regex.test true reschedule_re message.

(** [new Date(iso).toLocaleString('en-US', ...)] *)
Definition dateStr (iso : string) : string :=
  match Date_parse E iso with
  | Some t => Date_toLocaleString E t
  | None => "Invalid Date"
  end.

Definition or_empty (o : option string) : string :=
  match o with Some s => s | None => "" end.

Definition schedule_prompt : string :=
  "I need a patient name and time to schedule. For example: 'Book Chen for tomorrow at 10:30'".

Definition reschedule_prompt : string :=
  "I need a new time to reschedule. For example: 'Make it 11:00' or 'Change to 2pm'".

Definition unclear_reply : string :=
  "I'm not sure what you mean. You can ask about our policies or schedule an appointment.".

Definition error_reply : string :=
  "Sorry, I encountered an error processing your request.".

Definition booked_reply (name loc : string) (a : Appointment) : string :=
  "Booked " +:+ name +:+ " for " +:+ dateStr (normalized_slot_iso a)
    +:+ " at " +:+ loc +:+ " (" +:+ appt_id a +:+ ").".

Definition schedule_call (name slot loc : string) (result : ApiResult) : ToolCall :=
  {| tool_name := "schedule_appointment";
     tool_args := [("name", name); ("slot", slot); ("location", loc)];
     tool_result := result |}.

(** The response of a subflow: [plan_steps] is the array of the turn as it
    stands when the subflow returns. *)
Definition respond (text0 : string) (cites : list Citation)
    (calls : option (list ToolCall)) : M Response :=
  steps <- gets planSteps ;;
  ret {| reply := text0; citations := cites; plan_steps := steps;
         tool_calls := calls; error := None |}.

Definition handleSchedule (sessionId message : string) : M Response :=
  let chronoDate := extractTime message in
  let name := extractName message in
  let loc := extractLocation message in
  push_step (extract_entities name chronoDate loc) ;;;
  if negb (opt_truthy name) || negb (opt_truthy chronoDate) then
    respond schedule_prompt [] None
  else
    result <- scheduleAppointment (or_empty name) (or_empty chronoDate) loc ;;
    push_step (schedule_appointment (api_ok result)) ;;;
    match result with
    | ApiOk a =>
        setLastAppt sessionId (or_empty name) (or_empty chronoDate) loc (appt_id a) ;;;
        respond (booked_reply (or_empty name) loc a) []
          (Some [schedule_call (or_empty name) (or_empty chronoDate) loc result])
    | ApiError e =>
        respond ("Failed to schedule appointment: " +:+ e) [] None
    end.

Definition handleReschedule (sessionId message : string) (ctx : LastAppt) : M Response :=
  let chronoDate := extractTime message in
  push_step (extract_time chronoDate) ;;;
  if negb (opt_truthy chronoDate) then
    respond reschedule_prompt [] None
  else
    result <- rescheduleAppointment (last_appt_id ctx) (or_empty chronoDate) ;;
    push_step (reschedule_appointment (api_ok result)) ;;;
    match result with
    | ApiOk a =>
        setLastAppt sessionId (patient a) (or_empty chronoDate) (location a) (appt_id a) ;;;
        respond
          ("Rebooked " +:+ patient a +:+ " for " +:+ dateStr (normalized_slot_iso a)
             +:+ " at " +:+ location a +:+ " (" +:+ appt_id a +:+ ").")
          []
          (Some [ {| tool_name := "reschedule_appointment";
                     tool_args := [("appt_id", last_appt_id ctx);
                                   ("new_slot_iso", or_empty chronoDate)];
                     tool_result := result |} ])
    | ApiError e =>
        respond ("Failed to reschedule: " +:+ e) [] None
    end.

Definition handleKnowledge (sessionId message : string) : M Response :=
  answer <- getKnowledgeAnswer message ;;
  push_step (retrieve_knowledge (length (answer_citations answer))) ;;;
  respond (answer_reply answer) (answer_citations answer) None.

(** The first branch of [Promise.all] in [handleDualIntent]. *)
Definition dual_knowledge_branch (message : string) : M Answer :=
  answer <- getKnowledgeAnswer message ;;
  push_step (retrieve_knowledge (length (answer_citations answer))) ;;;
  ret answer.

(** The second branch, after its entity extraction: [None] is its [null]. *)
Definition dual_schedule_branch (sessionId : string) (name chronoDate : option string)
    (loc : string) : M (option (ApiResult * string * string * string)) :=
  if negb (opt_truthy name) || negb (opt_truthy chronoDate) then ret None
  else
    result <- scheduleAppointment (or_empty name) (or_empty chronoDate) loc ;;
    push_step (schedule_appointment (api_ok result)) ;;;
    (match result with
     | ApiOk a => setLastAppt sessionId (or_empty name) (or_empty chronoDate) loc (appt_id a)
     | ApiError _ => ret tt
     end) ;;;
    ret (Some (result, or_empty name, or_empty chronoDate, loc)).

(** [Promise.all] of the two branches. The scheduling branch extracts its
    entities and records them before either branch waits; after that the
    branches touch different keys, and the one the environment names runs
    first. When the scheduling branch rejects first, the turn ends there:
    the knowledge branch goes on in the background and its plan step
    comes too late for the response. *)
Definition dual_branches (sessionId message : string)
    : M (Answer * option (ApiResult * string * string * string)) :=
  let chronoDate := extractTime message in
  let name := extractName message in
  let loc := extractLocation message in
  push_step (extract_entities name chronoDate loc) ;;;
  if dual_schedule_first E then
    scheduled <- settle (dual_schedule_branch sessionId name chronoDate loc) ;;
    match scheduled with
    | Ok scheduleResult =>
        knowledgeResult <- dual_knowledge_branch message ;;
        ret (knowledgeResult, scheduleResult)
    | Throw e =>
        steps <- gets planSteps ;;
        settle (dual_knowledge_branch message) ;;;
        modify (set_planSteps steps) ;;;
        throw e
    end
  else
    knowledgeResult <- dual_knowledge_branch message ;;
    scheduleResult <- dual_schedule_branch sessionId name chronoDate loc ;;
    ret (knowledgeResult, scheduleResult).

Definition handleDualIntent (sessionId message : string) : M Response :=
  results <- dual_branches sessionId message ;;
  let '(knowledgeResult, scheduleResult) := results in
  let knowledgePart :=
    if truthy (answer_reply knowledgeResult) then [answer_reply knowledgeResult] else [] in
  match scheduleResult with
  | Some (ApiOk a, name, chronoDate, loc) =>
      respond (join " " (knowledgePart ++ [booked_reply name loc a]))
        (answer_citations knowledgeResult)
        (Some [schedule_call name chronoDate loc (ApiOk a)])
  | _ =>
      respond (join " " knowledgePart) (answer_citations knowledgeResult) (Some [])
  end.

Definition detectIntent (message : string) : M Intents := predict message.

(** [orchestrate], with the handler of the dual-intent branch as a
    parameter. *)
Definition orchestrate_with (dual : string -> string -> M Response)
    (sessionId message : string) : M Response :=
  modify (set_planSteps []) ;;;
  try_catch
    (intent <- detectIntent message ;;
     push_step (intent_detection intent) ;;;
     ctx <- getLastAppt sessionId ;;
     if knowledge intent && schedule intent then dual sessionId message
     else if schedule intent then
       (* [isReschedule(message) && ctx] *)
       match (if isReschedule message then ctx else None) with
       | Some c => handleReschedule sessionId message c
       | None => handleSchedule sessionId message
       end
     else if knowledge intent then handleKnowledge sessionId message
     else respond unclear_reply [] None)
    (fun e =>
       steps <- gets planSteps ;;
       ret {| reply := error_reply; citations := []; plan_steps := steps;
              tool_calls := None; error := Some e |}).

Definition orchestrate (sessionId message : string) : M Response :=
  orchestrate_with handleDualIntent sessionId message.

End Program.

(* ------------------------------------------------------------------- *)
(** * Maintenance: listing, cancelling, clearing, ingesting *)
(* ------------------------------------------------------------------- *)

(** [{ ok: true, message }] or [{ ok: false, error }] (cancelAppointment) *)
Inductive CancelResult :=
| Cancelled (message : string)
| CancelFailed (error : string).

(** [{ ok: true, deleted_count, message }] or [{ ok: false, error }]
    (deleteAllAppointments) *)
Inductive DeleteAllResult :=
| Deleted (deleted_count : nat) (message : string)
| DeleteFailed (error : string).

(** A document handed to [upsertDocuments]: [{ id, text, tags }]. *)
Record Document := {
  document_id : string;
  document_text : string;
  document_tags : option (list string)
}.

(** A point sent to the vector index: [{ id, vector, payload }]. *)
Record Point := { point_uuid : string; vector : list Q; point_payload : Payload }.

(** What ingestion needs from outside, besides [Env]. *)
Record Ingestion := {
  (** the identifier [uuidv4()] gives on its [n]-th call of an ingestion *)
  uuidv4 : nat -> string;
  (** the names [qdrant.getCollections()] lists *)
  qdrant_getCollections : Outcome (list string);
  qdrant_createCollection : string -> Outcome unit;
  (** [qdrant.upsert(collection, { wait: true, points })] *)
  qdrant_upsert : string -> list Point -> Outcome unit
}.

Definition set_index (docs : list string) (dm : gmap nat DocEntry) (w : World) : World :=
  {| redis := redis w; clock_reads := clock_reads w; isReady := isReady w;
     lastApptNumber := lastApptNumber w; tfidf_documents := docs;
     documentMap := dm; planSteps := planSteps w |}.

(** A [for] loop with an accumulator whose body awaits. *)
Fixpoint foldM {A B} (f : B -> A -> M B) (l : list A) (b : B) : M B :=
  match l with
  | [] => ret b
  | x :: l' => b' <- f b x ;; foldM f l' b'
  end.

(** The values that are there: [if (data) out.push(data)]. *)
Definition present {A} (l : list (option A)) : list A :=
  flat_map (fun o => match o with Some a => [a] | None => [] end) l.

Section Maintenance.
Variable E : Env.
Import JsString.

(** ** More Redis commands *)

(** [redis.keys(prefix + '*')]: the map of a namespace holds the keys of
    its prefix; the order of the reply is Redis's own. *)
Definition redis_keys {V} (ns : Namespace V) : M (list string) :=
  redis_command E "KEYS" (ns_prefix ns +:+ "*")
    (fun r => (List.filter (startsWith (ns_prefix ns))
                 (map fst (map_to_list (ns_read ns r))), r)).

(** [redis.del(key)] *)
Definition redis_del {V} (ns : Namespace V) (key : string) : M unit :=
  redis_command E "DEL" key (fun r => (tt, ns_write ns (delete key (ns_read ns r)) r)).

(** [redis.del(...keys)], one command *)
Definition redis_del_keys {V} (ns : Namespace V) (keys : list string) : M unit :=
  redis_command E "DEL" (join " " keys)
    (fun r => (tt, ns_write ns (foldr delete (ns_read ns r) keys) r)).

(** [redis.smembers('appts:all')] *)
Definition redis_smembers : M (list string) :=
  redis_command E "SMEMBERS" "appts:all" (fun r => (elements (appts_all r), r)).

(** [redis.srem('appts:all', member)] *)
Definition redis_srem (member : string) : M unit :=
  redis_command E "SREM" "appts:all"
    (fun r => (tt, set_appts_all (appts_all r ∖ {[member]}) r)).

(** [redis.del('appts:all')] *)
Definition redis_del_index : M unit :=
  redis_command E "DEL" "appts:all" (fun r => (tt, set_appts_all ∅ r)).

(** ** ScheduleAPI (schedule_api.js), continued *)

Definition getAllAppointments : M (list Appointment) :=
  try_catch
    (apptIds <- redis_smembers ;;
     found <- mapM (fun apptId => redis_get E appt_ns ("appt:" +:+ apptId)) apptIds ;;
     ret (present found))
    (fun _ => ret []).

Definition cancelAppointment (apptId : string) : M CancelResult :=
  try_catch
    (apptData <- redis_get E appt_ns ("appt:" +:+ apptId) ;;
     match apptData with
     | None => ret (CancelFailed ("Appointment " +:+ apptId +:+ " not found"))
     | Some _ =>
         redis_srem apptId ;;;
         redis_del appt_ns ("appt:" +:+ apptId) ;;;
         ret (Cancelled ("Appointment " +:+ apptId +:+ " cancelled"))
     end)
    (fun e => ret (CancelFailed e)).

Definition deleteAllAppointments : M DeleteAllResult :=
  try_catch
    (apptIds <- redis_smembers ;;
     if (length apptIds =? 0)%nat then ret (Deleted 0 "No appointments to delete")
     else
       let keysToDelete := map (fun id => "appt:" +:+ id) apptIds in
       redis_del_keys appt_ns keysToDelete ;;;
       redis_del_index ;;;
       ret (Deleted (length apptIds)
              ("Deleted " +:+ pretty (length apptIds) +:+ " appointments")))
    (fun e => ret (DeleteFailed e)).

(** ** Memory (src/memory.js), continued *)

(** The session [{}]. *)
Definition empty_session : Session := {| last_appt := None |}.

Definition getSession (sessionId : string) : M Session :=
  data <- redis_get E memory_ns ("memory:" +:+ sessionId) ;;
  match data with
  | Some session => ret session
  | None => ret empty_session
  end.

Definition clearSession (sessionId : string) : M unit :=
  redis_del memory_ns ("memory:" +:+ sessionId).

Definition getSessionCount : M nat :=
  keys <- redis_keys memory_ns ;; ret (length keys).

Definition clearAll : M unit :=
  keys <- redis_keys memory_ns ;;
  if (0 <? length keys)%nat then redis_del_keys memory_ns keys else ret tt.

(** ** KnowledgeAPI (src/knowledge_api.js), continued *)

Definition clearCache : M unit :=
  keys <- redis_keys knowledge_ns ;;
  if (0 <? length keys)%nat then redis_del_keys knowledge_ns keys else ret tt.

(** [getCacheStats().cached_queries] *)
Definition getCacheStats : M nat :=
  keys <- redis_keys knowledge_ns ;; ret (length keys).

(** The handler of [DELETE /cache/clear], up to its reply (server.js). *)
Definition clear_caches : M unit := clearCache ;;; clearAll.

(** ** QdrantDao (src/qdrantDao.js), continued *)

(** [Math.ceil(word.length / 4)] *)
Definition wordTokens (word : string) : nat := (String.length word + 3) / 4.

(** The body of the loop of [chunkText] on
    [(chunks, currentChunk, currentTokens)]. *)
Definition chunk_step (maxTokens : nat) (st : list string * list string * nat)
    (word : string) : list string * list string * nat :=
  let '(chunks, currentChunk, currentTokens) := st in
  if (maxTokens <? currentTokens + wordTokens word)%nat && (0 <? length currentChunk)%nat
  then (chunks ++ [join " " currentChunk], [word], wordTokens word)
  else (chunks, currentChunk ++ [word], (currentTokens + wordTokens word)%nat).

Definition chunkText (text0 : string) (maxTokens : nat) : list string :=
  let words := split_char " " text0 in
  let '(chunks, currentChunk, _) := fold_left (chunk_step maxTokens) words ([], [], 0%nat) in
  if (0 <? length currentChunk)%nat then chunks ++ [join " " currentChunk] else chunks.

Variable G : Ingestion.

Definition collectionName : string := "fastlane_knowledge".

Definition ensureCollection : M unit :=
  try_catch
    (collections <- of_outcome (qdrant_getCollections G) ;;
     if existsb (fun col => String.eqb col collectionName) collections then ret tt
     else of_outcome (qdrant_createCollection G collectionName))
    (fun e => throw e).

(** One round of the inner loop of [upsertDocuments] on [(points, chunkCount)],
    for chunk [i] of [doc]. *)
Definition upsert_chunk (doc : Document) (st : list Point * nat) (ic : nat * string)
    : M (list Point * nat) :=
  let '(points, chunkCount) := st in
  let '(i, chunk) := ic in
  embedding <- generateEmbedding E chunk ;;
  let pointId := uuidv4 G chunkCount in
  modify (fun w =>
            set_index (tfidf_documents w ++ [chunk])
              (<[chunkCount := {| entry_id := pointId; entry_text := chunk;
                                  entry_doc_id := document_id doc;
                                  entry_chunk_index := i |}]> (documentMap w)) w) ;;;
  ret (points ++ [ {| point_uuid := pointId; vector := embedding;
                      point_payload :=
                        {| text := chunk; doc_id := document_id doc; chunk_index := i;
                           tags := Some (default [] (document_tags doc)) |} |} ],
       S chunkCount).

Definition upsert_document (st : list Point * nat) (doc : Document) : M (list Point * nat) :=
  foldM (upsert_chunk doc) (imap pair (chunkText (document_text doc) 512)) st.

Definition upsertDocuments (documents : list Document) : M nat :=
  try_catch
    (ensureCollection ;;;
     modify (set_index [] ∅) ;;;
     st <- foldM upsert_document documents ([], 0%nat) ;;
     of_outcome (qdrant_upsert G collectionName (fst st)) ;;;
     ret (snd st))
    (fun e => throw e).

End Maintenance.

(* ===================================================================== *)
(** * A small installation, used to run the program *)
(* ===================================================================== *)

Module Demo.
Import JsString.

(** Square roots of rationals whose numerator and denominator are squares. *)
Definition sqrt_exact (x : Q) : Q := Qmake (Z.sqrt (Qnum x)) (Pos.sqrt (Qden x)).

(** A two-dimensional embedding: texts about lateness point one way, the
    others the other way. *)
Definition embed (t : string) : list Q :=
  if includes (toLowerCase t) "late" then [1%Q; 0%Q] else [0%Q; 1%Q].

Definition tomorrow : Z := 1767349800000.

(** Redis, the provider and the vector index all answer; the index holds
    nothing; the classifier has no model. *)
Definition env : Env := {|
  redis_fault := fun _ _ _ => None;
  openai_embedding := fun t => Ok (embed t);
  qdrant_search := fun _ _ => Ok [];
  tfidf_tfidfs := fun docs q =>
    Ok (map (fun d => if includes (toLowerCase d) "late" then (1 # 2)%Q else 0%Q) docs);
  Math_sqrt := sqrt_exact;
  Date_now := fun n => (1767263400000 + N.of_nat n)%N;
  Date_parse := fun s => if String.eqb s "2026-01-02T10:30:00.000Z" then Some tomorrow
                         else if String.eqb s "2026-01-02T11:00:00.000Z" then Some (tomorrow + 1800000)%Z
                         else None;
  Date_toISOString := fun t => if (t =? tomorrow)%Z then "2026-01-02T10:30:00.000Z"
                               else if (t =? tomorrow + 1800000)%Z then "2026-01-02T11:00:00.000Z"
                               else "2026-01-01T10:30:00.000Z";
  Date_toLocaleString := fun t => if (t =? tomorrow)%Z then "Jan 2, 10:30 AM" else "Jan 2, 11:00 AM";
  chrono_parseDate := fun s => if includes (toLowerCase s) "tomorrow" then Some tomorrow else None;
  nlp_people := fun _ => [];
  classifier_predict := fun _ => Throw "model not loaded";
  dual_schedule_first := false
|}.

(** [env] with other Redis faults. *)
Definition with_faults (f : nat -> string -> string -> option string) (e : Env) : Env :=
  {| redis_fault := f;
     openai_embedding := openai_embedding e; qdrant_search := qdrant_search e;
     tfidf_tfidfs := tfidf_tfidfs e; Math_sqrt := Math_sqrt e; Date_now := Date_now e;
     Date_parse := Date_parse e; Date_toISOString := Date_toISOString e;
     Date_toLocaleString := Date_toLocaleString e; chrono_parseDate := chrono_parseDate e;
     nlp_people := nlp_people e; classifier_predict := classifier_predict e;
     dual_schedule_first := dual_schedule_first e |}.

(** Every [SETEX] on a key of the given prefix rejects. *)
Definition writes_fail (prefix : string) : nat -> string -> string -> option string :=
  fun _ command key =>
    if String.eqb command "SETEX" && startsWith prefix key then Some "READONLY" else None.

(** The embedding provider is down. *)
Definition without_provider (e : Env) : Env :=
  {| redis_fault := redis_fault e;
     openai_embedding := fun _ => Throw "503 Service Unavailable";
     qdrant_search := qdrant_search e;
     tfidf_tfidfs := tfidf_tfidfs e; Math_sqrt := Math_sqrt e; Date_now := Date_now e;
     Date_parse := Date_parse e; Date_toISOString := Date_toISOString e;
     Date_toLocaleString := Date_toLocaleString e; chrono_parseDate := chrono_parseDate e;
     nlp_people := nlp_people e; classifier_predict := classifier_predict e;
     dual_schedule_first := dual_schedule_first e |}.

Definition empty_redis : Redis := {|
  emb_cache := ∅; query_cache := ∅; knowledge_cache := ∅; memory_store := ∅;
  appt_store := ∅; appts_all := ∅; redis_ops := 0 |}.

Definition late_policy : string :=
  "Our late policy: patients arriving more than 15 minutes late are rescheduled. Parking is available behind the building.".

(** One document, [pol-1], has been ingested as one chunk. *)
Definition world : World := {|
  redis := empty_redis; clock_reads := 0; isReady := false; lastApptNumber := 1000;
  tfidf_documents := [late_policy];
  documentMap := {[ 0%nat := {| entry_id := "7b0c"; entry_text := late_policy;
                                entry_doc_id := "pol-1"; entry_chunk_index := 0 |} ]};
  planSteps := [] |}.

(** Nothing has been ingested. *)
Definition blank_world : World := {|
  redis := empty_redis; clock_reads := 0; isReady := false; lastApptNumber := 1000;
  tfidf_documents := []; documentMap := ∅; planSteps := [] |}.

(** The classifier has a model, and answers every message with [predictions]. *)
Definition with_classifier (predictions : list Prediction) (e : Env) : Env :=
  {| redis_fault := redis_fault e;
     openai_embedding := openai_embedding e; qdrant_search := qdrant_search e;
     tfidf_tfidfs := tfidf_tfidfs e; Math_sqrt := Math_sqrt e; Date_now := Date_now e;
     Date_parse := Date_parse e; Date_toISOString := Date_toISOString e;
     Date_toLocaleString := Date_toLocaleString e; chrono_parseDate := chrono_parseDate e;
     nlp_people := nlp_people e; classifier_predict := fun _ => Ok predictions;
     dual_schedule_first := dual_schedule_first e |}.

Definition model_loaded (w : World) : World :=
  {| redis := redis w; clock_reads := clock_reads w; isReady := true;
     lastApptNumber := lastApptNumber w; tfidf_documents := tfidf_documents w;
     documentMap := documentMap w; planSteps := planSteps w |}.

(** A knowledge question with a scheduling request at confidence 0.3. *)
Definition dual_predictions : list Prediction :=
  [ {| label := "__label__knowledge"; value := 7 # 10 |};
    {| label := "__label__schedule"; value := 3 # 10 |} ].

(** Two lexical and two dense results that share the chunk [c2]. *)
Definition chunk (id t : string) : Hit :=
  {| point_id := id; score := 1;
     payload := {| text := t; doc_id := "pol-1"; chunk_index := 0; tags := None |} |}.

Definition lexical_hits : list Hit :=
  [chunk "c1" "late arrivals are rescheduled"; chunk "c2" "parking is behind the building"].

Definition dense_hits : list Hit :=
  [chunk "c2" "parking is behind the building"; chunk "c3" "office hours are nine to five"].

(** Every [GET] on a key of the given prefix rejects. *)
Definition reads_fail (prefix : string) : nat -> string -> string -> option string :=
  fun _ command key =>
    if String.eqb command "GET" && startsWith prefix key then Some "ECONNRESET" else None.


(** A chrono that also knows 11:00. *)
Definition with_clock_times (e : Env) : Env :=
  {| redis_fault := redis_fault e;
     openai_embedding := openai_embedding e; qdrant_search := qdrant_search e;
     tfidf_tfidfs := tfidf_tfidfs e; Math_sqrt := Math_sqrt e; Date_now := Date_now e;
     Date_parse := Date_parse e; Date_toISOString := Date_toISOString e;
     Date_toLocaleString := Date_toLocaleString e;
     chrono_parseDate := fun s =>
       if includes s "11:00" then Some (tomorrow + 1800000)%Z else chrono_parseDate e s;
     nlp_people := nlp_people e; classifier_predict := classifier_predict e;
     dual_schedule_first := dual_schedule_first e |}.

(** The appointment of Chen, as booked first thing in [blank_world]. *)
Definition chen : Appointment :=
  {| appt_id := "A-400000-1001"; patient := "Chen";
     normalized_slot_iso := "2026-01-02T10:30:00.000Z"; location := "Midtown";
     status := "scheduled"; created_at := "2026-01-01T10:30:00.000Z"; updated_at := None |}.

Definition booked : World :=
  snd (scheduleAppointment env "Chen" "2026-01-02T10:30:00.000Z" "Midtown" blank_world).

(** One policy document to ingest, with a collection that is there. *)
Definition documents : list Document :=
  [ {| document_id := "pol-1"; document_text := late_policy; document_tags := None |} ].

Definition ingestion : Ingestion :=
  {| uuidv4 := fun n => "id-" +:+ pretty n;
     qdrant_getCollections := Ok ["fastlane_knowledge"];
     qdrant_createCollection := fun _ => Ok tt;
     qdrant_upsert := fun _ _ => Ok tt |}.

(** Two questions that differ after their first 75 characters. *)
Definition late_weekdays : string :=
  "what is the late policy for patients who arrive after the scheduled time of an appointment on weekdays?".

Definition late_weekends : string :=
  "what is the late policy for patients who arrive after the scheduled time of an appointment on weekends?".

End Demo.


(* ===================================================================== *)
(** * Vocabulary of the properties *)
(* ===================================================================== *)

(** ** Intent classification *)

(** Some prediction carries label [l] with a confidence above 0.3. *)
Definition crossesb (l : string) (predictions : list Prediction) : bool :=
  existsb (fun p => String.eqb (strip_label p) l && Js.gt (value p) (3 # 10)) predictions.

Definition crosses (l : string) (predictions : list Prediction) : Prop :=
  exists p, In p predictions /\ strip_label p = l /\ (3 # 10 < value p)%Q.

(** [l] is the label of the first prediction. *)
Definition top_label (l : string) (predictions : list Prediction) : Prop :=
  exists p rest, predictions = p :: rest /\ strip_label p = l.

(** ** Plan steps *)

(** [m] leaves the [planSteps] array of the turn as it is. *)
Definition keeps_steps {A} (m : M A) : Prop :=
  forall w o w', m w = (o, w') -> planSteps w' = planSteps w.

(** [m] only ever pushes onto the [planSteps] array. *)
Definition appends_steps {A} (m : M A) : Prop :=
  forall w o w', m w = (o, w') -> exists more, planSteps w' = planSteps w ++ more.

(** [m] only pushes plan steps, and a response it returns carries no [error]
    and the array as it then stands. *)
Definition responds_with_steps (m : M Response) : Prop :=
  forall w o w', m w = (o, w') ->
    (exists more, planSteps w' = planSteps w ++ more)
    /\ forall r, o = Ok r -> error r = None /\ plan_steps r = planSteps w'.

(** ** Redis *)

(** Redis answers every command. *)
Definition redis_up (E : Env) : Prop :=
  forall n command key, redis_fault E n command key = None.

(** The world after one more Redis command that wrote nothing. *)
Definition after_command (w : World) : World :=
  set_redis (set_redis_ops (S (redis_ops (redis w))) (redis w)) w.

(** No character of [s] is a dash. *)
Fixpoint dash_free (s : string) : bool :=
  match s with
  | EmptyString => true
  | String c s' => negb (Ascii.eqb c "-") && dash_free s'
  end.

(** ** Retrieval *)

(** What the lexical branch returns in world [w]. *)
Definition lexical_results (E : Env) (query : string) (limit : nat) (w : World) : list Hit :=
  match fst (bm25Search E query limit w) with
  | Ok results => results
  | Throw _ => []
  end.

(** The dense branch fails: the query has no cached embedding and the
    provider rejects the call, or the vector index rejects every search. *)
Definition dense_branch_fails (E : Env) (query : string) (w : World) : Prop :=
  (emb_cache (redis w) !! ("emb:" +:+ JsString.slice_to 100 (Js.base64 query)) = None
   /\ exists e, openai_embedding E query = Throw e)
  \/ (forall v, exists e, qdrant_search E v 8 = Throw e).

(** ** Rank fusion *)

(** The 0-based rank of chunk [id] in a result list counted from [rank]. *)
Fixpoint rank_from (id : string) (l : list Hit) (rank : nat) : option nat :=
  match l with
  | [] => None
  | h :: l' => if String.eqb id (point_id h) then Some rank else rank_from id l' (S rank)
  end.

Definition rank_in (id : string) (l : list Hit) : option nat := rank_from id l 0.

(** What a source contributes to the fused score of chunk [id]. *)
Definition contribution (id : string) (l : list Hit) : Q :=
  match rank_in id l with
  | Some r => rrfScore r
  | None => 0%Q
  end.

Definition fused_score (bm25 vec : list Hit) (id : string) : Q :=
  (contribution id bm25 + contribution id vec)%Q.

(** A rank is better than another; a chunk missing from the source ranks last. *)
Definition rank_better (a b : option nat) : Prop :=
  match a, b with
  | Some x, Some y => (x < y)%nat
  | Some _, None => True
  | None, _ => False
  end.

(** The order of fused candidates: score descending, then lexical rank, then
    [point_id]. *)
Definition fused_before (bm25 : list Hit) (a b : Hit) : Prop :=
  (score b < score a)%Q
  \/ ((score a == score b)%Q
      /\ (rank_better (rank_in (point_id a) bm25) (rank_in (point_id b) bm25)
          \/ (rank_in (point_id a) bm25 = rank_in (point_id b) bm25
              /\ String.leb (point_id a) (point_id b) = true))).

(** The comparator [(a, b) => key(b) - key(a)] of a descending sort. *)
Definition by_key_desc {A} (key : A -> Q) (a b : A) : bool := Js.gt (key a) (key b).

(** [a] is ahead of [b] after a stable descending sort: a larger key, or the
    same key and ahead in the input, where [P] is the order of the input. *)
Definition ahead {A} (key : A -> Q) (P : A -> A -> Prop) (a b : A) : Prop :=
  (key b < key a)%Q \/ ((key a == key b)%Q /\ P a b).

(** The score map [mergeResults] builds. *)
Definition score_map (bm25 vec : list Hit) : Js.omap (V := Q * Hit) :=
  add_vector vec 0 (add_bm25 bm25 0 []).

(** The entries [add_bm25] makes for fresh chunks, from rank [rank] on. *)
Fixpoint entries_from (results : list Hit) (rank : nat) : Js.omap (V := Q * Hit) :=
  match results with
  | [] => []
  | h :: rest => (point_id h, (rrfScore rank, h)) :: entries_from rest (S rank)
  end.

(** What [add_vector] does to an entry that is already in the map. *)
Definition bump (vec : list Hit) (rank : nat) (e : string * (Q * Hit)) : string * (Q * Hit) :=
  match rank_from (fst e) vec rank with
  | Some r => (fst e, ((fst (snd e) + rrfScore r)%Q, snd (snd e)))
  | None => e
  end.

Definition keys (m : Js.omap (V := Q * Hit)) : list string := map fst m.

(** The chunk of an entry of the score map. *)
Definition hit_of (e : string * (Q * Hit)) : Hit := snd (snd e).

Definition in_lexical (bm25 : list Hit) (h : Hit) : bool :=
  existsb (fun b => String.eqb (point_id h) (point_id b)) bm25.

(** The order in which the chunks enter the score map: the lexical results by
    rank, then those of the dense results that are new, by rank. *)
Definition entered_before (bm25 vec : list Hit) (a b : Hit) : Prop :=
  rank_better (rank_in (point_id a) bm25) (rank_in (point_id b) bm25)
  \/ (rank_in (point_id a) bm25 = None /\ rank_in (point_id b) bm25 = None
      /\ rank_better (rank_in (point_id a) vec) (rank_in (point_id b) vec)).

(** ** Diversity selection *)

(** The set of lowercased, whitespace-separated words of a text. *)
Definition word_set (t : string) : gset string :=
  list_to_set (Regex.split_ws (JsString.toLowerCase t)).

(** Jaccard similarity of the word sets of two texts. *)
Definition jaccard (t1 t2 : string) : Q :=
  (Js.of_nat (size (word_set t1 ∩ word_set t2))
   / Js.of_nat (size (word_set t1 ∪ word_set t2)))%Q.

(** [m] is the largest similarity of candidate [c] to a selected chunk. *)
Definition max_similarity (c : Hit) (selected : list Hit) (m : Q) : Prop :=
  (exists s, In s selected /\ (m == jaccard (text (payload c)) (text (payload s)))%Q)
  /\ forall s, In s selected -> (jaccard (text (payload c)) (text (payload s)) <= m)%Q.

(** Greedy selection of up to [k] chunks: [mmr_selects k selected remaining out]
    says that going on from [selected], taking each time a remaining chunk
    with the largest MMR score, ends with [out]. *)
Inductive mmr_selects (k : nat) : list Hit -> list Hit -> list Hit -> Prop :=
| mmr_done selected remaining :
    (k <= length selected)%nat \/ remaining = [] ->
    mmr_selects k selected remaining selected
| mmr_pick selected before c after out :
    (length selected < k)%nat ->
    (forall c', In c' (before ++ c :: after) ->
                (mmrScore (1 # 2) selected c' <= mmrScore (1 # 2) selected c)%Q) ->
    mmr_selects k (selected ++ [c]) (before ++ after) out ->
    mmr_selects k selected (before ++ c :: after) out.

(** ** Maintenance, caches and conversations *)

(** The chunks as groups of words: the closed ones and the open one. *)
Definition within_budget (maxTokens : nat) (g : list string) : Prop :=
  length g = 1%nat \/ (sum_list (map wordTokens g) <= maxTokens)%nat.

(** [m] keeps [P] true of the world, however it ends. *)
Definition maintains {A} (P : World -> Prop) (m : M A) : Prop :=
  forall w, P w -> P (snd (m w)).

(** A predicate on the world that only looks at what [f] reads. *)
Definition reads {X} (f : World -> X) (x : X) : World -> Prop := fun w => f w = x.

(** Everything [generateApptId] leaves alone. *)
Definition beside_ids (w : World) :=
  (appts_all (redis w), memory_store (redis w), knowledge_cache (redis w),
   query_cache (redis w), emb_cache (redis w), isReady w, planSteps w,
   tfidf_documents w, documentMap w).

(** The world after [n] more Redis commands that wrote nothing. *)
Fixpoint after_commands (n : nat) (w : World) : World :=
  match n with
  | O => w
  | S n' => after_commands n' (after_command w)
  end.

(** Every stored appointment is in state scheduled. *)
Definition scheduled_only (w : World) : Prop :=
  forall key ttl a, appt_store (redis w) !! key = Some (ttl, a) -> status a = "scheduled".


(** Everything but the embedding cache and the counters of Redis commands
    and clock readings. *)
Definition beside_embeddings (w : World) :=
  (query_cache (redis w), knowledge_cache (redis w), memory_store (redis w),
   appt_store (redis w), appts_all (redis w), isReady w, lastApptNumber w,
   tfidf_documents w, documentMap w, planSteps w).

(** The key of the [knowledge:] cache for a message, and of the [query:]
    cache for a query. *)
Definition knowledge_key (message : string) : string :=
  "knowledge:" +:+ JsString.slice_to 100 (Js.base64 message).

Definition query_key (query : string) : string := "query:" +:+ Js.base64 query.

Definition emb_key (text0 : string) : string :=
  "emb:" +:+ JsString.slice_to 100 (Js.base64 text0).

(** The keys of a map that carry a prefix, as [KEYS] lists them. *)
Definition keys_of {V} (prefix : string) (m : gmap string V) : list string :=
  List.filter (JsString.startsWith prefix) (map fst (map_to_list m)).

(** The chunks an ingestion goes through, in order: each with its
    document and its number within the document. *)
Definition planned (documents : list Document) : list (Document * (nat * string)) :=
  flat_map (fun doc => map (pair doc) (imap pair (chunkText (document_text doc) 512)))
    documents.

(** The entry of [documentMap] for the [k]-th chunk of an ingestion. *)
Definition entry_of (G : Ingestion) (k : nat) (item : Document * (nat * string)) : DocEntry :=
  {| entry_id := uuidv4 G k; entry_text := snd (snd item);
     entry_doc_id := document_id (fst item); entry_chunk_index := fst (snd item) |}.

(** The collection is there, or can be created. *)
Definition collection_ready (G : Ingestion) : Prop :=
  exists collections,
    qdrant_getCollections G = Ok collections
    /\ (existsb (fun col => String.eqb col collectionName) collections = true
        \/ qdrant_createCollection G collectionName = Ok tt).

(** The lexical index and its map of documents go together: position [i]
    of the one holds the text of entry [i] of the other. *)
Definition index_aligned (w : World) : Prop :=
  forall i, entry_text <$> documentMap w !! i = tfidf_documents w !! i.

(** The entries of a score map have distinct keys, and each holds the
    chunk of its key. *)
Definition keyed (m : Js.omap (V := Q * Hit)) : Prop :=
  List.NoDup (keys m) /\ forall e, In e m -> point_id (hit_of e) = fst e.

(** [s] ends with a full stop, an exclamation mark or a question mark. *)
Definition ends_sentence (s : string) : bool :=
  JsString.endsWithChar "." s || JsString.endsWithChar "!" s || JsString.endsWithChar "?" s.

(** The intents [predict] finds for a message when the model is loaded
    or not, as [ready] says. *)
Definition intents_of (E : Env) (ready : bool) (message : string) : Intents :=
  if negb ready then keywordFallback message
  else match classifier_predict E message with
       | Ok predictions => intents_of_predictions predictions
       | Throw _ => keywordFallback message
       end.

(** What a knowledge turn leaves alone. *)
Definition beside_caches (w : World) :=
  (memory_store (redis w), appt_store (redis w), appts_all (redis w),
   lastApptNumber w, isReady w, tfidf_documents w, documentMap w).

(** The plan of the turn starts with the steps [a] and [b]. *)
Definition starts_with (a b : PlanStep) (w : World) : Prop :=
  exists rest, planSteps w = a :: b :: rest.

(** The tool call of a rescheduling. *)
Definition reschedule_call (apptId newSlot : string) (result : ApiResult) : ToolCall :=
  {| tool_name := "reschedule_appointment";
     tool_args := [("appt_id", apptId); ("new_slot_iso", newSlot)];
     tool_result := result |}.

(** One round of the loop of an ingestion over the planned chunks. *)
Definition upsert_step (E : Env) (G : Ingestion) (st : list Point * nat)
    (item : Document * (nat * string)) : M (list Point * nat) :=
  upsert_chunk E G (fst item) st (snd item).

(** The provider has an embedding for every text. *)
Definition provider_answers (E : Env) : Prop :=
  forall t, exists e, openai_embedding E t = Ok e.

(* ===================================================================== *)
(** * Properties *)
(* ===================================================================== *)

Create HintDb steps.

(** ** Numbers and the monad *)

Lemma gt_spec (a b : Q) : Js.gt a b = true <-> (b < a)%Q.
Proof.
  unfold Js.gt. rewrite negb_true_iff. split.
  - intros H. apply Qnot_le_lt. intros Hle. apply Qle_bool_iff in Hle. congruence.
  - intros H. destruct (Qle_bool a b) eqn:Hb; [|reflexivity].
    apply Qle_bool_iff in Hb. exfalso. exact (Qlt_not_le _ _ H Hb).
Qed.

Lemma gt_false (a b : Q) : Js.gt a b = false <-> (a <= b)%Q.
Proof. unfold Js.gt. rewrite negb_false_iff. apply Qle_bool_iff. Qed.

Lemma of_nat_nonneg n : (0 <= Js.of_nat n)%Q.
Proof. unfold Js.of_nat, Qle. cbn. lia. Qed.

Lemma append_cons c a b : String c a +:+ b = String c (a +:+ b).
Proof. reflexivity. Qed.

Lemma append_nil b : "" +:+ b = b.
Proof. reflexivity. Qed.
(** ** Laws of [bind] and [try_catch] *)

Section MonadLaws.
Context {A B : Type}.

Lemma bind_ok (m : M A) (f : A -> M B) w a w' :
  m w = (Ok a, w') -> bind m f w = f a w'.
Proof. intros H. unfold bind. now rewrite H. Qed.

Lemma bind_throw (m : M A) (f : A -> M B) w e w' :
  m w = (Throw e, w') -> bind m f w = (Throw e, w').
Proof. intros H. unfold bind. now rewrite H. Qed.

Lemma try_catch_ok (m : M A) h w a w' :
  m w = (Ok a, w') -> try_catch m h w = (Ok a, w').
Proof. intros H. unfold try_catch. now rewrite H. Qed.

Lemma try_catch_throw (m : M A) h w e w' :
  m w = (Throw e, w') -> try_catch m h w = h e w'.
Proof. intros H. unfold try_catch. now rewrite H. Qed.
End MonadLaws.


(** ** The keyword fallback *)

Lemma keywordFallback_not_both message :
  knowledge (keywordFallback message) && schedule (keywordFallback message) = false.
Proof.
  unfold keywordFallback. cbn [knowledge schedule].
  match goal with |- context [negb ?b] => destruct b end;
    [now rewrite andb_false_r | now rewrite andb_false_r].
Qed.

Lemma predict_fallback E message w :
  isReady w = false \/ (exists e, classifier_predict E message = Throw e) ->
  predict E message w = (Ok (keywordFallback message), w).
Proof.
  intros H. unfold predict, bind, gets, try_catch, of_outcome, ret.
  destruct (isReady w) eqn:Hr; simpl; [|reflexivity].
  destruct H as [H | [e He]]; [discriminate|].
  now rewrite He.
Qed.

(** C10. When classification falls back to the keyword rules (the model is
    not loaded, or the classifier rejects), [predict] returns the keyword
    intents: the knowledge flag is set only if no schedule keyword occurs in
    the lowercased message, the two flags are never both set, and the turn
    is the same whatever handler stands in the dual-intent branch of
    [orchestrate]: that branch is not reached. *)
Theorem keyword_fallback_is_never_dual (E : Env) (message : string) (w : World) :
  isReady w = false \/ (exists e, classifier_predict E message = Throw e) ->
  exists intents,
    predict E message w = (Ok intents, w)
    /\ intents = keywordFallback message
    /\ (knowledge intents = true ->
        forall kw, In kw scheduleKeywords ->
                   JsString.includes (JsString.toLowerCase message) kw = false)
    /\ ~ (schedule intents = true /\ knowledge intents = true)
    /\ forall dual sessionId,
         orchestrate_with E dual sessionId message w = orchestrate E sessionId message w.
Proof.
  intros H. exists (keywordFallback message).
  split; [now apply predict_fallback|]. split; [reflexivity|].
  split; [|split].
  - unfold keywordFallback; cbn [knowledge]. intros Hk kw Hin.
    apply andb_true_iff in Hk as [_ Hs]. apply negb_true_iff in Hs.
    destruct (JsString.includes _ kw) eqn:Hi; [|reflexivity].
    rewrite <- Hs. symmetry. apply existsb_exists. exists kw. now split.
  - intros [Hs Hk]. pose proof (keywordFallback_not_both message) as Hb.
    rewrite Hs, Hk in Hb. discriminate.
  - intros dual sessionId.
    assert (Hp : forall w0, isReady w0 = isReady w ->
              detectIntent E message w0 = (Ok (keywordFallback message), w0)).
    { intros w0 Hw0. apply predict_fallback. rewrite Hw0. exact H. }
    unfold orchestrate, orchestrate_with, push_step, bind, try_catch, modify.
    cbn beta iota. rewrite !Hp by reflexivity. cbn beta iota.
    destruct (getLastAppt E sessionId _) as [[ctx|e] w1]; [|reflexivity].
    rewrite (keywordFallback_not_both message). reflexivity.
Qed.

(** ** The trained classifier *)

Lemma crossesb_spec l predictions : crossesb l predictions = true <-> crosses l predictions.
Proof.
  unfold crossesb, crosses. rewrite existsb_exists. split.
  - intros [p [Hin Hp]]. apply andb_true_iff in Hp as [Hl Hv].
    exists p. repeat split; [assumption | now apply String.eqb_eq | now apply gt_spec].
  - intros [p [Hin [Hl Hv]]]. exists p. split; [assumption|].
    apply andb_true_iff. split; [now apply String.eqb_eq | now apply gt_spec].
Qed.

Lemma fold_mark_prediction predictions intents :
  schedule (fold_left mark_prediction predictions intents)
    = schedule intents || crossesb "schedule" predictions
  /\ knowledge (fold_left mark_prediction predictions intents)
    = knowledge intents || crossesb "knowledge" predictions.
Proof.
  revert intents. induction predictions as [|p ps IH]; intros intents; cbn [fold_left].
  - unfold crossesb; cbn. now rewrite !orb_false_r.
  - destruct (IH (mark_prediction intents p)) as [Hs Hk]. rewrite Hs, Hk.
    unfold crossesb; cbn [existsb]. unfold mark_prediction.
    destruct (String.eqb (strip_label p) "schedule") eqn:Es;
      destruct (String.eqb (strip_label p) "knowledge") eqn:Ek;
      destruct (Js.gt (value p) (3 # 10)); cbn;
      destruct (schedule intents), (knowledge intents); cbn; auto.
Qed.

Lemma intents_of_predictions_spec predictions :
  let intents := intents_of_predictions predictions in
  let none := ~ crosses "schedule" predictions /\ ~ crosses "knowledge" predictions in
  (schedule intents = true <->
     crosses "schedule" predictions \/ (none /\ top_label "schedule" predictions))
  /\ (knowledge intents = true <->
     crosses "knowledge" predictions \/ (none /\ top_label "knowledge" predictions)).
Proof.
  cbv zeta. unfold intents_of_predictions.
  destruct (fold_mark_prediction predictions {| schedule := false; knowledge := false |})
    as [Hs Hk]. cbn [schedule knowledge orb] in Hs, Hk.
  pose proof (crossesb_spec "schedule" predictions) as Cs.
  pose proof (crossesb_spec "knowledge" predictions) as Ck.
  set (f := fold_left mark_prediction predictions _) in *.
  assert (Hne : "schedule" <> "knowledge") by discriminate.
  destruct predictions as [|top rest].
  - rewrite Hs, Hk. unfold top_label. split; split; intros H.
    + left. now apply Cs.
    + destruct H as [H | [_ [p [r [Heq _]]]]]; [now apply Cs | discriminate].
    + left. now apply Ck.
    + destruct H as [H | [_ [p [r [Heq _]]]]]; [now apply Ck | discriminate].
  - destruct (schedule f) eqn:Fs; destruct (knowledge f) eqn:Fk; cbn [negb andb].
    + rewrite Fs, Fk. split; split; intros _; try reflexivity; left; [apply Cs | apply Ck]; congruence.
    + rewrite Fs, Fk. split; split; intros H; try reflexivity; try discriminate.
      * left. apply Cs. congruence.
      * destruct H as [H | [[N _] _]]; [apply Ck in H; congruence|].
        exfalso. apply N, Cs. congruence.
    + rewrite Fs, Fk. split; split; intros H; try reflexivity; try discriminate.
      * destruct H as [H | [[_ N] _]]; [apply Cs in H; congruence|].
        exfalso. apply N, Ck. congruence.
      * left. apply Ck. congruence.
    + assert (Ns : ~ crosses "schedule" (top :: rest)) by (intros C; apply Cs in C; congruence).
      assert (Nk : ~ crosses "knowledge" (top :: rest)) by (intros C; apply Ck in C; congruence).
      unfold set_label, top_label.
      destruct (String.eqb (strip_label top) "schedule") eqn:Es.
      * apply String.eqb_eq in Es. cbn [schedule knowledge]. rewrite Fk.
        split; split; intros H; try reflexivity; try discriminate.
        -- right. split; [now split|]. now exists top, rest.
        -- destruct H as [H | [_ [p [r [Heq Hl]]]]]; [contradiction|].
           injection Heq as <- <-. congruence.
      * apply String.eqb_neq in Es.
        destruct (String.eqb (strip_label top) "knowledge") eqn:Ek.
        -- apply String.eqb_eq in Ek. cbn [schedule knowledge]. rewrite Fs.
           split; split; intros H; try reflexivity; try discriminate.
           ++ destruct H as [H | [_ [p [r [Heq Hl]]]]]; [contradiction|].
              injection Heq as <- <-. congruence.
           ++ right. split; [now split|]. now exists top, rest.
        -- apply String.eqb_neq in Ek. rewrite Fs, Fk.
           split; split; intros H; try discriminate.
           ++ destruct H as [H | [_ [p [r [Heq Hl]]]]]; [contradiction|].
              injection Heq as <- <-. congruence.
           ++ destruct H as [H | [_ [p [r [Heq Hl]]]]]; [contradiction|].
              injection Heq as <- <-. congruence.
Qed.

(** C5, as amended. On the trained-model path a label is set exactly when
    some returned prediction carries it with a confidence strictly above 0.3,
    or when no returned confidence is above 0.3 and it is the label of the
    first prediction. *)
Theorem predict_sets_labels_above_threshold
    (E : Env) (message : string) (w : World) (predictions : list Prediction) :
  isReady w = true ->
  classifier_predict E message = Ok predictions ->
  exists intents,
    predict E message w = (Ok intents, w)
    /\ let none := ~ crosses "schedule" predictions /\ ~ crosses "knowledge" predictions in
       (schedule intents = true <->
          crosses "schedule" predictions \/ (none /\ top_label "schedule" predictions))
       /\ (knowledge intents = true <->
          crosses "knowledge" predictions \/ (none /\ top_label "knowledge" predictions)).
Proof.
  intros Hr Hp. exists (intents_of_predictions predictions). split.
  - unfold predict, bind, gets, try_catch, of_outcome, ret. rewrite Hr, Hp. reflexivity.
  - apply intents_of_predictions_spec.
Qed.

(** C5, counterexample. A prediction whose confidence is exactly 0.3 does not
    set its label. *)
Lemma confidence_of_exactly_threshold_is_not_set :
  exists p, In p Demo.dual_predictions /\ strip_label p = "schedule" /\ (3 # 10 <= value p)%Q
    /\ fst (predict (Demo.with_classifier Demo.dual_predictions Demo.env) "what is the late policy" (Demo.model_loaded Demo.world))
       = Ok {| schedule := false; knowledge := true |}.
Proof.
  eexists. split; [right; left; reflexivity|].
  split; [reflexivity|]. split; [apply Qle_refl|]. vm_compute. reflexivity.
Qed.


(** ** Sentence rescoring *)

Lemma bm25_fold_zero (sentenceTerms queryTerms : list string) (score0 : Q) :
  (score0 == 0)%Q ->
  (fold_left
      (fun (score : Q) (term : string) =>
         let termFreq := length (List.filter (fun t => String.eqb t term) sentenceTerms) in
         if (0 <? termFreq)%nat then
           let idf := Js.log_1 in
           let tf := (Js.of_nat termFreq * ((12 # 10) + 1)
                      / (Js.of_nat termFreq
                         + (12 # 10) * (1 - (75 # 100) + (75 # 100) * (Js.of_nat (length sentenceTerms) / (20 # 1)))))%Q in
           (score + idf * tf)%Q
         else score)
      queryTerms score0 == 0)%Q.
Proof.
  revert score0. induction queryTerms as [|t ts IH]; intros score0 H0; cbn [fold_left].
  - exact H0.
  - apply IH. destruct (0 <? _)%nat; [|exact H0].
    cbv zeta. unfold Js.log_1. rewrite Qmult_0_l, Qplus_0_r. exact H0.
Qed.

(** C2. [calculateBM25Score] multiplies every term by [Math.log(1)], so the
    lexical component is zero for every query and sentence, shared terms or
    not, and the combined score is 0.7 times the cosine. *)
Theorem lexical_component_is_always_zero (E : Env) (query sentence : string)
    (queryEmbedding sentenceEmbedding : list Q) :
  (calculateBM25Score query sentence == 0)%Q
  /\ (combinedScore E query queryEmbedding sentence sentenceEmbedding
      == (7 # 10) * cosineSimilarity E queryEmbedding sentenceEmbedding)%Q.
Proof.
  assert (H : (calculateBM25Score query sentence == 0)%Q).
  { unfold calculateBM25Score. cbv zeta. apply bm25_fold_zero. reflexivity. }
  split; [exact H|]. unfold combinedScore. cbv zeta. rewrite H. ring.
Qed.


(** ** Entity extraction *)

(** C3. On the message of the missing-entity scenario the first pattern of
    [extractName], which is case-insensitive, captures the word after Book:
    the name is never null, and the turn books an appointment for a patient
    named for instead of returning the prompt. *)
Theorem book_for_tomorrow_books_a_patient_named_for :
  first_capture name_patterns "Book for tomorrow" = Some "for"
  /\ (forall E, exists n, extractName E "Book for tomorrow" = Some n)
  /\ exists r w',
       orchestrate Demo.env "s6" "Book for tomorrow" Demo.blank_world = (Ok r, w')
       /\ reply r = "Booked for for Jan 2, 10:30 AM at Midtown (A-400000-1001)."
       /\ (exists call, tool_calls r = Some [call] /\ tool_name call = "schedule_appointment"
                        /\ api_ok (tool_result call) = true)
       /\ (patient ∘ snd) <$> (appt_store (redis w') !! "appt:A-400000-1001") = Some "for".
Proof.
  split; [vm_compute; reflexivity|]. split.
  - intros E. unfold extractName. destruct (nlp_people E _); [|eauto].
    exists "for". vm_compute. reflexivity.
  - eexists. eexists. split; [vm_compute; reflexivity|].
    split; [reflexivity|]. split; [|vm_compute; reflexivity].
    eexists. split; [reflexivity|]. split; reflexivity.
Qed.


(** ** Cache writes *)

(** C1. A failing write to the [query:] cache changes nothing in what
    [searchDocuments] and [getKnowledgeAnswer] return, but a failing write to
    the [knowledge:] cache turns the answer that was retrieved into the
    error reply. *)
Theorem knowledge_cache_write_failure_fails_the_query :
  let q := "what is the late policy?" in
  let query_down := Demo.with_faults (Demo.writes_fail "query:") Demo.env in
  let knowledge_down := Demo.with_faults (Demo.writes_fail "knowledge:") Demo.env in
  fst (searchDocuments query_down q 3 Demo.world) = fst (searchDocuments Demo.env q 3 Demo.world)
  /\ fst (getKnowledgeAnswer query_down q Demo.world) = fst (getKnowledgeAnswer Demo.env q Demo.world)
  /\ (exists a, fst (getKnowledgeAnswer Demo.env q Demo.world) = Ok a
                /\ length (answer_citations a) = 1%nat)
  /\ fst (getKnowledgeAnswer knowledge_down q Demo.world) = Ok retrieval_error.
Proof.
  cbv zeta. split; [vm_compute; reflexivity|]. split; [vm_compute; reflexivity|].
  split; [|vm_compute; reflexivity].
  eexists. split; [vm_compute; reflexivity|reflexivity].
Qed.

(** ** Plan steps *)

Section Steps.
Variable E : Env.

Lemma keeps_ret {A} (a : A) : keeps_steps (ret a).
Proof. intros w o w' H. injection H as _ <-. reflexivity. Qed.

Lemma keeps_throw {A} e : keeps_steps (@throw A e).
Proof. intros w o w' H. injection H as _ <-. reflexivity. Qed.

Lemma keeps_gets {A} (f : World -> A) : keeps_steps (gets f).
Proof. intros w o w' H. injection H as _ <-. reflexivity. Qed.

Lemma keeps_of_outcome {A} (o : Outcome A) : keeps_steps (of_outcome o).
Proof. intros w o' w' H. injection H as _ <-. reflexivity. Qed.

Lemma keeps_bind {A B} (m : M A) (f : A -> M B) :
  keeps_steps m -> (forall a, keeps_steps (f a)) -> keeps_steps (bind m f).
Proof.
  intros Hm Hf w o w' H. unfold bind in H.
  destruct (m w) as [[a|e] w1] eqn:Em.
  - rewrite (Hf a _ _ _ H). exact (Hm _ _ _ Em).
  - injection H as _ <-. exact (Hm _ _ _ Em).
Qed.

Lemma keeps_try_catch {A} (m : M A) h :
  keeps_steps m -> (forall e, keeps_steps (h e)) -> keeps_steps (try_catch m h).
Proof.
  intros Hm Hh w o w' H. unfold try_catch in H.
  destruct (m w) as [[a|e] w1] eqn:Em.
  - injection H as _ <-. exact (Hm _ _ _ Em).
  - rewrite (Hh e _ _ _ H). exact (Hm _ _ _ Em).
Qed.

Lemma keeps_settle {A} (m : M A) : keeps_steps m -> keeps_steps (settle m).
Proof.
  intros Hm w o w' H. unfold settle in H.
  destruct (m w) as [o1 w1] eqn:Em. injection H as _ <-. exact (Hm _ _ _ Em).
Qed.

Lemma keeps_mapM {A B} (f : A -> M B) l :
  (forall a, keeps_steps (f a)) -> keeps_steps (mapM f l).
Proof.
  intros Hf. induction l as [|x l IH]; cbn [mapM].
  - apply keeps_ret.
  - apply keeps_bind; [apply Hf|]. intros y.
    apply keeps_bind; [apply IH|]. intros ys. apply keeps_ret.
Qed.

Lemma keeps_redis_command {A} command key (f : Redis -> A * Redis) :
  keeps_steps (redis_command E command key f).
Proof.
  intros w o w' H. unfold redis_command in H.
  destruct (redis_fault E _ _ _).
  - injection H as _ <-. reflexivity.
  - destruct (f _) as [a r2]. injection H as _ <-. reflexivity.
Qed.

Lemma keeps_date_now : keeps_steps (date_now E).
Proof. intros w o w' H. injection H as _ <-. reflexivity. Qed.

Lemma keeps_set_lastApptNumber n : keeps_steps (modify (set_lastApptNumber n)).
Proof. intros w o w' H. injection H as _ <-. reflexivity. Qed.

Hint Resolve keeps_ret keeps_throw keeps_gets keeps_of_outcome keeps_redis_command
  keeps_date_now keeps_set_lastApptNumber : steps.

(** Goals [keeps_steps m], by the shape of [m]. *)
Ltac keeps :=
  repeat first
    [ progress intros
    | solve [auto with steps]
    | apply keeps_ret
    | apply keeps_throw
    | apply keeps_bind
    | apply keeps_try_catch
    | apply keeps_settle
    | apply keeps_mapM
    | match goal with
      | |- keeps_steps (match ?x with _ => _ end) => destruct x
      end ].

Lemma keeps_redis_get {V} (ns : Namespace V) key : keeps_steps (redis_get E ns key).
Proof. unfold redis_get. keeps. Qed.

Lemma keeps_redis_setex {V} (ns : Namespace V) key ttl v :
  keeps_steps (redis_setex E ns key ttl v).
Proof. unfold redis_setex. keeps. Qed.

Lemma keeps_now_iso : keeps_steps (now_iso E).
Proof. unfold now_iso. keeps. Qed.

Hint Resolve keeps_redis_get keeps_redis_setex keeps_now_iso : steps.

Lemma keeps_predict message : keeps_steps (predict E message).
Proof. unfold predict. keeps. Qed.

Lemma keeps_generateEmbeddings texts : keeps_steps (generateEmbeddings E texts).
Proof.
  unfold generateEmbeddings, getCachedEmbedding, embedding_after_probe, setCachedEmbedding.
  keeps.
Qed.

Lemma keeps_searchDocuments query limit : keeps_steps (searchDocuments E query limit).
Proof.
  unfold searchDocuments, getCachedResults, setCachedResults, bm25Search, vectorSearch,
    generateEmbedding, getCachedEmbedding, embedding_after_probe, setCachedEmbedding.
  keeps.
Qed.

Hint Resolve keeps_generateEmbeddings keeps_searchDocuments : steps.

Lemma keeps_getKnowledgeAnswer message : keeps_steps (getKnowledgeAnswer E message).
Proof. unfold getKnowledgeAnswer, findBestSentence. keeps. Qed.

Lemma keeps_generateApptId_from tries : keeps_steps (generateApptId_from E tries).
Proof.
  induction tries as [|n IH]; cbn [generateApptId_from]; [keeps|].
  unfold redis_exists. keeps.
Qed.

Lemma keeps_generateApptId : keeps_steps (generateApptId E).
Proof. intros w o w' H. exact (keeps_generateApptId_from _ _ _ _ H). Qed.

Hint Resolve keeps_generateApptId : steps.

Lemma keeps_scheduleAppointment name slot loc :
  keeps_steps (scheduleAppointment E name slot loc).
Proof. unfold scheduleAppointment, redis_sadd. keeps. Qed.

Lemma keeps_rescheduleAppointment apptId newSlot :
  keeps_steps (rescheduleAppointment E apptId newSlot).
Proof. unfold rescheduleAppointment. keeps. Qed.

Lemma keeps_getLastAppt sessionId : keeps_steps (getLastAppt E sessionId).
Proof. unfold getLastAppt. keeps. Qed.

Lemma keeps_setLastAppt sessionId p slot loc apptId :
  keeps_steps (setLastAppt E sessionId p slot loc apptId).
Proof. unfold setLastAppt. keeps. Qed.

Hint Resolve keeps_predict keeps_getKnowledgeAnswer keeps_scheduleAppointment
  keeps_rescheduleAppointment keeps_getLastAppt keeps_setLastAppt : steps.

(** *** Appending *)

Lemma keeps_appends {A} (m : M A) : keeps_steps m -> appends_steps m.
Proof. intros H w o w' Hm. exists []. rewrite app_nil_r. exact (H _ _ _ Hm). Qed.

Lemma appends_push s : appends_steps (push_step s).
Proof. intros w o w' H. injection H as _ <-. now exists [s]. Qed.

Lemma appends_bind {A B} (m : M A) (f : A -> M B) :
  appends_steps m -> (forall a, appends_steps (f a)) -> appends_steps (bind m f).
Proof.
  intros Hm Hf w o w' H. unfold bind in H.
  destruct (m w) as [[a|e] w1] eqn:Em.
  - destruct (Hm _ _ _ Em) as [l1 H1]. destruct (Hf a _ _ _ H) as [l2 H2].
    exists (l1 ++ l2). rewrite H2, H1. now rewrite <- app_assoc.
  - injection H as _ <-. exact (Hm _ _ _ Em).
Qed.

Lemma appends_settle {A} (m : M A) : appends_steps m -> appends_steps (settle m).
Proof.
  intros Hm w o w' H. unfold settle in H.
  destruct (m w) as [o1 w1] eqn:Em. injection H as _ <-. exact (Hm _ _ _ Em).
Qed.

Hint Resolve appends_push : steps.

Ltac appends :=
  repeat first
    [ progress intros
    | solve [auto with steps]
    | solve [apply keeps_appends; auto with steps]
    | apply appends_bind
    | apply appends_settle
    | match goal with
      | |- appends_steps (match ?x with _ => _ end) => destruct x
      end ].

Lemma appends_dual_knowledge_branch message :
  appends_steps (dual_knowledge_branch E message).
Proof. unfold dual_knowledge_branch. appends. Qed.

Lemma appends_dual_schedule_branch sessionId name chronoDate loc :
  appends_steps (dual_schedule_branch E sessionId name chronoDate loc).
Proof. unfold dual_schedule_branch. appends. Qed.

(** The branch that lost the race leaves no trace in the array. *)
Lemma appends_dual_branches sessionId message :
  appends_steps (dual_branches E sessionId message).
Proof.
  unfold dual_branches.
  apply appends_bind; [appends|]. intros _.
  destruct (dual_schedule_first E).
  - apply appends_bind; [apply appends_settle, appends_dual_schedule_branch|].
    intros [scheduleResult|e].
    + apply appends_bind; [apply appends_dual_knowledge_branch|]. appends.
    + intros w o w' H. exists []. rewrite app_nil_r.
      unfold bind, gets, settle, modify, throw in H.
      destruct (dual_knowledge_branch E message w) as [o1 w1].
      injection H as _ <-. reflexivity.
  - apply appends_bind; [apply appends_dual_knowledge_branch|]. intros k.
    apply appends_bind; [apply appends_dual_schedule_branch|]. appends.
Qed.

(** *** Responses *)

Lemma responds_respond text0 cites calls : responds_with_steps (respond text0 cites calls).
Proof.
  intros w o w' H. unfold respond, bind, gets, ret in H. injection H as <- <-.
  split; [exists []; now rewrite app_nil_r|].
  intros r Hr. injection Hr as <-. split; reflexivity.
Qed.

Lemma responds_bind {A} (m : M A) (f : A -> M Response) :
  appends_steps m -> (forall a, responds_with_steps (f a)) ->
  responds_with_steps (bind m f).
Proof.
  intros Hm Hf w o w' H. unfold bind in H.
  destruct (m w) as [[a|e] w1] eqn:Em.
  - destruct (Hm _ _ _ Em) as [l1 H1]. destruct (Hf a _ _ _ H) as [[l2 H2] Hr].
    split; [|exact Hr]. exists (l1 ++ l2). rewrite H2, H1. now rewrite <- app_assoc.
  - injection H as <- <-. split; [exact (Hm _ _ _ Em)|]. intros r Hr. discriminate.
Qed.

Hint Resolve responds_respond appends_dual_branches : steps.

Ltac responds :=
  repeat first
    [ progress intros
    | solve [auto with steps]
    | apply responds_bind; [solve [appends] |]
    | match goal with
      | |- responds_with_steps (match ?x with _ => _ end) => destruct x
      end ].

Lemma responds_handleSchedule sessionId message :
  responds_with_steps (handleSchedule E sessionId message).
Proof. unfold handleSchedule. responds. Qed.

Lemma responds_handleReschedule sessionId message ctx :
  responds_with_steps (handleReschedule E sessionId message ctx).
Proof. unfold handleReschedule. responds. Qed.

Lemma responds_handleKnowledge sessionId message :
  responds_with_steps (handleKnowledge E sessionId message).
Proof. unfold handleKnowledge. responds. Qed.

Lemma responds_handleDualIntent sessionId message :
  responds_with_steps (handleDualIntent E sessionId message).
Proof. unfold handleDualIntent. responds. Qed.

Hint Resolve responds_handleSchedule responds_handleReschedule responds_handleKnowledge
  responds_handleDualIntent : steps.

(** What [orchestrate] runs inside its [try], once the array is allocated. *)
Lemma orchestrate_always_answers sessionId message w :
  exists r w', orchestrate E sessionId message w = (Ok r, w').
Proof.
  unfold orchestrate, orchestrate_with, bind at 1, modify, try_catch.
  match goal with |- context [bind ?m ?f ?w0] => destruct (bind m f w0) as [[r|e] w1] end.
  - eauto.
  - unfold bind, gets, ret. eauto.
Qed.

(** C9. Every turn returns a response, and a response without [error] (the
    top-level handler did not fire) has a first plan step, whose [step] is
    intent_detection. *)
Theorem plan_steps_start_with_intent_detection (sessionId message : string) (w : World) :
  exists r w',
    orchestrate E sessionId message w = (Ok r, w')
    /\ (error r = None ->
        exists first rest,
          plan_steps r = first :: rest /\ step first = "intent_detection").
Proof.
  destruct (orchestrate_always_answers sessionId message w) as [r [w' Ho]].
  exists r, w'. split; [exact Ho|]. intros Herr.
  unfold orchestrate, orchestrate_with, bind at 1, modify, try_catch in Ho.
  set (w0 := set_planSteps [] w) in Ho.
  unfold bind at 1 in Ho.
  destruct (detectIntent E message w0) as [[intent|e] w1] eqn:Ei.
  2:{ unfold bind, gets, ret in Ho. injection Ho as <- _. discriminate. }
  assert (H1 : planSteps w1 = []) by exact (keeps_predict _ _ _ _ Ei).
  unfold bind at 1 in Ho. unfold push_step at 1, modify in Ho.
  set (w2 := set_planSteps (planSteps w1 ++ [intent_detection intent]) w1) in Ho.
  assert (H2 : planSteps w2 = [intent_detection intent]) by (cbn; now rewrite H1).
  unfold bind at 1 in Ho.
  destruct (getLastAppt E sessionId w2) as [[ctx|e] w3] eqn:Ec.
  2:{ unfold bind, gets, ret in Ho. injection Ho as <- _. discriminate. }
  assert (H3 : planSteps w3 = [intent_detection intent]).
  { rewrite <- H2. exact (keeps_getLastAppt _ _ _ _ Ec). }
  match type of Ho with
  | match ?h w3 with _ => _ end = _ =>
      assert (Hh : responds_with_steps h);
      [ | destruct (h w3) as [[r0|e] w4] eqn:Eh ]
  end.
  - destruct (knowledge intent && schedule intent); [auto with steps|].
    destruct (schedule intent).
    + destruct (if isReschedule message then ctx else None); auto with steps.
    + destruct (knowledge intent); auto with steps.
  - injection Ho as <- <-.
    destruct (Hh _ _ _ Eh) as [[more Hm] Hr]. destruct (Hr r0 eq_refl) as [_ Hp].
    rewrite Hp, Hm, H3. cbn. eauto.
  - unfold bind, gets, ret in Ho. injection Ho as <- _. discriminate.
Qed.

End Steps.

(** ** Appointments *)

Section ApptIds.


Lemma dash_free_digits x s : dash_free s = true -> dash_free (pretty_N_go x s) = true.
Proof.
  revert s. induction (N.lt_wf_0 x) as [x _ IH]. intros s Hs.
  destruct (N.eq_dec x 0%N) as [-> | Hx].
  - now rewrite pretty_N_go_0.
  - rewrite pretty_N_go_step by lia. apply IH.
    + apply N.div_lt; lia.
    + cbn [dash_free]. rewrite Hs, andb_true_r.
      unfold pretty_N_char. now repeat case_match.
Qed.

Lemma dash_free_pretty_nat (n : nat) : dash_free (pretty n) = true.
Proof.
  unfold pretty, pretty_nat, pretty, pretty_N. case_decide; [reflexivity|].
  now apply dash_free_digits.
Qed.

Lemma dash_free_app_dash a x : dash_free (a +:+ String "-" x) = false.
Proof.
  induction a as [|c a IH].
  - reflexivity.
  - rewrite append_cons. cbn [dash_free]. rewrite IH. apply andb_false_r.
Qed.

(** What follows the last dash of a string is determined by the string. *)
Lemma after_last_dash a b x y :
  dash_free x = true -> dash_free y = true ->
  a +:+ String "-" x = b +:+ String "-" y -> x = y.
Proof.
  intros Hx Hy. revert b. induction a as [|c a IH]; intros [|d b] H; rewrite ?append_cons, ?append_nil in H.
  - now injection H.
  - injection H as _ H. rewrite H, dash_free_app_dash in Hx. discriminate.
  - injection H as _ H. rewrite <- H, dash_free_app_dash in Hy. discriminate.
  - injection H as _ H. exact (IH b H).
Qed.

Lemma appt_key_counter now1 now2 n1 n2 :
  "appt:" +:+ appt_id_of now1 n1 = "appt:" +:+ appt_id_of now2 n2 -> n1 = n2.
Proof.
  unfold appt_id_of. rewrite !append_cons, !append_nil. intros H.
  repeat match type of H with String _ _ = String _ _ => injection H as H end.
  apply after_last_dash in H; try apply dash_free_pretty_nat.
  exact (inj pretty _ _ H).
Qed.

End ApptIds.

Section Schedule.
Variable E : Env.
Hypothesis Hup : redis_up E.

Lemma redis_command_up {A} command key (f : Redis -> A * Redis) w :
  redis_command E command key f w
  = (Ok (fst (f (set_redis_ops (S (redis_ops (redis w))) (redis w)))),
     set_redis (snd (f (set_redis_ops (S (redis_ops (redis w))) (redis w)))) w).
Proof.
  unfold redis_command. rewrite Hup. now destruct (f _).
Qed.

Ltac run :=
  repeat progress
    (unfold bind, ret, gets, modify, try_catch, throw, of_outcome, now_iso, date_now,
       redis_get, redis_setex, redis_sadd, redis_exists;
     cbn beta iota zeta; rewrite ?redis_command_up; cbn [fst snd]).

(** A call of [generateApptId] that may still try [tries] identifiers, when
    [seen] holds taken identifiers that earlier calls have tried. *)
Lemma generateApptId_from_fresh tries : forall w (seen : gset string),
  seen ⊆ dom (appt_store (redis w)) ->
  (forall key, key ∈ seen ->
     exists now n, key = "appt:" +:+ appt_id_of now n /\ (n <= lastApptNumber w)%nat) ->
  (size (appt_store (redis w)) < tries + size seen)%nat ->
  exists apptId w',
    generateApptId_from E tries w = (Ok apptId, w')
    /\ appt_store (redis w') = appt_store (redis w)
    /\ appt_store (redis w) !! ("appt:" +:+ apptId) = None.
Proof.
  induction tries as [|tries IH]; intros w seen Hsub Hseen Hsize.
  - exfalso. apply subseteq_size in Hsub. rewrite size_dom in Hsub. cbn in Hsize. lia.
  - cbn [generateApptId_from].
    unfold bind, date_now, gets, modify, redis_exists.
    rewrite redis_command_up. cbn [fst snd].
    set (key := "appt:" +:+ appt_id_of _ _).
    match goal with |- context [if bool_decide ?P then _ else _] =>
      destruct (bool_decide_reflect P) as [Htaken | Hfree] end.
    + match goal with |- context [generateApptId_from E tries ?w1] =>
        destruct (IH w1 ({[key]} ∪ seen)) as (apptId & w' & Hrun & Hstore & Hnone) end.
      * cbn. apply union_subseteq. split; [|exact Hsub].
        apply singleton_subseteq_l, elem_of_dom. exact Htaken.
      * intros k Hk. cbn. apply elem_of_union in Hk as [Hk | Hk].
        -- apply elem_of_singleton in Hk. subst k key.
           eexists _, _. split; [reflexivity|]. cbn. lia.
        -- destruct (Hseen k Hk) as (now & n & -> & Hn). exists now, n. split; [reflexivity|lia].
      * cbn. rewrite size_union.
        -- rewrite size_singleton. cbn in Hsize. lia.
        -- apply disjoint_singleton_l. intros Hin.
           destruct (Hseen key Hin) as (now & n & Hkey & Hn).
           apply appt_key_counter in Hkey. cbn in Hkey. lia.
      * exists apptId, w'. cbn in Hstore, Hnone. auto.
    + eexists. eexists. split; [reflexivity|]. split; [reflexivity|].
      subst key. cbn in Hfree |- *. apply eq_None_not_Some. exact Hfree.
Qed.

Lemma generateApptId_fresh w :
  exists apptId w',
    generateApptId E w = (Ok apptId, w')
    /\ appt_store (redis w') = appt_store (redis w)
    /\ appt_store (redis w) !! ("appt:" +:+ apptId) = None.
Proof.
  unfold generateApptId.
  apply (generateApptId_from_fresh _ w ∅).
  - apply empty_subseteq.
  - intros key Hk. now apply not_elem_of_empty in Hk.
  - rewrite size_empty. lia.
Qed.

Lemma scheduleAppointment_stores (name slot loc : string) (t : Z) (w : World) :
  truthy name = true -> truthy slot = true -> truthy loc = true ->
  Date_parse E slot = Some t ->
  exists a w1,
    scheduleAppointment E name slot loc w = (Ok (ApiOk a), w1)
    /\ patient a = name
    /\ normalized_slot_iso a = Date_toISOString E t
    /\ location a = loc
    /\ status a = "scheduled"
    /\ updated_at a = None
    /\ appt_store (redis w) !! ("appt:" +:+ appt_id a) = None
    /\ appt_store (redis w1) = <["appt:" +:+ appt_id a := (604800%N, a)]> (appt_store (redis w)).
Proof.
  intros Hn Hs Hl Ht.
  destruct (generateApptId_fresh w) as (apptId & wg & Hg & Hstore & Hnone).
  unfold scheduleAppointment. rewrite Hn, Hs, Hl. cbn [negb orb].
  unfold try_catch. unfold bind at 1. rewrite Hg, Ht. run.
  eexists. eexists. split; [reflexivity|].
  cbn. rewrite Hstore. auto 10.
Qed.

Lemma rescheduleAppointment_stores (apptId newSlot : string) (t' : Z) ttl a (w : World) :
  appt_store (redis w) !! ("appt:" +:+ apptId) = Some (ttl, a) ->
  Date_parse E newSlot = Some t' ->
  exists a' w2,
    rescheduleAppointment E apptId newSlot w = (Ok (ApiOk a'), w2)
    /\ normalized_slot_iso a' = Date_toISOString E t'
    /\ appt_id a' = appt_id a
    /\ patient a' = patient a
    /\ location a' = location a
    /\ status a' = status a
    /\ created_at a' = created_at a
    /\ (exists u, updated_at a' = Some u)
    /\ appt_store (redis w2) = <["appt:" +:+ apptId := (604800%N, a')]> (appt_store (redis w)).
Proof.
  intros Hget Ht'.
  unfold rescheduleAppointment, try_catch, redis_get. unfold bind at 1.
  rewrite redis_command_up. cbn [fst snd ns_read appt_ns].
  cbn [appt_store set_redis_ops]. rewrite Hget. cbn [fmap option_fmap option_map snd].
  rewrite Ht'. run.
  eexists. eexists. split; [reflexivity|]. cbn. eauto 12.
Qed.

Lemma getAppointment_reads (apptId : string) ttl a (w : World) :
  appt_store (redis w) !! ("appt:" +:+ apptId) = Some (ttl, a) ->
  exists w3, getAppointment E apptId w = (Ok (Some a), w3).
Proof.
  intros Hget. unfold getAppointment, try_catch, redis_get.
  rewrite redis_command_up. cbn [fst snd ns_read appt_ns appt_store set_redis_ops].
  rewrite Hget. eexists. reflexivity.
Qed.

(** C8. With Redis up, scheduling an appointment and then rescheduling it
    to a valid time succeeds, and reading the appointment back gives the
    rescheduled record: its slot is the ISO form of the new time, and its
    identifier, patient, location, status and creation time are those of
    the scheduled record; [updated_at] is now set. *)
Theorem reschedule_after_schedule
    (name slot loc newSlot : string) (t t' : Z) (w : World) :
  truthy name = true -> truthy slot = true -> truthy loc = true ->
  Date_parse E slot = Some t ->
  Date_parse E newSlot = Some t' ->
  exists a w1 a' w2 w3,
    scheduleAppointment E name slot loc w = (Ok (ApiOk a), w1)
    /\ rescheduleAppointment E (appt_id a) newSlot w1 = (Ok (ApiOk a'), w2)
    /\ getAppointment E (appt_id a) w2 = (Ok (Some a'), w3)
    /\ normalized_slot_iso a' = Date_toISOString E t'
    /\ appt_id a' = appt_id a
    /\ patient a' = patient a
    /\ location a' = location a
    /\ status a' = status a
    /\ created_at a' = created_at a
    /\ updated_at a = None
    /\ exists u, updated_at a' = Some u.
Proof.
  intros Hn Hs Hl Ht Ht'.
  destruct (scheduleAppointment_stores name slot loc t w Hn Hs Hl Ht)
    as (a & w1 & Hsched & _ & _ & _ & _ & Hu & _ & Hw1).
  assert (Hin1 : appt_store (redis w1) !! ("appt:" +:+ appt_id a) = Some (604800%N, a))
    by (rewrite Hw1; apply lookup_insert_eq).
  destruct (rescheduleAppointment_stores (appt_id a) newSlot t' _ a w1 Hin1 Ht')
    as (a' & w2 & Hres & Hiso & Hid & Hp & Hloc & Hst & Hc & Hu' & Hw2).
  assert (Hin2 : appt_store (redis w2) !! ("appt:" +:+ appt_id a) = Some (604800%N, a'))
    by (rewrite Hw2; apply lookup_insert_eq).
  destruct (getAppointment_reads (appt_id a) _ a' w2 Hin2) as (w3 & Hread).
  exists a, w1, a', w2, w3. auto 12.
Qed.

End Schedule.

(** ** Stable sorting *)

Section StableSort.
Context {A : Type} (key : A -> Q) (P : A -> A -> Prop).

Lemma insert_sorted_perm x l : Permutation (Js.insert_sorted (by_key_desc key) x l) (x :: l).
Proof.
  induction l as [|y l IH]; cbn [Js.insert_sorted]; [reflexivity|].
  destruct ((by_key_desc key) y x); [|reflexivity].
  rewrite IH. apply perm_swap.
Qed.

Lemma sort_perm l : Permutation (Js.sort (by_key_desc key) l) l.
Proof.
  induction l as [|x l IH]; cbn; [reflexivity|].
  fold (Js.sort (by_key_desc key) l). rewrite insert_sorted_perm. now constructor.
Qed.

Lemma insert_sorted_ahead x l :
  StronglySorted (ahead key P) l -> Forall (P x) l ->
  StronglySorted (ahead key P) (Js.insert_sorted (by_key_desc key) x l).
Proof.
  induction l as [|y l IH]; intros Hs Hp; cbn [Js.insert_sorted].
  - repeat constructor.
  - apply StronglySorted_inv in Hs as [Hs Hy]. inversion Hp as [|? ? Hxy Hxl]; subst.
    destruct ((by_key_desc key) y x) eqn:Hb; unfold by_key_desc in Hb.
    + apply gt_spec in Hb. constructor; [now apply IH|].
      apply (Permutation_Forall (Permutation_sym (insert_sorted_perm x l))).
      constructor; [now left | exact Hy].
    + apply gt_false in Hb. constructor; [now constructor|].
      assert (Hx : forall z, (key z <= key y)%Q -> P x z -> ahead key P x z).
      { intros z Hz Hpz. destruct (Qlt_le_dec (key z) (key x)) as [Hlt | Hle]; [now left|].
        right. split; [|exact Hpz]. apply Qle_antisym; [exact Hle|].
        now apply Qle_trans with (key y). }
      constructor; [apply Hx; [apply Qle_refl | exact Hxy]|].
      rewrite Forall_forall in Hy, Hxl |- *. intros z Hz. apply Hx; [|now apply Hxl].
      destruct (Hy z Hz) as [Hlt | [Heq _]]; [now apply Qlt_le_weak|].
      rewrite Heq. apply Qle_refl.
Qed.

(** A stable sort keeps ties in their input order. *)
Lemma sort_stable l : StronglySorted P l -> StronglySorted (ahead key P) (Js.sort (by_key_desc key) l).
Proof.
  induction l as [|x l IH]; intros Hs; cbn; [constructor|].
  fold (Js.sort (by_key_desc key) l).
  apply StronglySorted_inv in Hs as [Hs Hx].
  apply insert_sorted_ahead; [now apply IH|].
  rewrite List.Forall_forall in Hx |- *. intros z Hz. apply Hx.
  now apply (Permutation_in _ (sort_perm l)).
Qed.
End StableSort.

(** ** The score map of [mergeResults] *)

Section ScoreMap.

Lemma map_get_none key (m : Js.omap (V := Q * Hit)) :
  Js.map_get key m = None <-> ~ In key (keys m).
Proof.
  induction m as [|[k v] m IH]; cbn; [tauto|].
  destruct (String.eqb_spec key k) as [-> | Hne].
  - split; [discriminate | intros H; exfalso; apply H; now left].
  - rewrite IH. split; [intros H [Hk | Hk]; [congruence | contradiction] | tauto].
Qed.

Lemma map_set_fresh key v (m : Js.omap (V := Q * Hit)) :
  ~ In key (keys m) -> Js.map_set key v m = m ++ [(key, v)].
Proof.
  induction m as [|[k w] m IH]; cbn; intros H; [reflexivity|].
  destruct (String.eqb_spec key k) as [-> | Hne]; [exfalso; apply H; now left|].
  rewrite IH by tauto. reflexivity.
Qed.

Lemma keys_entries_from results rank : keys (entries_from results rank) = map point_id results.
Proof.
  revert rank. induction results as [|h r IH]; intros rank; cbn; [reflexivity|].
  unfold keys in IH. now rewrite IH.
Qed.

Lemma add_bm25_closed results : forall rank m,
  List.NoDup (map point_id results) ->
  (forall h, In h results -> ~ In (point_id h) (keys m)) ->
  add_bm25 results rank m = m ++ entries_from results rank.
Proof.
  induction results as [|h r IH]; intros rank m Hnd Hfresh; cbn [add_bm25 entries_from].
  - now rewrite app_nil_r.
  - cbn [map] in Hnd. apply NoDup_cons_iff in Hnd as [Hh Hnd].
    rewrite map_set_fresh by (apply Hfresh; now left).
    rewrite IH; [now rewrite <- app_assoc | exact Hnd |].
    intros h' Hin. unfold keys. rewrite map_app, in_app_iff. cbn.
    intros [Hk | [Hk | []]].
    + apply (Hfresh h'); [now right | exact Hk].
    + apply Hh. rewrite Hk. now apply in_map.
Qed.

Lemma rank_from_not_in id l rank : ~ In id (map point_id l) -> rank_from id l rank = None.
Proof.
  revert rank. induction l as [|h l IH]; intros rank H; cbn; [reflexivity|].
  destruct (String.eqb_spec id (point_id h)) as [-> | Hne]; [exfalso; apply H; now left|].
  apply IH. intros Hin. apply H. now right.
Qed.

Lemma rank_from_in id l rank :
  In id (map point_id l) -> exists r, rank_from id l rank = Some r /\ (rank <= r)%nat.
Proof.
  revert rank. induction l as [|h l IH]; intros rank H; cbn in *; [contradiction|].
  destruct (String.eqb_spec id (point_id h)) as [-> | Hne]; [eauto|].
  destruct H as [H | H]; [congruence|].
  destruct (IH (S rank) H) as [r [Hr Hle]]. exists r. split; [exact Hr | lia].
Qed.

Lemma map_set_present key v (m : Js.omap (V := Q * Hit)) :
  List.NoDup (keys m) ->
  Js.map_set key v m = map (fun e => if String.eqb key (fst e) then (fst e, v) else e) m
  \/ ~ In key (keys m).
Proof.
  intros Hnd. destruct (in_dec String.string_dec key (keys m)) as [Hin | Hout]; [left | now right].
  induction m as [|[k w] m IH]; cbn in *; [contradiction|].
  apply NoDup_cons_iff in Hnd as [Hk Hnd].
  destruct (String.eqb_spec key k) as [-> | Hne].
  - f_equal. etransitivity; [symmetry; apply map_id|]. apply map_ext_in.
    intros [k' w'] Hin'. cbn. destruct (String.eqb_spec k k') as [-> | _]; [|reflexivity].
    exfalso. apply Hk. change k' with (fst (k', w')). now apply in_map.
  - f_equal. apply IH; [exact Hnd|]. destruct Hin; [congruence | assumption].
Qed.

Lemma map_get_in key (m : Js.omap (V := Q * Hit)) v :
  Js.map_get key m = Some v -> In (key, v) m.
Proof.
  induction m as [|[k w] m IH]; cbn; [discriminate|].
  destruct (String.eqb_spec key k) as [-> | Hne].
  - intros [= ->]. now left.
  - intros H. right. now apply IH.
Qed.

Lemma add_vector_closed vec : forall rank m,
  List.NoDup (map point_id vec) -> List.NoDup (keys m) ->
  add_vector vec rank m
  = map (bump vec rank) m
    ++ List.filter (fun e => negb (Js.map_has (fst e) m)) (entries_from vec rank).
Proof.
  induction vec as [|h vec IH]; intros rank m Hnd Hm;
    cbn [add_vector entries_from List.filter fst].
  - rewrite app_nil_r. etransitivity; [symmetry; apply map_id|].
    apply map_ext. intros e. reflexivity.
  - cbn [map] in Hnd. apply NoDup_cons_iff in Hnd as [Hh Hnd].
    assert (Hbump : forall e, fst e <> point_id h -> bump (h :: vec) rank e = bump vec (S rank) e).
    { intros e He. unfold bump. cbn [rank_from].
      destruct (String.eqb_spec (fst e) (point_id h)); [contradiction | reflexivity]. }
    destruct (Js.map_get (point_id h) m) as [[s r]|] eqn:Hget.
    + (* the chunk is already in the map *)
      assert (Hhas : Js.map_has (point_id h) m = true) by (unfold Js.map_has; now rewrite Hget).
      rewrite Hhas. cbn [negb].
      pose proof (map_get_in _ _ _ Hget) as Hin.
      destruct (map_set_present (point_id h) ((s + rrfScore rank)%Q, r) m Hm) as [Hset | Hout].
      2:{ exfalso. apply Hout. change (point_id h) with (fst (point_id h, (s, r))).
          now apply in_map. }
      rewrite Hset. rewrite IH; [|exact Hnd|].
      2:{ unfold keys. rewrite map_map.
          erewrite map_ext; [exact Hm|]. intros e. cbn. now destruct (String.eqb _ _). }
      f_equal.
      * rewrite map_map. apply map_ext_in. intros [k [s' r']] Hin'. cbn [fst].
        destruct (String.eqb_spec (point_id h) k) as [<- | Hne].
        -- assert (Heq : (s', r') = (s, r)).
           { clear - Hm Hin Hin'. induction m as [|[k0 v0] m IHm]; [contradiction|].
             cbn in Hm. apply NoDup_cons_iff in Hm as [Hk Hm].
             destruct Hin as [Hin | Hin], Hin' as [Hin' | Hin'].
             - congruence.
             - injection Hin as -> ->. exfalso. apply Hk.
               change (point_id h) with (fst (point_id h, (s', r'))). now apply in_map.
             - injection Hin' as -> ->. exfalso. apply Hk.
               change (point_id h) with (fst (point_id h, (s, r))). now apply in_map.
             - now apply IHm. }
           injection Heq as -> ->.
           unfold bump. cbn [fst snd rank_from]. rewrite String.eqb_refl.
           now rewrite rank_from_not_in.
        -- rewrite Hbump by (cbn; congruence). reflexivity.
      * apply List.filter_ext. intros e. f_equal. unfold Js.map_has.
        destruct (Js.map_get (fst e) m) eqn:G1.
        -- apply map_get_in in G1.
           destruct (Js.map_get (fst e) (map _ m)) eqn:G2; [reflexivity|].
           apply map_get_none in G2. exfalso. apply G2.
           unfold keys. rewrite map_map.
           erewrite map_ext; [|intros x; cbn; now destruct (String.eqb _ _)].
           change (fst e) with (fst (fst e, p)). now apply in_map.
        -- apply map_get_none in G1.
           destruct (Js.map_get (fst e) (map _ m)) eqn:G2; [|reflexivity].
           apply map_get_in in G2. exfalso. apply G1.
           apply (in_map fst) in G2. unfold keys in *. rewrite map_map in G2.
           erewrite map_ext in G2; [exact G2|]. intros x; cbn; now destruct (String.eqb _ _).
    + (* a new chunk *)
      assert (Hhas : Js.map_has (point_id h) m = false) by (unfold Js.map_has; now rewrite Hget).
      rewrite Hhas. cbn [negb]. apply map_get_none in Hget.
      rewrite map_set_fresh by exact Hget.
      rewrite IH; [|exact Hnd|].
      2:{ unfold keys. rewrite map_app. cbn. apply List.NoDup_app; [exact Hm | |].
          - repeat constructor. intros [].
          - intros k Hk [<- | []]. contradiction. }
      rewrite map_app. cbn [map]. rewrite <- app_assoc. cbn [app]. f_equal.
      * apply map_ext_in. intros e He. symmetry. apply Hbump.
        intros Heq. apply Hget. rewrite <- Heq. now apply in_map.
      * f_equal.
        -- unfold bump. cbn [fst]. now rewrite rank_from_not_in.
        -- apply List.filter_ext_in. intros e He. f_equal. unfold Js.map_has.
           assert (Hne : fst e <> point_id h).
           { intros Heq. apply Hh. rewrite <- Heq.
             rewrite <- (keys_entries_from vec (S rank)). now apply in_map. }
           destruct (Js.map_get (fst e) m) eqn:G1.
           ++ apply map_get_in in G1.
              destruct (Js.map_get (fst e) (m ++ _)) eqn:G2; [reflexivity|].
              apply map_get_none in G2. exfalso. apply G2. unfold keys.
              rewrite map_app, in_app_iff. left.
              change (fst e) with (fst (fst e, p)). now apply in_map.
           ++ apply map_get_none in G1.
              destruct (Js.map_get (fst e) (m ++ _)) eqn:G2; [|reflexivity].
              apply map_get_in in G2. apply in_app_iff in G2 as [G2 | [G2 | []]].
              ** exfalso. apply G1. change (fst e) with (fst (fst e, p)). now apply in_map.
              ** congruence.
Qed.

End ScoreMap.

Section Fusion.

Lemma StronglySorted_weaken {A} (R R' : A -> A -> Prop) l :
  StronglySorted R l ->
  (forall a b, In a l -> In b l -> R a b -> R' a b) ->
  StronglySorted R' l.
Proof.
  induction 1 as [|a l Hs IH Ha]; intros Himp; constructor.
  - apply IH. intros x y Hx Hy. apply Himp; now right.
  - rewrite List.Forall_forall in Ha |- *. intros b Hb.
    apply Himp; [now left | now right | now apply Ha].
Qed.

Lemma StronglySorted_app {A} (R : A -> A -> Prop) l1 l2 :
  StronglySorted R l1 -> StronglySorted R l2 ->
  (forall a b, In a l1 -> In b l2 -> R a b) ->
  StronglySorted R (l1 ++ l2).
Proof.
  induction 1 as [|a l Hs IH Ha]; intros H2 Hc; cbn; [exact H2|].
  constructor.
  - apply IH; [exact H2|]. intros x y Hx Hy. apply Hc; [now right | exact Hy].
  - apply Forall_app. split; [exact Ha|].
    rewrite List.Forall_forall. intros b Hb. apply Hc; [now left | exact Hb].
Qed.

Lemma StronglySorted_filter {A} (R : A -> A -> Prop) f l :
  StronglySorted R l -> StronglySorted R (List.filter f l).
Proof.
  induction 1 as [|a l Hs IH Ha]; cbn; [constructor|].
  destruct (f a); [|exact IH]. constructor; [exact IH|].
  rewrite List.Forall_forall in Ha |- *. intros b Hb.
  apply filter_In in Hb as [Hb _]. now apply Ha.
Qed.

Lemma StronglySorted_map {A B} (R : B -> B -> Prop) (f : A -> B) l :
  StronglySorted R (map f l) -> StronglySorted (fun a b => R (f a) (f b)) l.
Proof.
  induction l as [|a l IH]; cbn; intros H; [constructor|].
  apply StronglySorted_inv in H as [Hs Ha]. constructor; [now apply IH|].
  rewrite List.Forall_forall in Ha |- *. intros b Hb. apply Ha. now apply in_map.
Qed.

Lemma StronglySorted_map' {A B} (R : B -> B -> Prop) (f : A -> B) l :
  StronglySorted (fun a b => R (f a) (f b)) l -> StronglySorted R (map f l).
Proof.
  induction 1 as [|a l Hs IH Ha]; cbn; constructor; [exact IH|].
  rewrite List.Forall_forall in Ha |- *. intros b Hb.
  apply in_map_iff in Hb as [x [<- Hx]]. now apply Ha.
Qed.

(** A result list without repetition is sorted by its own ranks. *)
Lemma ranked_from l : forall rank,
  List.NoDup (map point_id l) ->
  StronglySorted
    (fun a b => rank_better (rank_from (point_id a) l rank) (rank_from (point_id b) l rank)) l.
Proof.
  induction l as [|h l IH]; intros rank Hnd; [constructor|].
  cbn [map] in Hnd. apply NoDup_cons_iff in Hnd as [Hh Hnd].
  assert (Htail : forall b, In b l ->
            rank_from (point_id b) (h :: l) rank = rank_from (point_id b) l (S rank)
            /\ exists r, rank_from (point_id b) l (S rank) = Some r /\ (S rank <= r)%nat).
  { intros b Hb. cbn [rank_from].
    destruct (String.eqb_spec (point_id b) (point_id h)) as [Heq | _].
    - exfalso. apply Hh. rewrite <- Heq. now apply in_map.
    - split; [reflexivity|]. apply rank_from_in. now apply in_map. }
  constructor.
  - apply (StronglySorted_weaken _ _ _ (IH (S rank) Hnd)).
    intros a b Ha Hb Hab.
    destruct (Htail a Ha) as [-> _]. destruct (Htail b Hb) as [-> _]. exact Hab.
  - rewrite List.Forall_forall. intros b Hb.
    destruct (Htail b Hb) as [-> [r [-> Hr]]].
    cbn [rank_from]. rewrite String.eqb_refl. cbn. lia.
Qed.

Lemma in_lexical_spec bm25 h :
  in_lexical bm25 h = true <-> In (point_id h) (map point_id bm25).
Proof.
  unfold in_lexical. rewrite existsb_exists, in_map_iff. split.
  - intros [b [Hb Heq]]. apply String.eqb_eq in Heq. eauto.
  - intros [b [Heq Hb]]. exists b. split; [exact Hb|]. now apply String.eqb_eq.
Qed.

Lemma rank_in_none id l : rank_in id l = None <-> ~ In id (map point_id l).
Proof.
  unfold rank_in. split.
  - intros H Hin. destruct (rank_from_in id l 0 Hin) as [r [Hr _]]. congruence.
  - apply rank_from_not_in.
Qed.

Lemma entered_sorted bm25 vec :
  List.NoDup (map point_id bm25) -> List.NoDup (map point_id vec) ->
  StronglySorted (entered_before bm25 vec)
    (bm25 ++ List.filter (fun h => negb (in_lexical bm25 h)) vec).
Proof.
  intros Hb Hv. apply StronglySorted_app.
  - apply (StronglySorted_weaken _ _ _ (ranked_from bm25 0 Hb)).
    intros a b _ _ H. now left.
  - pose proof (StronglySorted_filter _ (fun h => negb (in_lexical bm25 h)) _
                  (ranked_from vec 0 Hv)) as Hs.
    apply (StronglySorted_weaken _ _ _ Hs).
    intros a b Ha Hb' H. right.
    apply filter_In in Ha as [_ Ha]. apply filter_In in Hb' as [_ Hb'].
    apply negb_true_iff in Ha, Hb'.
    repeat split; [| | exact H]; apply rank_in_none; intros Hin;
      apply in_lexical_spec in Hin; congruence.
  - intros a b Ha Hb'. left.
    apply filter_In in Hb' as [_ Hb']. apply negb_true_iff in Hb'.
    assert (Hnone : rank_in (point_id b) bm25 = None).
    { apply rank_in_none. intros Hin. apply in_lexical_spec in Hin. congruence. }
    rewrite Hnone.
    destruct (rank_from_in (point_id a) bm25 0 (in_map point_id _ _ Ha)) as [r [Hr _]].
    unfold rank_in. rewrite Hr. exact I.
Qed.
End Fusion.

Section Entries.

Lemma rrfScore_decreasing r1 r2 : (r1 < r2)%nat -> (rrfScore r2 < rrfScore r1)%Q.
Proof.
  intros H. unfold rrfScore, Qdiv. rewrite !Qmult_1_l.
  assert (Hpos : forall r, (0 < Js.of_nat 60 + Js.of_nat r + 1)%Q).
  { intros r. unfold Js.of_nat, Qlt, Qplus, inject_Z. cbn. lia. }
  apply -> Qinv_lt_contravar; [|apply Hpos..].
  unfold Js.of_nat, Qlt, Qplus, inject_Z. cbn. lia.
Qed.

Lemma entries_from_in l : forall rank k s h,
  List.NoDup (map point_id l) ->
  In (k, (s, h)) (entries_from l rank) ->
  k = point_id h /\ In h l /\ exists r, rank_from k l rank = Some r /\ s = rrfScore r.
Proof.
  induction l as [|x l IH]; intros rank k s h Hnd Hin; cbn in Hin; [contradiction|].
  cbn [map] in Hnd. apply NoDup_cons_iff in Hnd as [Hx Hnd].
  destruct Hin as [Heq | Hin].
  - injection Heq as <- <- <-. split; [reflexivity|]. split; [now left|].
    exists rank. cbn [rank_from]. now rewrite String.eqb_refl.
  - destruct (IH _ _ _ _ Hnd Hin) as (-> & Hh & r & Hr & ->).
    split; [reflexivity|]. split; [now right|]. exists r. split; [|reflexivity].
    cbn [rank_from]. destruct (String.eqb_spec (point_id h) (point_id x)) as [Heq | _]; [|exact Hr].
    exfalso. apply Hx. rewrite <- Heq. now apply in_map.
Qed.

Lemma hits_entries_from l rank : map hit_of (entries_from l rank) = l.
Proof.
  revert rank. induction l as [|h l IH]; intros rank; cbn; [reflexivity|]. now rewrite IH.
Qed.

Lemma map_has_entries_from k l rank :
  Js.map_has k (entries_from l rank) = existsb (fun b => String.eqb k (point_id b)) l.
Proof.
  revert rank. induction l as [|h l IH]; intros rank; [reflexivity|].
  unfold Js.map_has in *. cbn. destruct (String.eqb k (point_id h)); [reflexivity|]. apply IH.
Qed.

Lemma hits_new_entries bm25 l : forall rank,
  map hit_of
    (List.filter (fun e => negb (Js.map_has (fst e) (entries_from bm25 0)))
       (entries_from l rank))
  = List.filter (fun h => negb (in_lexical bm25 h)) l.
Proof.
  induction l as [|h l IH]; intros rank; [reflexivity|].
  cbn [entries_from List.filter fst]. rewrite map_has_entries_from.
  change (existsb _ bm25) with (in_lexical bm25 h).
  destruct (in_lexical bm25 h); cbn [negb map]; [apply IH|].
  f_equal. apply IH.
Qed.

End Entries.

Section MergeResults.
Variables bm25 vec : list Hit.
Hypothesis Hbm25 : List.NoDup (map point_id bm25).
Hypothesis Hvec : List.NoDup (map point_id vec).


Lemma scoreMap_closed :
  (score_map bm25 vec)
  = map (bump vec 0) (entries_from bm25 0)
    ++ List.filter (fun e => negb (Js.map_has (fst e) (entries_from bm25 0)))
         (entries_from vec 0).
Proof.
  unfold score_map. rewrite (add_bm25_closed bm25 0 []); [|exact Hbm25 | intros h _ []].
  cbn [app]. apply add_vector_closed; [exact Hvec|].
  now rewrite keys_entries_from.
Qed.

Lemma scoreMap_hits :
  map hit_of (score_map bm25 vec) = bm25 ++ List.filter (fun h => negb (in_lexical bm25 h)) vec.
Proof.
  rewrite scoreMap_closed, map_app. f_equal.
  - rewrite map_map. rewrite <- (hits_entries_from bm25 0) at 2.
    apply map_ext. intros e. unfold bump, hit_of. now destruct (rank_from _ _ _).
  - apply hits_new_entries.
Qed.

Lemma scoreMap_entries e :
  In e (score_map bm25 vec) ->
  fst e = point_id (hit_of e)
  /\ (fst (snd e) == fused_score bm25 vec (fst e))%Q.
Proof.
  rewrite scoreMap_closed, in_app_iff. unfold fused_score, contribution, rank_in.
  intros [Hin | Hin].
  - apply in_map_iff in Hin as [[k [s h]] [<- Hin]].
    destruct (entries_from_in _ _ _ _ _ Hbm25 Hin) as (Hk & _ & r & Hr & ->).
    unfold bump, hit_of. cbn [fst snd].
    destruct (rank_from k vec 0) as [r'|] eqn:Hv; cbn [fst snd]; rewrite Hr, ?Hv.
    + split; [exact Hk | reflexivity].
    + split; [exact Hk | now rewrite Qplus_0_r].
  - apply filter_In in Hin as [Hin Hnew]. destruct e as [k [s h]].
    destruct (entries_from_in _ _ _ _ _ Hvec Hin) as (Hk & _ & r & Hr & ->).
    cbn [fst snd hit_of] in *. unfold hit_of. cbn [snd]. rewrite Hr.
    apply negb_true_iff in Hnew. rewrite map_has_entries_from in Hnew.
    rewrite rank_from_not_in.
    + split; [exact Hk | now rewrite Qplus_0_l].
    + intros Hc. apply in_map_iff in Hc as [b [Hb Hbin]].
      assert (Ht : existsb (fun b => String.eqb k (point_id b)) bm25 = true).
      { apply existsb_exists. exists b. split; [exact Hbin|]. apply String.eqb_eq. congruence. }
      congruence.
Qed.

Lemma merged_ids_perm :
  Permutation (map point_id (mergeResults bm25 vec))
    (map point_id (bm25 ++ List.filter (fun h => negb (in_lexical bm25 h)) vec)).
Proof.
  unfold mergeResults. fold (score_map bm25 vec). rewrite <- scoreMap_hits, !map_map.
  cbn [with_score point_id].
  transitivity (map (fun v : Q * Hit => point_id (snd v)) (Js.map_values (score_map bm25 vec))).
  - apply Permutation_map. apply (sort_perm fst).
  - unfold Js.map_values. rewrite map_map. reflexivity.
Qed.

(** C4. For candidate lists without repeated chunks, [mergeResults] returns
    every candidate of either list once, with the sum over the sources it
    appears in of 1/(60 + rank + 1) as its score, ordered by that score
    descending, ties by lexical rank (a chunk missing from the lexical list
    last) and then by [point_id]. *)
Theorem mergeResults_is_rank_fusion :
  let merged := mergeResults bm25 vec in
  List.NoDup (map point_id merged)
  /\ (forall id, In id (map point_id merged)
                 <-> In id (map point_id bm25) \/ In id (map point_id vec))
  /\ (forall h, In h merged -> (score h == fused_score bm25 vec (point_id h))%Q)
  /\ StronglySorted (fused_before bm25) merged.
Proof.
  cbv zeta.
  assert (Hmem : forall id,
            In id (map point_id (bm25 ++ List.filter (fun h => negb (in_lexical bm25 h)) vec))
            <-> In id (map point_id bm25) \/ In id (map point_id vec)).
  { intros id. rewrite map_app, in_app_iff. split.
    - intros [H | H]; [now left | right].
      apply in_map_iff in H as [h [<- Hh]]. apply filter_In in Hh as [Hh _]. now apply in_map.
    - intros [H | H]; [now left|].
      destruct (in_dec String.string_dec id (map point_id bm25)) as [Hb | Hb]; [now left | right].
      apply in_map_iff in H as [h [<- Hh]]. apply in_map. apply filter_In. split; [exact Hh|].
      apply negb_true_iff. destruct (in_lexical bm25 h) eqn:Hl; [|reflexivity].
      apply in_lexical_spec in Hl. contradiction. }
  assert (Hvalues : forall v, In v (Js.sort (fun a b : Q * Hit => Js.gt (fst a) (fst b))
                                      (Js.map_values (score_map bm25 vec))) ->
            (fst v == fused_score bm25 vec (point_id (snd v)))%Q
            /\ (In (point_id (snd v)) (map point_id bm25)
                \/ In (point_id (snd v)) (map point_id vec))).
  { intros v Hv. apply (Permutation_in _ (sort_perm fst _)) in Hv.
    apply in_map_iff in Hv as [e [<- He]].
    destruct (scoreMap_entries e He) as [Hk Hs]. unfold hit_of in Hk. rewrite <- Hk.
    split; [exact Hs|]. apply Hmem. rewrite <- scoreMap_hits, map_map.
    rewrite Hk. apply (in_map (fun e => point_id (hit_of e))). exact He. }
  split; [|split; [|split]].
  - apply (Permutation_NoDup (Permutation_sym merged_ids_perm)).
    rewrite map_app. apply List.NoDup_app; [exact Hbm25 | |].
    + clear - Hvec. induction vec as [|h l IH]; cbn; [constructor|].
      cbn [map] in Hvec. apply NoDup_cons_iff in Hvec as [Hh Hnd].
      destruct (negb _); [|now apply IH]. cbn. constructor; [|now apply IH].
      intros Hin. apply Hh. apply in_map_iff in Hin as [x [<- Hx]].
      apply filter_In in Hx as [Hx _]. now apply in_map.
    + intros id Hb Hin. apply in_map_iff in Hin as [h [<- Hh]].
      apply filter_In in Hh as [_ Hh]. apply negb_true_iff in Hh.
      apply in_lexical_spec in Hb. congruence.
  - intros id. rewrite <- Hmem. split; intros H.
    + exact (Permutation_in _ merged_ids_perm H).
    + exact (Permutation_in _ (Permutation_sym merged_ids_perm) H).
  - intros h Hh. unfold mergeResults in Hh. fold (score_map bm25 vec) in Hh.
    apply in_map_iff in Hh as [v [<- Hv]]. cbn [with_score score point_id].
    now apply Hvalues.
  - unfold mergeResults. fold (score_map bm25 vec). apply StronglySorted_map'.
    assert (Hin : StronglySorted (fun a b : Q * Hit => entered_before bm25 vec (snd a) (snd b))
                    (Js.map_values (score_map bm25 vec))).
    { apply StronglySorted_map. unfold Js.map_values. rewrite map_map.
      change (map (fun x => snd (snd x)) (score_map bm25 vec)) with (map hit_of (score_map bm25 vec)).
      rewrite scoreMap_hits. now apply entered_sorted. }
    apply (sort_stable fst) in Hin.
    apply (StronglySorted_weaken _ _ _ Hin). intros a b Ha Hb Hab.
    unfold fused_before. cbn [with_score score point_id].
    destruct Hab as [Hlt | [Heq [Hlex | (Na & Nb & Hv)]]]; [now left | right; auto |].
    exfalso.
    destruct (Hvalues a Ha) as [Sa [Ia | Ia]]; [apply rank_in_none in Na; contradiction|].
    destruct (Hvalues b Hb) as [Sb [Ib | Ib]]; [apply rank_in_none in Nb; contradiction|].
    unfold fused_score, contribution in Sa, Sb. rewrite Na in Sa. rewrite Nb in Sb.
    destruct (rank_from_in _ _ 0 Ia) as [ra [Hra _]].
    destruct (rank_from_in _ _ 0 Ib) as [rb [Hrb _]].
    unfold rank_in in *. rewrite Hra in Sa, Hv. rewrite Hrb in Sb, Hv. cbn in Hv.
    apply rrfScore_decreasing in Hv.
    rewrite Qplus_0_l in Sa, Sb. rewrite <- Sa, <- Sb, Heq in Hv.
    exact (Qlt_irrefl _ Hv).
Qed.

End MergeResults.

(** ** Diversity selection *)

Section Jaccard.

Lemma dedup_keep_first_in x l : forall seen,
  In x (JsString.dedup_keep_first seen l) <-> In x l /\ ~ In x seen.
Proof.
  induction l as [|y l IH]; intros seen; cbn; [tauto|].
  destruct (existsb (String.eqb y) seen) eqn:Hs.
  - rewrite IH. apply existsb_exists in Hs as [z [Hz Heq]]. apply String.eqb_eq in Heq. subst z.
    split; [tauto|]. intros [[-> | H] Hn]; [contradiction | tauto].
  - assert (Hy : ~ In y seen).
    { intros Hin. assert (existsb (String.eqb y) seen = true); [|congruence].
      apply existsb_exists. exists y. split; [exact Hin | apply String.eqb_refl]. }
    cbn. rewrite IH. cbn. split.
    + intros [-> | [H Hn]]; [tauto|]. split; [tauto|]. intros Hx. apply Hn. now right.
    + intros [[-> | H] Hn]; [now left|]. 
      destruct (String.string_dec y x) as [-> | Hne]; [now left | right].
      split; [exact H|]. intros [Heq | Hx]; [congruence | contradiction].
Qed.

Lemma dedup_keep_first_nodup l : forall seen, List.NoDup (JsString.dedup_keep_first seen l).
Proof.
  induction l as [|y l IH]; intros seen; cbn; [constructor|].
  destruct (existsb (String.eqb y) seen); [apply IH|].
  constructor; [|apply IH]. rewrite dedup_keep_first_in. intros [_ H]. apply H. now left.
Qed.

Lemma uniq_in x l : In x (JsString.uniq l) <-> In x l.
Proof. unfold JsString.uniq. rewrite dedup_keep_first_in. cbn. tauto. Qed.

(** [new Set(l).size] *)
Lemma uniq_size (l : list string) (X : gset string) :
  (forall x, In x l <-> x ∈ X) -> length (JsString.uniq l) = size X.
Proof.
  intros H.
  assert (HX : X = list_to_set (JsString.uniq l)).
  { apply set_eq. intros x. rewrite elem_of_list_to_set, list_elem_of_In, uniq_in. symmetry. apply H. }
  rewrite HX. symmetry. apply size_list_to_set.
  apply NoDup_ListNoDup. apply dedup_keep_first_nodup.
Qed.

Lemma textSimilarity_jaccard t1 t2 : textSimilarity t1 t2 = jaccard t1 t2.
Proof.
  unfold textSimilarity, jaccard, word_set. cbv zeta.
  set (l1 := Regex.split_ws (JsString.toLowerCase t1)).
  set (l2 := Regex.split_ws (JsString.toLowerCase t2)).
  f_equal; [|f_equal]; f_equal; apply uniq_size; intros x.
  - rewrite filter_In, uniq_in, elem_of_intersection, !elem_of_list_to_set, !list_elem_of_In.
    rewrite existsb_exists. split.
    + intros [H1 [y [Hy Heq]]]. apply String.eqb_eq in Heq. subst y.
      rewrite uniq_in in Hy. tauto.
    + intros [H1 H2]. split; [exact H1|]. exists x. split; [now apply uniq_in | apply String.eqb_refl].
  - rewrite in_app_iff, !uniq_in, elem_of_union, !elem_of_list_to_set, !list_elem_of_In. tauto.
Qed.

Lemma jaccard_nonneg t1 t2 : (0 <= jaccard t1 t2)%Q.
Proof.
  unfold jaccard, Qdiv. apply Qmult_le_0_compat; [apply of_nat_nonneg|].
  apply Qinv_le_0_compat, of_nat_nonneg.
Qed.

End Jaccard.

Section MMR.
Variable lambda : Q.

Lemma max_cases a b : (Js.max a b = b /\ (a <= b)%Q) \/ (Js.max a b = a /\ (b <= a)%Q).
Proof.
  unfold Js.max. destruct (Qle_bool a b) eqn:H.
  - left. split; [reflexivity | now apply Qle_bool_iff].
  - right. split; [reflexivity|]. apply Qlt_le_weak, Qnot_le_lt.
    intros Hle. apply Qle_bool_iff in Hle. congruence.
Qed.

(** The running maximum of [selected.forEach]. *)
Lemma fold_max (f : Hit -> Q) l : forall m0,
  let r := fold_left (fun m s => Js.max m (f s)) l m0 in
  (m0 <= r)%Q
  /\ (forall s, In s l -> (f s <= r)%Q)
  /\ (r = m0 \/ exists s, In s l /\ r = f s).
Proof.
  induction l as [|x l IH]; intros m0; cbn [fold_left].
  - split; [apply Qle_refl|]. split; [intros s []|now left].
  - destruct (IH (Js.max m0 (f x))) as (H0 & Hall & Hatt). cbv zeta in *.
    set (r := fold_left _ l _) in *.
    destruct (max_cases m0 (f x)) as [[Hm Hle] | [Hm Hle]]; rewrite Hm in *.
    + split; [now apply Qle_trans with (f x)|]. split.
      * intros s [<- | Hs]; [exact H0 | now apply Hall].
      * right. destruct Hatt as [-> | [s [Hs ->]]]; [exists x; split; [now left | reflexivity]|].
        exists s. split; [now right | reflexivity].
    + split; [exact H0|]. split.
      * intros s [<- | Hs]; [now apply Qle_trans with m0 | now apply Hall].
      * destruct Hatt as [-> | [s [Hs ->]]]; [now left | right].
        exists s. split; [now right | reflexivity].
Qed.

Lemma maxSimilarity_is_max c selected :
  selected <> [] -> max_similarity c selected (maxSimilarity c selected).
Proof.
  intros Hne. unfold maxSimilarity, max_similarity.
  destruct (fold_max (fun s => textSimilarity (text (payload c)) (text (payload s))) selected 0%Q)
    as (H0 & Hall & Hatt). cbv zeta in *.
  set (r := fold_left _ selected _) in *.
  split.
  - destruct Hatt as [Hr | [s [Hs Hr]]].
    + destruct selected as [|s l]; [contradiction|]. exists s. split; [now left|].
      rewrite <- textSimilarity_jaccard. apply Qle_antisym.
      * rewrite Hr, textSimilarity_jaccard. apply jaccard_nonneg.
      * apply Hall. now left.
    + exists s. split; [exact Hs|]. rewrite Hr, textSimilarity_jaccard. reflexivity.
  - intros s Hs. rewrite <- textSimilarity_jaccard. now apply Hall.
Qed.

Variable selected : list Hit.

Lemma best_index_spec remaining : forall i best,
  let r := best_index lambda selected remaining i best in
  (forall c, In c remaining ->
     exists b, snd r = Some b /\ (mmrScore lambda selected c <= b)%Q)
  /\ (forall b0, snd best = Some b0 -> exists b, snd r = Some b /\ (b0 <= b)%Q)
  /\ (r = best
      \/ exists j c, nth_error remaining j = Some c /\ fst r = (i + j)%nat
                     /\ snd r = Some (mmrScore lambda selected c)).
Proof.
  induction remaining as [|c rest IH]; intros i best; cbn [best_index].
  - split; [intros c []|]. split; [eauto using Qle_refl | now left].
  - set (s := mmrScore lambda selected c).
    set (better := match snd best with None => true | Some bestScore => Js.gt s bestScore end).
    destruct (IH (S i) (if better then (i, Some s) else best)) as (Hall & Hkeep & Hatt).
    cbv zeta in *. set (r := best_index lambda selected rest (S i) _) in *.
    assert (Hs : exists b, snd r = Some b /\ (s <= b)%Q).
    { destruct better eqn:Hb; [apply Hkeep; reflexivity|].
      unfold better in Hb. destruct (snd best) as [b0|] eqn:Hbest; [|discriminate].
      apply gt_false in Hb. destruct (Hkeep b0 eq_refl) as [b [Hr Hle]].
      exists b. split; [exact Hr | now apply Qle_trans with b0]. }
    split; [intros c' [<- | Hc']; [exact Hs | now apply Hall]|]. split.
    + intros b0 Hbest. destruct better eqn:Hb; [|now apply Hkeep].
      unfold better in Hb. rewrite Hbest in Hb. apply gt_spec in Hb.
      destruct Hs as [b [Hr Hle]]. exists b. split; [exact Hr|].
      apply Qle_trans with s; [now apply Qlt_le_weak | exact Hle].
    + destruct Hatt as [Hr | (j & c' & Hj & Hf & Hv)].
      * destruct better; [|now left]. right. exists 0%nat, c.
        rewrite Hr. cbn. split; [reflexivity|]. split; [lia | reflexivity].
      * right. exists (S j), c'. split; [exact Hj|]. split; [lia | exact Hv].
Qed.

(** The chunk the inner loop settles on has the largest MMR score. *)
Lemma best_index_max remaining :
  remaining <> [] ->
  exists j c,
    fst (best_index lambda selected remaining 0 (0%nat, None)) = j
    /\ nth_error remaining j = Some c
    /\ forall c', In c' remaining ->
                  (mmrScore lambda selected c' <= mmrScore lambda selected c)%Q.
Proof.
  intros Hne. destruct (best_index_spec remaining 0 (0%nat, None)) as (Hall & _ & Hatt).
  cbv zeta in *. set (r := best_index _ _ _ _ _) in *.
  destruct remaining as [|c0 rest]; [contradiction|].
  destruct (Hall c0 (or_introl eq_refl)) as [b0 [Hb0 _]].
  destruct Hatt as [Hr | (j & c & Hj & Hf & Hv)]; [rewrite Hr in Hb0; discriminate|].
  exists j, c. split; [exact Hf|]. split; [exact Hj|].
  intros c' Hc'. destruct (Hall c' Hc') as [b [Hb Hle]]. rewrite Hv in Hb.
  injection Hb as <-. exact Hle.
Qed.
End MMR.

Section Loop.
Variable k : nat.

Lemma nth_error_split_at {A} (l : list A) j c :
  nth_error l j = Some c -> l = firstn j l ++ c :: skipn (S j) l.
Proof.
  revert j. induction l as [|x l IH]; intros [|j] H; cbn in *; try discriminate.
  - now injection H as ->.
  - f_equal. now apply IH.
Qed.

(** One round of the [while] loop. *)
Lemma mmr_loop_round rounds selected remaining :
  (length selected < k)%nat -> remaining <> [] ->
  exists before c after,
    remaining = before ++ c :: after
    /\ (forall c', In c' remaining ->
                   (mmrScore (1 # 2) selected c' <= mmrScore (1 # 2) selected c)%Q)
    /\ mmr_loop (S rounds) (1 # 2) k selected remaining
       = mmr_loop rounds (1 # 2) k (selected ++ [c]) (before ++ after).
Proof.
  intros Hk Hne.
  destruct (best_index_max (1 # 2) selected remaining Hne) as (j & c & Hj & Hnth & Hmax).
  exists (firstn j remaining), c, (skipn (S j) remaining).
  split; [now apply nth_error_split_at|]. split; [exact Hmax|].
  cbn [mmr_loop]. apply Nat.ltb_lt in Hk. rewrite Hk.
  destruct remaining as [|x l]; [contradiction|]. cbn [length Nat.ltb Nat.leb andb].
  rewrite Hj. unfold splice1. rewrite Hnth. reflexivity.
Qed.

Lemma mmr_loop_stops rounds selected remaining :
  (k <= length selected)%nat \/ remaining = [] ->
  mmr_loop rounds (1 # 2) k selected remaining = selected.
Proof.
  intros H. destruct rounds; [reflexivity|]. cbn [mmr_loop].
  destruct H as [H | ->].
  - apply Nat.ltb_ge in H. now rewrite H.
  - cbn. now rewrite andb_false_r.
Qed.

Lemma mmr_loop_greedy rounds : forall selected remaining,
  (length remaining <= rounds)%nat ->
  mmr_selects k selected remaining (mmr_loop rounds (1 # 2) k selected remaining).
Proof.
  induction rounds as [|rounds IH]; intros selected remaining Hlen.
  - rewrite mmr_loop_stops; [|right; now apply length_zero_iff_nil, Nat.le_0_r].
    constructor. right. now apply length_zero_iff_nil, Nat.le_0_r.
  - destruct (Nat.le_gt_cases k (length selected)) as [Hk | Hk].
    { rewrite mmr_loop_stops by now left. constructor. now left. }
    destruct remaining as [|x l] eqn:Hrem.
    { rewrite mmr_loop_stops by now right. constructor. now right. }
    rewrite <- Hrem in *.
    destruct (mmr_loop_round rounds selected remaining Hk) as (before & c & after & Hsplit & Hmax & Hstep);
      [rewrite Hrem; discriminate|].
    rewrite Hstep. rewrite Hsplit at 1.
    apply mmr_pick; [exact Hk | intros c' Hc'; apply Hmax; now rewrite Hsplit |].
    apply IH. rewrite Hsplit, length_app in Hlen. cbn in Hlen. rewrite length_app. lia.
Qed.

Lemma mmr_loop_length rounds : forall selected remaining,
  (length remaining <= rounds)%nat ->
  length (mmr_loop rounds (1 # 2) k selected remaining)
  = if (length selected <? k)%nat then Nat.min k (length selected + length remaining)
    else length selected.
Proof.
  induction rounds as [|rounds IH]; intros selected remaining Hlen.
  - rewrite mmr_loop_stops; [|right; now apply length_zero_iff_nil, Nat.le_0_r].
    destruct (Nat.ltb_spec (length selected) k); [|reflexivity].
    assert (length remaining = 0)%nat by lia. lia.
  - destruct (Nat.ltb_spec (length selected) k) as [Hk | Hk].
    2:{ now rewrite mmr_loop_stops by now left. }
    destruct remaining as [|x l] eqn:Hrem.
    { rewrite mmr_loop_stops by now right. cbn. lia. }
    rewrite <- Hrem in *.
    destruct (mmr_loop_round rounds selected remaining Hk) as (before & c & after & Hsplit & _ & Hstep);
      [rewrite Hrem; discriminate|].
    rewrite Hstep, IH.
    + rewrite Hsplit. rewrite !length_app. cbn [length].
      destruct (Nat.ltb_spec (length selected + 1) k); lia.
    + rewrite Hsplit, length_app in Hlen. cbn in Hlen. rewrite length_app. lia.
Qed.
End Loop.

(** ** What a selection is made of *)

Section Selections.

Lemma in_firstn {A} n (l : list A) x : In x (firstn n l) -> In x l.
Proof. intros H. rewrite <- (firstn_skipn n l). apply in_or_app. now left. Qed.

Lemma in_skipn {A} n (l : list A) x : In x (skipn n l) -> In x l.
Proof. intros H. rewrite <- (firstn_skipn n l). apply in_or_app. now right. Qed.

Lemma map_set_in key v (m : Js.omap (V := Q * Hit)) e :
  In e (Js.map_set key v m) -> snd e = v \/ In e m.
Proof.
  induction m as [|[k w] m IH]; cbn.
  - intros [<- | []]. now left.
  - destruct (String.eqb key k).
    + intros [<- | H]; [now left | right; now right].
    + intros [<- | H]; [right; now left|].
      destruct (IH H) as [Hv | Hin]; [now left | right; now right].
Qed.

Lemma add_bm25_hits (L : list Hit) results : forall rank m,
  (forall e, In e m -> In (hit_of e) L) ->
  (forall h, In h results -> In h L) ->
  forall e, In e (add_bm25 results rank m) -> In (hit_of e) L.
Proof.
  induction results as [|h r IH]; intros rank m Hm Hr e He; cbn [add_bm25] in He.
  - now apply Hm.
  - apply (IH (S rank) _) in He; [exact He | | intros x Hx; apply Hr; now right].
    intros x Hx. apply map_set_in in Hx as [Hx | Hx]; [|now apply Hm].
    unfold hit_of. rewrite Hx. cbn. apply Hr. now left.
Qed.

(** With no dense result, the fused list holds lexical results only. *)
Lemma mergeResults_lexical_only lexical h :
  In h (mergeResults lexical []) ->
  exists l, In l lexical /\ point_id h = point_id l /\ payload h = payload l.
Proof.
  unfold mergeResults. cbn [add_vector]. intros Hin.
  apply in_map_iff in Hin as [v [<- Hv]].
  apply (Permutation_in _ (sort_perm fst _)) in Hv.
  apply in_map_iff in Hv as [e [<- He]].
  exists (hit_of e). split; [|split; reflexivity].
  apply (add_bm25_hits lexical lexical 0 []); [intros x [] | auto | exact He].
Qed.

Lemma mmr_loop_in rounds lambda k : forall selected remaining h,
  In h (mmr_loop rounds lambda k selected remaining) -> In h selected \/ In h remaining.
Proof.
  induction rounds as [|rounds IH]; intros selected remaining h Hin; cbn [mmr_loop] in Hin.
  - now left.
  - destruct ((length selected <? k)%nat && (0 <? length remaining)%nat); [|now left].
    unfold splice1 in Hin.
    destruct (nth_error remaining _) as [c|] eqn:Hc; [|now left].
    apply IH in Hin as [Hin | Hin].
    + apply in_app_iff in Hin as [Hin | [<- | []]]; [now left | right].
      exact (nth_error_In _ _ Hc).
    + right. apply in_app_iff in Hin as [Hin | Hin].
      * exact (in_firstn _ _ _ Hin).
      * exact (in_skipn _ _ _ Hin).
Qed.

(** [applyMMR] returns chunks of its input. *)
Lemma applyMMR_in results k h : In h (applyMMR results k) -> In h results.
Proof.
  unfold applyMMR, applyMMR_with. destruct (length results <=? k)%nat; [auto|].
  destruct results as [|first rest]; [auto|]. intros Hin.
  apply mmr_loop_in in Hin as [[<- | []] | Hin]; [now left | now right].
Qed.

End Selections.

(** ** Retrieval on a cache miss *)

Section Degraded.
Variable E : Env.

(** A read that finds nothing, or that Redis rejects, is a miss. *)
Lemma redis_get_miss {V} (ns : Namespace V) key w :
  ns_read ns (redis w) !! key = None ->
  ns_read ns (set_redis_ops (S (redis_ops (redis w))) (redis w)) = ns_read ns (redis w) ->
  try_catch (redis_get E ns key) (fun _ => ret None) w = (Ok None, after_command w).
Proof.
  intros Hnone Hread. unfold try_catch, redis_get, redis_command.
  destruct (redis_fault E _ _ _); [reflexivity|].
  rewrite Hread, Hnone. reflexivity.
Qed.

Lemma getCachedResults_miss query w :
  query_cache (redis w) !! ("query:" +:+ Js.base64 query) = None ->
  getCachedResults E query w = (Ok None, after_command w).
Proof. intros H. unfold getCachedResults. now apply redis_get_miss. Qed.

Lemma getCachedEmbedding_miss text0 w :
  emb_cache (redis w) !! ("emb:" +:+ JsString.slice_to 100 (Js.base64 text0)) = None ->
  getCachedEmbedding E text0 w = (Ok None, after_command w).
Proof. intros H. unfold getCachedEmbedding. now apply redis_get_miss. Qed.

(** Cache writes of the DAO never reject. *)
Lemma setCachedResults_swallows query results w :
  exists w', setCachedResults E query results w = (Ok tt, w').
Proof.
  unfold setCachedResults, try_catch, redis_setex, redis_command.
  destruct (redis_fault E _ _ _); eauto.
Qed.

Lemma setCachedEmbedding_swallows text0 embedding w :
  exists w', setCachedEmbedding E text0 embedding w = (Ok tt, w').
Proof.
  unfold setCachedEmbedding, try_catch, redis_setex, redis_command.
  destruct (redis_fault E _ _ _); eauto.
Qed.

(** The lexical branch reads the index and nothing else, and never rejects. *)
Lemma bm25Search_runs query limit w :
  bm25Search E query limit w = (Ok (lexical_results E query limit w), w).
Proof.
  unfold lexical_results, bm25Search, try_catch, bind, gets, of_outcome, ret.
  destruct (length (tfidf_documents w) =? 0)%nat; [reflexivity|].
  destruct (tfidf_tfidfs E _ _); reflexivity.
Qed.

Lemma lexical_results_index query limit w w' :
  tfidf_documents w' = tfidf_documents w -> documentMap w' = documentMap w ->
  lexical_results E query limit w' = lexical_results E query limit w.
Proof.
  intros Hd Hm. unfold lexical_results, bm25Search, try_catch, bind, gets, of_outcome, ret.
  cbn beta. rewrite Hd.
  destruct (length (tfidf_documents w) =? 0)%nat; [reflexivity|].
  destruct (tfidf_tfidfs E _ _); [|reflexivity].
  cbn [fst]. rewrite Hm. reflexivity.
Qed.

(** The dense branch never rejects. *)
Lemma vectorSearch_total query limit w :
  exists dense w', vectorSearch E query limit w = (Ok dense, w').
Proof.
  unfold vectorSearch, try_catch, bind.
  destruct (generateEmbedding E query w) as [[v|e] w1].
  - unfold of_outcome. destruct (qdrant_search E v limit); unfold ret; eauto.
  - unfold ret. eauto.
Qed.

(** On a miss of the [query:] cache, [searchDocuments] fuses what the two
    branches return, keeps the first 8 and selects among them. *)
Lemma searchDocuments_on_miss query limit w :
  query_cache (redis w) !! ("query:" +:+ Js.base64 query) = None ->
  exists dense w1 w',
    vectorSearch E query 8 (after_command w) = (Ok dense, w1)
    /\ searchDocuments E query limit w
       = (Ok (applyMMR (Js.slice_to 8 (mergeResults (lexical_results E query 8 w) dense)) limit),
          w').
Proof.
  intros Hmiss.
  unfold searchDocuments, try_catch. unfold bind at 1.
  rewrite (getCachedResults_miss _ _ Hmiss).
  unfold bind at 1. rewrite bm25Search_runs.
  rewrite (lexical_results_index query 8 w (after_command w)) by reflexivity.
  destruct (vectorSearch_total query 8 (after_command w)) as (dense & w1 & Hv).
  unfold bind at 1. rewrite Hv.
  set (top3 := applyMMR _ limit).
  destruct (setCachedResults_swallows query top3 w1) as [w2 Hset].
  unfold bind, try_catch. rewrite Hset. unfold ret. eauto 6.
Qed.

Lemma vectorSearch_fails_empty query w :
  dense_branch_fails E query w -> exists w', vectorSearch E query 8 w = (Ok [], w').
Proof.
  intros [[Hmiss [e He]] | Hdb]; unfold vectorSearch, try_catch.
  - unfold bind at 1, generateEmbedding, try_catch, bind.
    rewrite (getCachedEmbedding_miss _ _ Hmiss).
    unfold embedding_after_probe, bind, of_outcome. rewrite He.
    unfold throw, ret. eauto.
  - unfold bind. destruct (generateEmbedding E query w) as [[v|e] w1].
    + unfold of_outcome. destruct (Hdb v) as [e ->]. unfold ret. eauto.
    + unfold ret. eauto.
Qed.

Lemma dense_branch_fails_after query w :
  dense_branch_fails E query w -> dense_branch_fails E query (after_command w).
Proof. intros [H | H]; [left | right]; exact H. Qed.

Lemma searchDocuments_degraded query limit w :
  dense_branch_fails E query w ->
  query_cache (redis w) !! ("query:" +:+ Js.base64 query) = None ->
  exists w',
    searchDocuments E query limit w
    = (Ok (applyMMR (Js.slice_to 8 (mergeResults (lexical_results E query 8 w) [])) limit), w').
Proof.
  intros Hdense Hmiss.
  destruct (searchDocuments_on_miss query limit w Hmiss) as (dense & w1 & w' & Hv & Hs).
  destruct (vectorSearch_fails_empty query _ (dense_branch_fails_after _ _ Hdense))
    as [w2 Hv'].
  rewrite Hv' in Hv. injection Hv as <- _. eauto.
Qed.

(** C6. When the dense branch fails and the [query:] cache has no entry,
    [vectorSearch] returns the empty list, and [searchDocuments] returns
    the lexical results alone, fused and diversified: every chunk it
    returns is a lexical result, with its payload; when the lexical
    branch has nothing either, [searchDocuments] returns the empty list
    and [getKnowledgeAnswer], on a miss of its own cache, the no-information
    reply with no citation. *)
Theorem retrieval_degrades_to_lexical (query : string) (limit : nat) (w : World) :
  dense_branch_fails E query w ->
  query_cache (redis w) !! ("query:" +:+ Js.base64 query) = None ->
  let lexical := lexical_results E query 8 w in
  (exists w', vectorSearch E query 8 w = (Ok [], w'))
  /\ (exists results w',
        searchDocuments E query limit w = (Ok results, w')
        /\ results = applyMMR (Js.slice_to 8 (mergeResults lexical [])) limit
        /\ forall h, In h results ->
             exists l, In l lexical /\ point_id h = point_id l /\ payload h = payload l)
  /\ (lexical = [] ->
      (exists w', searchDocuments E query limit w = (Ok [], w'))
      /\ (let cacheKey := "knowledge:" +:+ JsString.slice_to 100 (Js.base64 query) in
          knowledge_cache (redis w) !! cacheKey = None ->
          redis_fault E (redis_ops (redis w)) "GET" cacheKey = None ->
          exists w', getKnowledgeAnswer E query w = (Ok no_information, w'))).
Proof.
  intros Hdense Hmiss lexical. split; [now apply vectorSearch_fails_empty|].
  split.
  { destruct (searchDocuments_degraded query limit w Hdense Hmiss) as [w' Hs].
    eexists. exists w'. split; [exact Hs|]. split; [reflexivity|].
    intros h Hh. apply applyMMR_in in Hh. apply in_firstn in Hh.
    now apply mergeResults_lexical_only. }
  intros Hnil. split.
  - destruct (searchDocuments_degraded query limit w Hdense Hmiss) as [w' Hs].
    fold lexical in Hs. rewrite Hnil in Hs. eauto.
  - intros cacheKey Hk Hf.
    destruct (searchDocuments_degraded query 3 (after_command w)
                (dense_branch_fails_after _ _ Hdense) Hmiss) as [w' Hs].
    rewrite (lexical_results_index query 8 w (after_command w)) in Hs by reflexivity.
    fold lexical in Hs. rewrite Hnil in Hs.
    unfold getKnowledgeAnswer, try_catch. unfold bind at 1.
    unfold redis_get, redis_command. fold cacheKey. rewrite Hf.
    cbn [ns_read knowledge_ns knowledge_cache set_redis_ops]. rewrite Hk.
    cbn [fmap option_fmap option_map].
    unfold bind. 
    change (set_redis (set_redis_ops (S (redis_ops (redis w))) (redis w)) w)
      with (after_command w).
    rewrite Hs. cbn. unfold ret. eauto.
Qed.
End Degraded.

(** C7. On a cache miss [searchDocuments] returns [applyMMR] of the first 8
    fused candidates. The MMR score of a candidate is 0.5 times its fused
    score minus 0.5 times its largest Jaccard similarity to a selected
    chunk. [applyMMR]
    returns its input when that has at most [k] chunks; otherwise it starts
    from the top chunk and takes, while fewer than [k] are selected, a
    remaining chunk with the largest MMR score. The result then has [k]
    chunks (one, the seed, for [k = 0]). *)
Theorem applyMMR_is_greedy_selection (results : list Hit) (k : nat) :
  (forall E query limit w,
     query_cache (redis w) !! ("query:" +:+ Js.base64 query) = None ->
     exists dense w1 w',
       vectorSearch E query 8 (after_command w) = (Ok dense, w1)
       /\ searchDocuments E query limit w
          = (Ok (applyMMR
                   (Js.slice_to 8 (mergeResults (lexical_results E query 8 w) dense)) limit),
             w'))
  /\ (forall c selected, selected <> [] ->
     exists m, max_similarity c selected m
               /\ (mmrScore (1 # 2) selected c == (1 # 2) * score c - (1 # 2) * m)%Q)
  /\ ((length results <= k)%nat /\ applyMMR results k = results
      \/ (k < length results)%nat
         /\ exists first rest,
              results = first :: rest
              /\ mmr_selects k [first] rest (applyMMR results k)
              /\ length (applyMMR results k) = Nat.max 1 k).
Proof.
  split; [intros E query limit w; apply searchDocuments_on_miss|].
  split.
  - intros c selected Hne. exists (maxSimilarity c selected).
    split; [now apply maxSimilarity_is_max|]. unfold mmrScore. ring.
  - unfold applyMMR, applyMMR_with.
    destruct (Nat.leb_spec (length results) k) as [Hle | Hlt]; [now left | right].
    split; [exact Hlt|]. destruct results as [|first rest]; [cbn in Hlt; lia|].
    exists first, rest. split; [reflexivity|]. split.
    + now apply mmr_loop_greedy.
    + rewrite mmr_loop_length by reflexivity. cbn [length] in *.
      destruct (Nat.ltb_spec 1 k); lia.
Qed.

(** ** Strings *)

Section Strings.
Import JsString.

Lemma append_assoc (a b c : string) : (a +:+ b) +:+ c = a +:+ (b +:+ c).
Proof. induction a as [|x a IH]; [reflexivity|]. rewrite !append_cons. now rewrite IH. Qed.

Lemma append_nil_r (a : string) : a +:+ "" = a.
Proof. induction a as [|x a IH]; [reflexivity|]. rewrite append_cons. now rewrite IH. Qed.

Lemma rev_onto_append (s acc : string) : rev_onto s acc = rev s +:+ acc.
Proof.
  unfold rev. revert acc. induction s as [|c s IH]; intros acc; cbn [rev_onto].
  - reflexivity.
  - rewrite (IH (String c acc)), (IH (String c "")), append_assoc.
    now rewrite append_cons, append_nil.
Qed.

Lemma rev_cons (c : ascii) (s : string) : rev (String c s) = rev s +:+ String c "".
Proof. unfold rev at 1. cbn [rev_onto]. apply rev_onto_append. Qed.

Lemma split_char_go_cons c s cur :
  exists x xs, split_char_go c s cur = x :: xs.
Proof.
  revert cur. induction s as [|d s IH]; intros cur; cbn [split_char_go]; [eauto|].
  destruct (Ascii.eqb c d); eauto.
Qed.

Lemma join_cons sep x y ys : join sep (x :: y :: ys) = x +:+ sep +:+ join sep (y :: ys).
Proof. reflexivity. Qed.

(** Joining the pieces of a split with the separator gives the string back. *)
Lemma join_split_char_go c s cur :
  join (String c "") (split_char_go c s cur) = rev cur +:+ s.
Proof.
  revert cur. induction s as [|d s IH]; intros cur; cbn [split_char_go].
  - cbn. now rewrite append_nil_r.
  - destruct (Ascii.eqb_spec c d) as [<- | Hne].
    + destruct (split_char_go_cons c s "") as (x & xs & Hx).
      specialize (IH ""). rewrite Hx in *. rewrite join_cons, IH.
      now rewrite append_cons, !append_nil.
    + rewrite IH, rev_cons, append_assoc. now rewrite append_cons, append_nil.
Qed.

Lemma join_split_char c s : join (String c "") (split_char c s) = s.
Proof. unfold split_char. now rewrite join_split_char_go. Qed.

Lemma join_app sep (a b : list string) :
  a <> [] -> b <> [] -> join sep (a ++ b) = join sep a +:+ sep +:+ join sep b.
Proof.
  intros Ha Hb. induction a as [|x a IH]; [congruence|].
  destruct a as [|y a].
  - destruct b; [congruence|]. reflexivity.
  - cbn [app] in *. rewrite !join_cons, IH by congruence. now rewrite !append_assoc.
Qed.

(** Joining joined groups is joining all the words. *)
Lemma join_groups sep (groups : list (list string)) :
  Forall (fun g => g <> []) groups ->
  join sep (map (join sep) groups) = join sep (concat groups).
Proof.
  induction 1 as [|g gs Hg Hgs IH]; [reflexivity|].
  destruct gs as [|g' gs].
  - cbn. now rewrite app_nil_r.
  - cbn [map concat] in *. rewrite join_cons, IH.
    inversion Hgs; subst. rewrite (join_app sep g (g' ++ concat gs)); [reflexivity|assumption|].
    destruct g'; [congruence|discriminate].
Qed.
End Strings.

(** ** Chunking *)

Section Chunking.
Import JsString.

Lemma sum_list_snoc l x : sum_list (l ++ [x]) = (sum_list l + x)%nat.
Proof. induction l as [|y l IH]; cbn; lia. Qed.

Lemma tokens_one w : sum_list (map wordTokens [w]) = wordTokens w.
Proof. cbn [map]. unfold sum_list, sum_list_with. cbn [id]. lia. Qed.

Lemma chunk_steps maxTokens :
  forall (pending : list string) (groups : list (list string)) (current : list string),
    Forall (fun g => g <> [] /\ within_budget maxTokens g) groups ->
    (current = [] \/ within_budget maxTokens current) ->
    exists groups' current',
      fold_left (chunk_step maxTokens) pending
        (map (join " ") groups, current, sum_list (map wordTokens current))
      = (map (join " ") groups', current', sum_list (map wordTokens current'))
      /\ Forall (fun g => g <> [] /\ within_budget maxTokens g) groups'
      /\ (current' = [] \/ within_budget maxTokens current')
      /\ concat groups' ++ current' = concat groups ++ current ++ pending
      /\ (current' = [] -> pending = [] /\ current = []).
Proof.
  induction pending as [|word pending IH]; intros groups current Hg Hc.
  - exists groups, current. cbn. rewrite app_nil_r. repeat split; auto.
  - cbn [fold_left]. unfold chunk_step at 2.
    destruct ((maxTokens <? _)%nat && (0 <? length current)%nat) eqn:Hfull.
    + apply andb_true_iff in Hfull as [_ Hne]. apply Nat.ltb_lt in Hne.
      destruct (IH (groups ++ [current]) [word]) as (gs & cur & Hrun & Hgs & Hcur & Hall & Hnil).
      * apply Forall_app. split; [exact Hg|]. constructor; [|constructor].
        destruct Hc as [-> | Hc]; [cbn in Hne; lia|]. split; [|exact Hc].
        intros ->. cbn in Hne. lia.
      * right. now left.
      * exists gs, cur. rewrite map_app, tokens_one in Hrun. cbn [map] in Hrun.
        rewrite Hrun. split; [reflexivity|]. split; [exact Hgs|]. split; [exact Hcur|].
        split.
        -- rewrite Hall, concat_app. cbn. now rewrite app_nil_r, <- app_assoc.
        -- intros Hn. destruct (Hnil Hn) as [_ ?]. discriminate.
    + destruct (IH groups (current ++ [word])) as (gs & cur & Hrun & Hgs & Hcur & Hall & Hnil).
      * exact Hg.
      * right. apply andb_false_iff in Hfull as [Hfit | Hempty].
        -- right. apply Nat.ltb_ge in Hfit. rewrite map_app. cbn [map]. rewrite sum_list_snoc. lia.
        -- left. apply Nat.ltb_ge in Hempty. destruct current; [reflexivity|cbn in Hempty; lia].
      * exists gs, cur. rewrite map_app in Hrun. cbn [map] in Hrun. rewrite sum_list_snoc in Hrun.
        rewrite Hrun. split; [reflexivity|]. split; [exact Hgs|]. split; [exact Hcur|].
        split.
        -- rewrite Hall. now rewrite <- !app_assoc.
        -- intros Hn. destruct (Hnil Hn) as [_ Hx]. now destruct current.
Qed.

(** [chunkText] groups the words of the text, in order, into non-empty
    groups and joins each group. *)
Lemma chunkText_groups text0 maxTokens :
  exists groups,
    chunkText text0 maxTokens = map (join " ") groups
    /\ concat groups = split_char " " text0
    /\ Forall (fun g => g <> [] /\ within_budget maxTokens g) groups.
Proof.
  unfold chunkText. cbv zeta.
  destruct (chunk_steps maxTokens (split_char " " text0) [] []) as
    (gs & cur & Hrun & Hgs & Hcur & Hall & Hnil); [constructor|now left|].
  cbn in Hrun, Hall. rewrite Hrun.
  destruct cur as [|x cur].
  - destruct (Hnil eq_refl) as [Hw _]. exfalso.
    unfold split_char in Hw. destruct (split_char_go_cons " " text0 "") as (y & ys & Hy).
    congruence.
  - cbn [length Nat.ltb Nat.leb]. exists (gs ++ [x :: cur]).
    rewrite map_app. split; [reflexivity|]. split.
    + rewrite concat_app. cbn. now rewrite app_nil_r.
    + apply Forall_app. split; [exact Hgs|]. constructor; [|constructor].
      split; [discriminate|]. destruct Hcur; [discriminate|assumption].
Qed.

(** X1. Chunking loses nothing: the chunks, joined by single spaces, are the text, and there is
    always at least one chunk. *)
Theorem chunkText_joins_back (text0 : string) (maxTokens : nat) :
  join " " (chunkText text0 maxTokens) = text0
  /\ chunkText text0 maxTokens <> [].
Proof.
  destruct (chunkText_groups text0 maxTokens) as (groups & Hc & Hw & Hg).
  split.
  - rewrite Hc, join_groups, Hw.
    + apply join_split_char.
    + eapply Forall_impl; [exact Hg|]. now intros g [? _].
  - rewrite Hc. intros Hn. destruct groups; [|discriminate].
    cbn in Hw. symmetry in Hw. unfold split_char in Hw.
    destruct (split_char_go_cons " " text0 "") as (y & ys & Hy). congruence.
Qed.

(** X2. A chunk is a run of consecutive words of the text whose estimated
    tokens fit the budget, unless it is one word alone. *)
Theorem chunkText_respects_budget (text0 : string) (maxTokens : nat) :
  exists groups : list (list string),
    chunkText text0 maxTokens = map (join " ") groups
    /\ concat groups = split_char " " text0
    /\ forall g, In g groups ->
         g <> [] /\ (length g = 1%nat \/ (sum_list (map wordTokens g) <= maxTokens)%nat).
Proof.
  destruct (chunkText_groups text0 maxTokens) as (groups & Hc & Hw & Hg).
  exists groups. split; [exact Hc|]. split; [exact Hw|].
  intros g Hin. rewrite List.Forall_forall in Hg. exact (Hg g Hin).
Qed.
End Chunking.

(** ** What a computation maintains *)

Create HintDb frame.

Section Maintains.
Context (P : World -> Prop).

Lemma maintains_ret {A} (a : A) : maintains P (ret a).
Proof. intros w H. exact H. Qed.

Lemma maintains_throw {A} e : maintains P (@throw A e).
Proof. intros w H. exact H. Qed.

Lemma maintains_gets {A} (f : World -> A) : maintains P (gets f).
Proof. intros w H. exact H. Qed.

Lemma maintains_of_outcome {A} (o : Outcome A) : maintains P (of_outcome o).
Proof. intros w H. exact H. Qed.

Lemma maintains_modify (g : World -> World) :
  (forall w, P w -> P (g w)) -> maintains P (modify g).
Proof. intros Hg w H. exact (Hg w H). Qed.

Lemma maintains_bind {A B} (m : M A) (f : A -> M B) :
  maintains P m -> (forall a, maintains P (f a)) -> maintains P (bind m f).
Proof.
  intros Hm Hf w H. specialize (Hm w H). unfold bind.
  destruct (m w) as [[a|e] w1]; [apply Hf|]; exact Hm.
Qed.

Lemma maintains_try_catch {A} (m : M A) h :
  maintains P m -> (forall e, maintains P (h e)) -> maintains P (try_catch m h).
Proof.
  intros Hm Hh w H. specialize (Hm w H). unfold try_catch.
  destruct (m w) as [[a|e] w1]; [|apply Hh]; exact Hm.
Qed.

Lemma maintains_settle {A} (m : M A) : maintains P m -> maintains P (settle m).
Proof.
  intros Hm w H. specialize (Hm w H). unfold settle. now destruct (m w).
Qed.

Lemma maintains_mapM {A B} (f : A -> M B) l :
  (forall a, maintains P (f a)) -> maintains P (mapM f l).
Proof.
  intros Hf. induction l as [|x l IH]; cbn [mapM].
  - apply maintains_ret.
  - apply maintains_bind; [apply Hf|]. intros y.
    apply maintains_bind; [apply IH|]. intros ys. apply maintains_ret.
Qed.

Lemma maintains_foldM {A B} (f : B -> A -> M B) l b :
  (forall b a, maintains P (f b a)) -> maintains P (foldM f l b).
Proof.
  intros Hf. revert b. induction l as [|x l IH]; intros b; cbn [foldM].
  - apply maintains_ret.
  - apply maintains_bind; [apply Hf|]. intros b'. apply IH.
Qed.

(** A Redis command: the command is counted, then it takes effect. *)
Lemma maintains_redis_command E {A} command key (f : Redis -> A * Redis) :
  (forall w, P w -> P (after_command w)) ->
  (forall w, P w -> P (set_redis (snd (f (redis w))) w)) ->
  maintains P (redis_command E command key f).
Proof.
  intros Hcount Heffect w H. unfold redis_command.
  destruct (redis_fault E _ _ _).
  - exact (Hcount w H).
  - specialize (Heffect _ (Hcount w H)). cbn in Heffect.
    destruct (f _) as [a r2]. exact Heffect.
Qed.

Lemma maintains_date_now E :
  (forall w, P w -> P (set_clock_reads (S (clock_reads w)) w)) -> maintains P (date_now E).
Proof. intros Hc w H. exact (Hc w H). Qed.
End Maintains.

(** Goals [maintains P m], by the shape of [m]; what is left says that one
    write keeps [P]. *)
Ltac frame_step :=
  match goal with
  | |- forall _, _ => intro
  | |- maintains _ (ret _) => apply maintains_ret
  | |- maintains _ (throw _) => apply maintains_throw
  | |- maintains _ (gets _) => apply maintains_gets
  | |- maintains _ (of_outcome _) => apply maintains_of_outcome
  | |- maintains _ (bind _ _) => apply maintains_bind
  | |- maintains _ (try_catch _ _) => apply maintains_try_catch
  | |- maintains _ (settle _) => apply maintains_settle
  | |- maintains _ (mapM _ _) => apply maintains_mapM
  | |- maintains _ (foldM _ _ _) => apply maintains_foldM
  | |- maintains _ (redis_command _ _ _ _) => apply maintains_redis_command
  | |- maintains _ (date_now _) => apply maintains_date_now
  | |- maintains _ (modify _) => apply maintains_modify
  | |- maintains _ (if ?x then _ else _) => destruct x
  | |- maintains _ (match ?x with _ => _ end) => destruct x
  | |- maintains _ _ => solve [auto with frame]
  end.

Ltac frame := repeat frame_step.

Lemma set_redis_same w : set_redis (redis w) w = w.
Proof. now destruct w. Qed.

Section Frames.
Variable E : Env.

Lemma generateApptId_from_maintains P tries :
  (forall w, P w -> P (after_command w)) ->
  (forall w n, P w -> P (set_clock_reads n w)) ->
  (forall w n, P w -> P (set_lastApptNumber n w)) ->
  maintains P (generateApptId_from E tries).
Proof.
  intros H1 H2 H3. induction tries as [|n IH]; cbn [generateApptId_from]; [frame|].
  unfold redis_exists. frame; auto.
  cbn. rewrite set_redis_same. auto.
Qed.

Lemma generateApptId_maintains P :
  (forall w, P w -> P (after_command w)) ->
  (forall w n, P w -> P (set_clock_reads n w)) ->
  (forall w n, P w -> P (set_lastApptNumber n w)) ->
  maintains P (generateApptId E).
Proof.
  intros H1 H2 H3 w H. unfold generateApptId.
  exact (generateApptId_from_maintains P _ H1 H2 H3 w H).
Qed.

End Frames.

Section Appointments.
Variable E : Env.
Hypothesis Hup : redis_up E.

Ltac run :=
  repeat progress
    (unfold bind, ret, gets, modify, try_catch, throw, of_outcome, now_iso, date_now,
       redis_get, redis_setex, redis_sadd, redis_exists, redis_del, redis_del_keys,
       redis_keys, redis_smembers, redis_srem, redis_del_index;
     cbn beta iota zeta; rewrite ?(redis_command_up E Hup); cbn [fst snd]).

Lemma getAppointment_up apptId w :
  getAppointment E apptId w
  = (Ok (snd <$> appt_store (redis w) !! ("appt:" +:+ apptId)), after_command w).
Proof. unfold getAppointment. run. reflexivity. Qed.

Lemma after_commands_appt_store n w :
  appt_store (redis (after_commands n w)) = appt_store (redis w).
Proof. revert w. induction n as [|n IH]; intros w; [reflexivity|]. cbn. now rewrite IH. Qed.

Lemma after_commands_appts_all n w :
  appts_all (redis (after_commands n w)) = appts_all (redis w).
Proof. revert w. induction n as [|n IH]; intros w; [reflexivity|]. cbn. now rewrite IH. Qed.

Lemma after_commands_S n w : after_commands n (after_command w) = after_commands (S n) w.
Proof. reflexivity. Qed.

(** Reading a list of appointments one after the other. *)
Lemma read_appointments ids w :
  mapM (fun apptId => redis_get E appt_ns ("appt:" +:+ apptId)) ids w
  = (Ok (map (fun apptId => snd <$> appt_store (redis w) !! ("appt:" +:+ apptId)) ids),
     after_commands (length ids) w).
Proof.
  revert w. induction ids as [|i ids IH]; intros w; [reflexivity|].
  cbn [mapM map length]. unfold bind at 1. unfold redis_get at 1.
  rewrite (redis_command_up E Hup). cbn [fst snd ns_read appt_ns].
  unfold bind at 1. rewrite IH. cbn [appt_store redis set_redis set_redis_ops].
  unfold ret. reflexivity.
Qed.

Lemma getAllAppointments_up w :
  getAllAppointments E w
  = (Ok (present (map (fun apptId => snd <$> appt_store (redis w) !! ("appt:" +:+ apptId))
                      (elements (appts_all (redis w))))),
     after_commands (S (length (elements (appts_all (redis w))))) w).
Proof.
  unfold getAllAppointments, try_catch. unfold bind at 1. unfold redis_smembers.
  rewrite (redis_command_up E Hup). cbn [fst snd]. unfold bind at 1.
  rewrite read_appointments. cbn [appts_all appt_store redis set_redis set_redis_ops].
  unfold ret. reflexivity.
Qed.

Lemma in_present {A} (a : A) l : In a (present l) <-> In (Some a) l.
Proof.
  unfold present. rewrite in_flat_map. split.
  - intros ([x|] & Hin & Hx); [|destruct Hx]. destruct Hx as [<- | []]. exact Hin.
  - intros Hin. exists (Some a). split; [exact Hin|now left].
Qed.

Lemma length_present {A} (l : list (option A)) : (length (present l) <= length l)%nat.
Proof. unfold present. induction l as [|[x|] l IH]; cbn in *; lia. Qed.

(** X3. [getAllAppointments] lists the records of the indexed identifiers, and
    those only; an identifier whose record is gone is skipped. *)
Theorem getAllAppointments_lists_the_index (w : World) :
  exists l w',
    getAllAppointments E w = (Ok l, w')
    /\ (forall a, In a l <->
          exists apptId ttl, apptId ∈ appts_all (redis w)
            /\ appt_store (redis w) !! ("appt:" +:+ apptId) = Some (ttl, a))
    /\ (length l <= size (appts_all (redis w)))%nat
    /\ appt_store (redis w') = appt_store (redis w)
    /\ appts_all (redis w') = appts_all (redis w).
Proof.
  eexists. eexists. split; [apply getAllAppointments_up|].
  split; [|split; [|split]].
  - intros a. rewrite in_present, in_map_iff. split.
    + intros (apptId & Ha & Hin). exists apptId.
      destruct (appt_store (redis w) !! _) as [[ttl a']|] eqn:Hl; [|discriminate].
      cbn in Ha. injection Ha as ->. exists ttl. split; [|reflexivity].
      apply elem_of_elements, list_elem_of_In. exact Hin.
    + intros (apptId & ttl & Hin & Hl). exists apptId. rewrite Hl. split; [reflexivity|].
      apply list_elem_of_In, elem_of_elements. exact Hin.
  - etransitivity; [apply length_present|]. rewrite length_map. reflexivity.
  - apply after_commands_appt_store.
  - apply after_commands_appts_all.
Qed.

(** *** Booking *)

Lemma generateApptId_from_counter tries : forall w apptId w',
  generateApptId_from E tries w = (Ok apptId, w') ->
  (lastApptNumber w < lastApptNumber w')%nat.
Proof.
  induction tries as [|tries IH]; intros w apptId w' H; [discriminate|].
  cbn [generateApptId_from] in H. revert H. run.
  match goal with |- context [if ?b then _ else _] => destruct b end.
  - intros H. apply IH in H. cbn in H. lia.
  - intros H. injection H as _ <-. cbn. lia.
Qed.

Lemma generateApptId_beside w : beside_ids (snd (generateApptId E w)) = beside_ids w.
Proof.
  apply (generateApptId_maintains E (reads beside_ids (beside_ids w)));
    try reflexivity; intros w0 **; unfold reads, beside_ids in *; cbn; assumption.
Qed.

Lemma scheduleAppointment_books (name slot loc : string) (t : Z) (w : World) :
  truthy name = true -> truthy slot = true -> truthy loc = true ->
  Date_parse E slot = Some t ->
  exists a w1,
    scheduleAppointment E name slot loc w = (Ok (ApiOk a), w1)
    /\ patient a = name
    /\ normalized_slot_iso a = Date_toISOString E t
    /\ location a = loc
    /\ status a = "scheduled"
    /\ appt_store (redis w) !! ("appt:" +:+ appt_id a) = None
    /\ appt_store (redis w1) = <["appt:" +:+ appt_id a := (604800%N, a)]> (appt_store (redis w))
    /\ appts_all (redis w1) = {[appt_id a]} ∪ appts_all (redis w)
    /\ memory_store (redis w1) = memory_store (redis w)
    /\ isReady w1 = isReady w
    /\ planSteps w1 = planSteps w
    /\ (lastApptNumber w < lastApptNumber w1)%nat.
Proof.
  intros Hn Hs Hl Ht.
  destruct (generateApptId_fresh E Hup w) as (apptId & wg & Hg & Hstore & Hnone).
  pose proof (generateApptId_beside w) as Hb. rewrite Hg in Hb. cbn [snd] in Hb.
  pose proof (generateApptId_from_counter _ _ _ _ Hg) as Hc.
  unfold beside_ids in Hb. injection Hb as Hb1 Hb2 _ _ _ Hb3 Hb4 _ _.
  unfold scheduleAppointment. rewrite Hn, Hs, Hl. cbn [negb orb].
  unfold try_catch. unfold bind at 1. rewrite Hg, Ht. run.
  eexists. eexists. split; [reflexivity|].
  cbn. rewrite Hstore, Hb1, Hb2, Hb3, Hb4. repeat split; auto.
Qed.

(** X4. An input that is refused stores nothing; a slot that is no date is
    refused after an identifier has been drawn for it. *)
Theorem invalid_booking_stores_nothing (name slot loc : string) (w : World) :
  truthy name && truthy slot && truthy loc = false \/ Date_parse E slot = None ->
  exists e w',
    scheduleAppointment E name slot loc w = (Ok (ApiError e), w')
    /\ appt_store (redis w') = appt_store (redis w)
    /\ appts_all (redis w') = appts_all (redis w)
    /\ (truthy name && truthy slot && truthy loc = false ->
        e = "Missing required fields: name, slot, location" /\ w' = w)
    /\ (truthy name && truthy slot && truthy loc = true ->
        e = "Invalid date/time format" /\ (lastApptNumber w < lastApptNumber w')%nat).
Proof.
  intros Hbad. unfold scheduleAppointment.
  destruct (truthy name && truthy slot && truthy loc) eqn:Hall.
  - destruct Hbad as [Hbad | Hdate]; [discriminate|].
    apply andb_true_iff in Hall as [Hall Hl]. apply andb_true_iff in Hall as [Hn Hs].
    rewrite Hn, Hs, Hl. cbn [negb orb].
    destruct (generateApptId_fresh E Hup w) as (apptId & wg & Hg & Hstore & Hnone).
    pose proof (generateApptId_beside w) as Hb. rewrite Hg in Hb. cbn [snd] in Hb.
    pose proof (generateApptId_from_counter _ _ _ _ Hg) as Hc.
    unfold beside_ids in Hb. injection Hb as Hb1 _ _ _ _ _ _ _ _.
    unfold try_catch. unfold bind at 1. rewrite Hg, Hdate. unfold ret.
    eexists. eexists. split; [reflexivity|].
    split; [exact Hstore|]. split; [exact Hb1|]. split; [discriminate|].
    intros _. split; [reflexivity|exact Hc].
  - assert (Hneg : negb (truthy name) || negb (truthy slot) || negb (truthy loc) = true).
    { destruct (truthy name), (truthy slot), (truthy loc); try reflexivity; discriminate. }
    rewrite Hneg. unfold try_catch, ret.
    eexists. eexists. split; [reflexivity|].
    split; [reflexivity|]. split; [reflexivity|]. split; [|discriminate].
    intros _. split; reflexivity.
Qed.

(** X5. Two bookings give two appointments: the identifiers differ, the first
    record is as it was, and both are read back and listed. *)
Theorem booking_twice_gives_two_appointments
    (name1 slot1 loc1 name2 slot2 loc2 : string) (t1 t2 : Z) (w : World) :
  truthy name1 = true -> truthy slot1 = true -> truthy loc1 = true ->
  Date_parse E slot1 = Some t1 ->
  truthy name2 = true -> truthy slot2 = true -> truthy loc2 = true ->
  Date_parse E slot2 = Some t2 ->
  exists a1 w1 a2 w2,
    scheduleAppointment E name1 slot1 loc1 w = (Ok (ApiOk a1), w1)
    /\ scheduleAppointment E name2 slot2 loc2 w1 = (Ok (ApiOk a2), w2)
    /\ appt_id a1 <> appt_id a2
    /\ patient a1 = name1 /\ patient a2 = name2
    /\ (exists w3, getAppointment E (appt_id a1) w2 = (Ok (Some a1), w3))
    /\ (exists w3, getAppointment E (appt_id a2) w2 = (Ok (Some a2), w3))
    /\ (exists l w3, getAllAppointments E w2 = (Ok l, w3) /\ In a1 l /\ In a2 l).
Proof.
  intros Hn1 Hs1 Hl1 Ht1 Hn2 Hs2 Hl2 Ht2.
  destruct (scheduleAppointment_books name1 slot1 loc1 t1 w Hn1 Hs1 Hl1 Ht1)
    as (a1 & w1 & Hrun1 & Hp1 & _ & _ & _ & _ & Hst1 & Hix1 & _).
  destruct (scheduleAppointment_books name2 slot2 loc2 t2 w1 Hn2 Hs2 Hl2 Ht2)
    as (a2 & w2 & Hrun2 & Hp2 & _ & _ & _ & Hfresh2 & Hst2 & Hix2 & _).
  assert (Hne : appt_id a1 <> appt_id a2).
  { intros Heq. rewrite <- Heq, Hst1, lookup_insert_eq in Hfresh2. discriminate. }
  assert (Hkey : "appt:" +:+ appt_id a2 <> "appt:" +:+ appt_id a1).
  { intros Heq. apply (inj (String.append "appt:")) in Heq. congruence. }
  assert (H1 : appt_store (redis w2) !! ("appt:" +:+ appt_id a1) = Some (604800%N, a1)).
  { rewrite Hst2, lookup_insert_ne by exact Hkey. rewrite Hst1. apply lookup_insert_eq. }
  assert (H2 : appt_store (redis w2) !! ("appt:" +:+ appt_id a2) = Some (604800%N, a2)).
  { rewrite Hst2. apply lookup_insert_eq. }
  exists a1, w1, a2, w2. repeat split; auto.
  - eexists. rewrite getAppointment_up, H1. reflexivity.
  - eexists. rewrite getAppointment_up, H2. reflexivity.
  - eexists. eexists. split; [apply getAllAppointments_up|].
    rewrite !in_present, !in_map_iff. split.
    + exists (appt_id a1). rewrite H1. split; [reflexivity|].
      apply list_elem_of_In, elem_of_elements. rewrite Hix2, Hix1.
      apply elem_of_union_r, elem_of_union_l, elem_of_singleton. reflexivity.
    + exists (appt_id a2). rewrite H2. split; [reflexivity|].
      apply list_elem_of_In, elem_of_elements. rewrite Hix2.
      apply elem_of_union_l, elem_of_singleton. reflexivity.
Qed.

(** *** Cancelling *)

Lemma cancelAppointment_up apptId w :
  cancelAppointment E apptId w
  = match appt_store (redis w) !! ("appt:" +:+ apptId) with
    | None => (Ok (CancelFailed ("Appointment " +:+ apptId +:+ " not found")), after_command w)
    | Some _ =>
        (Ok (Cancelled ("Appointment " +:+ apptId +:+ " cancelled")),
         set_redis
           (set_appt_store (delete ("appt:" +:+ apptId) (appt_store (redis w)))
              (set_appts_all (appts_all (redis w) ∖ {[apptId]})
                 (set_redis_ops (3 + redis_ops (redis w)) (redis w)))) w)
    end.
Proof.
  unfold cancelAppointment. run. cbn [ns_read appt_ns appt_store set_redis_ops].
  destruct (appt_store (redis w) !! _) as [[ttl a]|]; cbn [fmap option_fmap option_map].
  - run. reflexivity.
  - reflexivity.
Qed.

(** X6. Cancelling a stored appointment deletes its record and takes it out
    of the index, and nothing else; after that it is unknown. *)
Theorem cancelAppointment_removes (apptId : string) (ttl : N) (a : Appointment) (w : World) :
  appt_store (redis w) !! ("appt:" +:+ apptId) = Some (ttl, a) ->
  exists w1,
    cancelAppointment E apptId w
      = (Ok (Cancelled ("Appointment " +:+ apptId +:+ " cancelled")), w1)
    /\ appt_store (redis w1) = delete ("appt:" +:+ apptId) (appt_store (redis w))
    /\ appts_all (redis w1) = appts_all (redis w) ∖ {[apptId]}
    /\ (exists w2, getAppointment E apptId w1 = (Ok None, w2))
    /\ (exists w2, cancelAppointment E apptId w1
          = (Ok (CancelFailed ("Appointment " +:+ apptId +:+ " not found")), w2))
    /\ (forall other, other <> apptId ->
          fst (getAppointment E other w1) = fst (getAppointment E other w)).
Proof.
  intros Hstored. eexists. split.
  { rewrite cancelAppointment_up, Hstored. reflexivity. }
  cbn [redis set_redis appt_store set_appt_store appts_all set_appts_all set_redis_ops].
  split; [reflexivity|]. split; [reflexivity|]. split; [|split].
  - eexists. rewrite getAppointment_up. cbn. rewrite lookup_delete_eq. reflexivity.
  - eexists. rewrite cancelAppointment_up. cbn. rewrite lookup_delete_eq. reflexivity.
  - intros other Hne. rewrite !getAppointment_up. cbn.
    rewrite lookup_delete_ne; [reflexivity|].
    intros Heq. apply (inj (String.append "appt:")) in Heq. congruence.
Qed.

(** *** Deleting everything *)

Lemma lookup_delete_keys_in {V} (m : gmap string V) keys k :
  In k keys -> foldr delete m keys !! k = None.
Proof.
  induction keys as [|x keys IH]; intros Hin; [destruct Hin|]. cbn [foldr].
  destruct (decide (x = k)) as [-> | Hne]; [apply lookup_delete_eq|].
  rewrite lookup_delete_ne by exact Hne. apply IH. destruct Hin; [congruence|assumption].
Qed.

Lemma lookup_delete_keys_out {V} (m : gmap string V) keys k :
  ~ In k keys -> foldr delete m keys !! k = m !! k.
Proof.
  induction keys as [|x keys IH]; intros Hout; [reflexivity|]. cbn [foldr].
  rewrite lookup_delete_ne by (intros ->; apply Hout; now left).
  apply IH. intros Hin. apply Hout. now right.
Qed.

(** X7. [deleteAllAppointments] deletes the records of the indexed identifiers
    and the index, and reports how many identifiers the index held; a
    record that was not indexed stays. *)
Theorem deleteAllAppointments_empties_the_index (w : World) :
  exists n message w1,
    deleteAllAppointments E w = (Ok (Deleted n message), w1)
    /\ n = size (appts_all (redis w))
    /\ appts_all (redis w1) = ∅
    /\ (forall apptId, apptId ∈ appts_all (redis w) ->
          appt_store (redis w1) !! ("appt:" +:+ apptId) = None)
    /\ (forall key, (forall apptId, apptId ∈ appts_all (redis w) -> key <> "appt:" +:+ apptId) ->
          appt_store (redis w1) !! key = appt_store (redis w) !! key)
    /\ (exists w2, getAllAppointments E w1 = (Ok [], w2))
    /\ (appts_all (redis w) = ∅ -> message = "No appointments to delete").
Proof.
  unfold deleteAllAppointments. run.
  cbn [appts_all set_redis_ops].
  destruct (elements (appts_all (redis w))) as [|i ids] eqn:Hids.
  - apply elements_empty_inv in Hids. apply leibniz_equiv in Hids.
    cbn [length Nat.eqb]. eexists. eexists. eexists. split; [reflexivity|].
    cbn. rewrite Hids. split; [now rewrite size_empty|]. split; [reflexivity|].
    split; [intros ? Hin; now apply not_elem_of_empty in Hin|].
    split; [reflexivity|]. split; [|reflexivity].
    eexists. rewrite getAllAppointments_up. cbn. rewrite Hids, elements_empty. reflexivity.
  - cbn [length Nat.eqb]. run. eexists. eexists. eexists. split; [reflexivity|].
    cbn [redis set_redis appt_store set_appt_store appts_all set_appts_all set_redis_ops
           ns_read ns_write appt_ns].
    split; [unfold size, set_size; cbn; now rewrite Hids|]. split; [reflexivity|].
    split; [|split; [|split]].
    + intros apptId Hin. apply lookup_delete_keys_in.
      apply in_map_iff. exists apptId. split; [reflexivity|].
      rewrite <- Hids. apply list_elem_of_In, elem_of_elements. exact Hin.
    + intros key Hkey. apply lookup_delete_keys_out.
      intros Hin. apply in_map_iff in Hin as (apptId & <- & Hin).
      apply (Hkey apptId); [|reflexivity].
      apply elem_of_elements, list_elem_of_In. rewrite Hids. exact Hin.
    + eexists. rewrite getAllAppointments_up. cbn. rewrite elements_empty. reflexivity.
    + intros Hempty. rewrite Hempty, elements_empty in Hids. discriminate.
Qed.

End Appointments.

Section IndexWriteFails.
Variable E : Env.
Variable message : string.
Hypothesis Hother : forall n command key, command <> "SADD" -> redis_fault E n command key = None.
Hypothesis Hsadd : forall n key, redis_fault E n "SADD" key = Some message.


End IndexWriteFails.

(** ** The state of stored appointments *)

Lemma maintains_bind_from P {A B} (m : M A) (f : A -> M B) :
  maintains P m ->
  (forall a w, P w -> fst (m w) = Ok a -> maintains P (f a)) ->
  maintains P (bind m f).
Proof.
  intros Hm Hf w H. pose proof (Hm w H) as H1. unfold bind.
  destruct (m w) as [[a|e] w1] eqn:Em; [|exact H1].
  apply (Hf a w H); [|exact H1]. now rewrite Em.
Qed.

Section Scheduled.
Variable E : Env.

(** Writes that do not touch the appointment store. *)
Ltac still_scheduled :=
  intros; unfold scheduled_only in *; cbn in *; try assumption.

Lemma scheduled_insert w key ttl a :
  scheduled_only w -> status a = "scheduled" ->
  scheduled_only (set_redis (set_appt_store (<[key := (ttl, a)]> (appt_store (redis w))) (redis w)) w).
Proof.
  intros H Ha key' ttl' a' Hl. cbn in Hl.
  apply lookup_insert_Some in Hl as [[_ Heq] | [_ Hl]].
  - injection Heq as _ <-. exact Ha.
  - exact (H _ _ _ Hl).
Qed.

Lemma scheduleAppointment_scheduled name slot loc :
  maintains scheduled_only (scheduleAppointment E name slot loc).
Proof.
  unfold scheduleAppointment, now_iso, redis_setex, redis_sadd.
  assert (Hg : maintains scheduled_only (generateApptId E))
    by (apply generateApptId_maintains; still_scheduled).
  frame; try solve [still_scheduled].
  cbn [ns_write ns_read appt_ns snd]. now apply scheduled_insert.
Qed.

Lemma rescheduleAppointment_scheduled apptId newSlot :
  maintains scheduled_only (rescheduleAppointment E apptId newSlot).
Proof.
  unfold rescheduleAppointment. apply maintains_try_catch; [|frame].
  apply maintains_bind_from; [unfold redis_get; frame; still_scheduled|].
  intros apptData w Hw Hread.
  assert (Hs : forall a, apptData = Some a -> status a = "scheduled").
  { intros a ->. unfold redis_get, redis_command in Hread.
    destruct (redis_fault E _ _ _); [discriminate|]. cbn in Hread.
    destruct (appt_store (redis w) !! _) as [[ttl a']|] eqn:Hl; [|discriminate].
    cbn in Hread. injection Hread as ->. exact (Hw _ _ _ Hl). }
  unfold now_iso, redis_setex. frame; try solve [still_scheduled].
  cbn [ns_write ns_read appt_ns snd]. apply scheduled_insert; [assumption|].
  cbn. now apply Hs.
Qed.

Lemma scheduled_delete w key :
  scheduled_only w ->
  scheduled_only (set_redis (set_appt_store (delete key (appt_store (redis w))) (redis w)) w).
Proof.
  intros H key' ttl' a' Hl. cbn in Hl.
  apply lookup_delete_Some in Hl as [_ Hl]. exact (H _ _ _ Hl).
Qed.

Lemma cancelAppointment_scheduled apptId :
  maintains scheduled_only (cancelAppointment E apptId).
Proof.
  unfold cancelAppointment, redis_get, redis_srem, redis_del.
  frame; try solve [still_scheduled].
  cbn [ns_write ns_read appt_ns snd]. now apply scheduled_delete.
Qed.

Lemma scheduled_delete_keys w keys :
  scheduled_only w ->
  scheduled_only
    (set_redis (set_appt_store (foldr delete (appt_store (redis w)) keys) (redis w)) w).
Proof.
  intros H key' ttl' a' Hl. cbn in Hl.
  destruct (in_dec string_dec key' keys) as [Hin | Hout].
  - rewrite lookup_delete_keys_in in Hl by exact Hin. discriminate.
  - rewrite lookup_delete_keys_out in Hl by exact Hout. exact (H _ _ _ Hl).
Qed.

Lemma deleteAllAppointments_scheduled :
  maintains scheduled_only (deleteAllAppointments E).
Proof.
  unfold deleteAllAppointments, redis_smembers, redis_del_keys, redis_del_index.
  frame; try solve [still_scheduled].
  cbn [ns_write ns_read appt_ns snd]. now apply scheduled_delete_keys.
Qed.

Hint Resolve scheduleAppointment_scheduled rescheduleAppointment_scheduled : frame.

Lemma orchestrate_scheduled sessionId message :
  maintains scheduled_only (orchestrate E sessionId message).
Proof.
  unfold orchestrate, orchestrate_with, handleDualIntent, dual_branches,
    handleKnowledge, handleSchedule, handleReschedule,
    dual_knowledge_branch, dual_schedule_branch, respond, push_step,
    getKnowledgeAnswer, findBestSentence, generateEmbeddings, searchDocuments,
    getCachedResults, setCachedResults, bm25Search, vectorSearch, generateEmbedding,
    getCachedEmbedding, embedding_after_probe, setCachedEmbedding,
    getLastAppt, setLastAppt, detectIntent, predict, now_iso, redis_get, redis_setex.
  frame; solve [still_scheduled].
Qed.

(** X9. Nothing ever stores an appointment in another state than scheduled:
    booking, rescheduling, cancelling, deleting and whole chat turns keep
    every stored record in that state, whatever fails on the way, and so
    is every record read back. *)
Theorem appointments_stay_scheduled (w : World) :
  scheduled_only w ->
  (forall name slot loc, scheduled_only (snd (scheduleAppointment E name slot loc w)))
  /\ (forall apptId newSlot, scheduled_only (snd (rescheduleAppointment E apptId newSlot w)))
  /\ (forall apptId, scheduled_only (snd (cancelAppointment E apptId w)))
  /\ scheduled_only (snd (deleteAllAppointments E w))
  /\ (forall sessionId message, scheduled_only (snd (orchestrate E sessionId message w)))
  /\ (forall apptId a, fst (getAppointment E apptId w) = Ok (Some a) -> status a = "scheduled").
Proof.
  intros H. repeat split.
  - intros. now apply scheduleAppointment_scheduled.
  - intros. now apply rescheduleAppointment_scheduled.
  - intros. now apply cancelAppointment_scheduled.
  - now apply deleteAllAppointments_scheduled.
  - intros. now apply orchestrate_scheduled.
  - intros apptId a Hread. unfold getAppointment, try_catch, redis_get, redis_command in Hread.
    destruct (redis_fault E _ _ _); [discriminate|]. cbn in Hread.
    destruct (appt_store (redis w) !! _) as [[ttl a']|] eqn:Hl; [|discriminate].
    cbn in Hread. injection Hread as ->. exact (H _ _ _ Hl).
Qed.

End Scheduled.

Section Caches.
Variable E : Env.

Ltac untouched :=
  intros; unfold reads, beside_embeddings in *; cbn in *; try assumption.

Lemma generateEmbedding_beside x text0 :
  maintains (reads beside_embeddings x) (generateEmbedding E text0).
Proof.
  unfold generateEmbedding, getCachedEmbedding, embedding_after_probe, setCachedEmbedding,
    redis_get, redis_setex.
  frame; solve [untouched].
Qed.

Lemma vectorSearch_beside x query limit :
  maintains (reads beside_embeddings x) (vectorSearch E query limit).
Proof.
  unfold vectorSearch. pose proof (generateEmbedding_beside x query). frame.
Qed.

Lemma findBestSentence_beside x query text0 :
  maintains (reads beside_embeddings x) (findBestSentence E query text0).
Proof.
  unfold findBestSentence, generateEmbeddings, getCachedEmbedding, embedding_after_probe,
    setCachedEmbedding, redis_get, redis_setex.
  frame; solve [untouched].
Qed.

(** [findBestSentence] never rejects. *)
Lemma findBestSentence_total query text0 w :
  exists s w', findBestSentence E query text0 w = (Ok s, w').
Proof.
  unfold findBestSentence, try_catch.
  match goal with |- context [match ?m w with _ => _ end] => destruct (m w) as [[s|e] w1] end;
    unfold ret; eauto.
Qed.

End Caches.

Section Base64.
Import JsString.

Lemma slice_to_chars n s :
  list_ascii_of_string (slice_to n s) = firstn n (list_ascii_of_string s).
Proof.
  revert s. induction n as [|n IH]; intros [|c s]; try reflexivity.
  cbn. now rewrite IH.
Qed.

Lemma length_chars s : length (list_ascii_of_string s) = String.length s.
Proof. induction s as [|c s IH]; [reflexivity|]. cbn. now rewrite IH. Qed.

(** Three bytes give four characters: a prefix of the encoding is the
    encoding of a prefix. *)
Lemma base64_bytes_prefix k : forall l,
  (3 * k <= length l)%nat ->
  slice_to (4 * k) (Js.base64_bytes l) = Js.base64_bytes (firstn (3 * k) l).
Proof.
  induction k as [|k IH]; intros l Hl.
  - destruct l as [|a [|b [|c l]]]; reflexivity.
  - destruct l as [|a [|b [|c l]]]; cbn [length] in Hl; try lia.
    replace (4 * S k)%nat with (S (S (S (S (4 * k))))) by lia.
    replace (3 * S k)%nat with (S (S (S (3 * k)))) by lia.
    cbn [firstn Js.base64_bytes slice_to]. rewrite IH by lia. reflexivity.
Qed.

(** The first 100 characters of the encoding of a text of 75 bytes or more
    encode its first 75 bytes. *)
Lemma base64_slice_100 s :
  (75 <= String.length s)%nat ->
  slice_to 100 (Js.base64 s) = Js.base64 (slice_to 75 s).
Proof.
  intros Hs. unfold Js.base64. rewrite slice_to_chars, <- firstn_map.
  apply (base64_bytes_prefix 25). rewrite length_map, length_chars. exact Hs.
Qed.

Lemma same_cache_key (t1 t2 : string) :
  t2 = t1
  \/ ((75 <= String.length t1)%nat /\ (75 <= String.length t2)%nat
      /\ slice_to 75 t2 = slice_to 75 t1) ->
  slice_to 100 (Js.base64 t2) = slice_to 100 (Js.base64 t1).
Proof.
  intros [-> | (H1 & H2 & H)]; [reflexivity|].
  now rewrite !base64_slice_100, H by assumption.
Qed.

Lemma startsWith_append p s : startsWith p (p +:+ s) = true.
Proof.
  induction p as [|c p IH]; [reflexivity|].
  rewrite append_cons. cbn [startsWith]. now rewrite Ascii.eqb_refl, IH.
Qed.
End Base64.

Section WarmCaches.
Variable E : Env.
Hypothesis Hup : redis_up E.

Ltac run :=
  repeat progress
    (unfold bind, ret, gets, modify, try_catch, throw, of_outcome, now_iso, date_now,
       redis_get, redis_setex, redis_del, redis_del_keys, redis_keys;
     cbn beta iota zeta; rewrite ?(redis_command_up E Hup); cbn [fst snd]).

Lemma getCachedResults_up query w :
  getCachedResults E query w
  = (Ok (snd <$> query_cache (redis w) !! query_key query), after_command w).
Proof. unfold getCachedResults. run. reflexivity. Qed.

(** A hit of the [query:] cache is all a search does. *)
Lemma searchDocuments_hit query limit results w :
  snd <$> query_cache (redis w) !! query_key query = Some results ->
  searchDocuments E query limit w = (Ok results, after_command w).
Proof.
  intros Hhit. unfold searchDocuments, try_catch. unfold bind at 1.
  rewrite getCachedResults_up, Hhit. reflexivity.
Qed.

Lemma setCachedResults_up query results w :
  setCachedResults E query results w
  = (Ok tt,
     set_redis
       (set_query_cache (<[query_key query := (30%N, results)]> (query_cache (redis w)))
          (set_redis_ops (S (redis_ops (redis w))) (redis w))) w).
Proof. unfold setCachedResults. run. reflexivity. Qed.

(** What a search leaves behind: its results under the key of the query,
    and the answers, sessions and appointments as they were. *)
Lemma searchDocuments_up query limit w :
  exists results w1,
    searchDocuments E query limit w = (Ok results, w1)
    /\ snd <$> query_cache (redis w1) !! query_key query = Some results
    /\ knowledge_cache (redis w1) = knowledge_cache (redis w).
Proof.
  destruct (query_cache (redis w) !! query_key query) as [[ttl hits]|] eqn:Hq.
  - exists hits. eexists. split; [apply searchDocuments_hit; now rewrite Hq|].
    cbn. rewrite Hq. split; reflexivity.
  - unfold searchDocuments, try_catch. unfold bind at 1.
    rewrite getCachedResults_up, Hq. cbn [fmap option_fmap option_map].
    unfold bind at 1. rewrite bm25Search_runs.
    destruct (vectorSearch_total E query 8 (after_command w)) as (dense & wv & Hv).
    pose proof (vectorSearch_beside E (beside_embeddings (after_command w)) query 8
                  (after_command w) eq_refl) as Hb.
    rewrite Hv in Hb. cbn [snd] in Hb. unfold reads, beside_embeddings in Hb.
    injection Hb as Hb1 Hb2 _ _ _ _ _ _ _ _.
    unfold bind at 1. rewrite Hv. unfold bind at 1. unfold try_catch.
    rewrite setCachedResults_up. unfold bind, ret.
    eexists. eexists. split; [reflexivity|]. cbn.
    rewrite lookup_insert_eq. split; [reflexivity|]. exact Hb2.
Qed.

Lemma getKnowledgeAnswer_hit message a w :
  snd <$> knowledge_cache (redis w) !! knowledge_key message = Some a ->
  getKnowledgeAnswer E message w = (Ok a, after_command w).
Proof.
  intros Hhit. unfold getKnowledgeAnswer. run.
  cbn [ns_read knowledge_ns knowledge_cache set_redis_ops].
  fold (knowledge_key message). rewrite Hhit. reflexivity.
Qed.

(** The answer to a message with nothing cached under its key, when the
    results of its search are cached and empty. *)
Lemma getKnowledgeAnswer_nothing message w :
  knowledge_cache (redis w) !! knowledge_key message = None ->
  snd <$> query_cache (redis w) !! query_key message = Some [] ->
  getKnowledgeAnswer E message w = (Ok no_information, after_command (after_command w)).
Proof.
  intros Hk Hq. unfold getKnowledgeAnswer, try_catch. unfold bind at 1.
  unfold redis_get. rewrite (redis_command_up E Hup).
  cbn [fst snd ns_read knowledge_ns knowledge_cache set_redis_ops].
  fold (knowledge_key message). rewrite Hk. cbn [fmap option_fmap option_map].
  unfold bind at 1. rewrite (searchDocuments_hit message 3 []) by exact Hq.
  reflexivity.
Qed.

(** What an answer leaves behind: either the answer under the key of the
    message, or, for the no-information answer, nothing under that key and
    the empty results under the key of the query. *)
Lemma getKnowledgeAnswer_up message w :
  exists a w1,
    getKnowledgeAnswer E message w = (Ok a, w1)
    /\ (snd <$> knowledge_cache (redis w1) !! knowledge_key message = Some a
        \/ (a = no_information
            /\ knowledge_cache (redis w1) !! knowledge_key message = None
            /\ snd <$> query_cache (redis w1) !! query_key message = Some [])).
Proof.
  destruct (knowledge_cache (redis w) !! knowledge_key message) as [[ttl a]|] eqn:Hk.
  - exists a. eexists. split; [apply getKnowledgeAnswer_hit; now rewrite Hk|].
    left. cbn. now rewrite Hk.
  - unfold getKnowledgeAnswer, try_catch. unfold bind at 1.
    unfold redis_get at 1. rewrite (redis_command_up E Hup).
    cbn [fst snd ns_read knowledge_ns knowledge_cache set_redis_ops].
    fold (knowledge_key message). rewrite Hk. cbn [fmap option_fmap option_map].
    fold (after_command w).
    destruct (searchDocuments_up message 3 (after_command w)) as (docs & ws & Hs & Hq & Hkk).
    unfold bind at 1. rewrite Hs.
    destruct docs as [|topDoc docs].
    + unfold ret. eexists. eexists. split; [reflexivity|]. right.
      split; [reflexivity|]. split; [|exact Hq]. rewrite Hkk. exact Hk.
    + destruct (findBestSentence_total E message (text (payload topDoc)) ws) as (s & wf & Hf).
      unfold bind at 1. rewrite Hf. run.
      eexists. eexists. split; [reflexivity|]. left. cbn.
      fold (knowledge_key message). rewrite lookup_insert_eq. reflexivity.
Qed.

End WarmCaches.

(** X10. An answer is repeated as long as the cache entries it left are
    there: a second call for the same message returns it whatever the
    providers and the index have become, the no-information answer
    included. *)
Theorem answers_repeat_while_cached (E E' : Env) (message : string) (a : Answer)
    (w w1 w2 : World) :
  redis_up E -> redis_up E' ->
  getKnowledgeAnswer E message w = (Ok a, w1) ->
  knowledge_cache (redis w2) = knowledge_cache (redis w1) ->
  query_cache (redis w2) = query_cache (redis w1) ->
  exists w3, getKnowledgeAnswer E' message w2 = (Ok a, w3).
Proof.
  intros Hup Hup' Hrun Hk Hq.
  destruct (getKnowledgeAnswer_up E Hup message w) as (a' & w1' & Hrun' & Hleft).
  rewrite Hrun in Hrun'. injection Hrun' as <- <-.
  rewrite <- Hk, <- Hq in Hleft. destruct Hleft as [Hhit | (-> & Hnone & Hempty)].
  - eexists. now apply getKnowledgeAnswer_hit.
  - eexists. now apply getKnowledgeAnswer_nothing.
Qed.

(** X11. The results of a search are cached under the query alone: while the
    entry is there, a second search for the query returns them with one
    Redis read, whatever limit it asks for. *)
Theorem cached_results_ignore_the_limit (E E' : Env) (query : string) (limit limit' : nat)
    (results : list Hit) (w w1 w2 : World) :
  redis_up E -> redis_up E' ->
  searchDocuments E query limit w = (Ok results, w1) ->
  query_cache (redis w2) = query_cache (redis w1) ->
  searchDocuments E' query limit' w2 = (Ok results, after_command w2).
Proof.
  intros Hup Hup' Hrun Hq.
  destruct (searchDocuments_up E Hup query limit w) as (r & w1' & Hrun' & Hleft & _).
  rewrite Hrun in Hrun'. injection Hrun' as <- <-.
  apply searchDocuments_hit; [exact Hup'|]. now rewrite Hq.
Qed.

(** X12. The key of the [knowledge:] cache is cut after 100 characters, which
    encode 75 bytes of the message: a message that shares its first 75
    bytes with one that was answered with citations is given that answer. *)
Theorem long_messages_share_an_answer (E E' : Env) (m1 m2 : string) (a : Answer)
    (w w1 w2 : World) :
  redis_up E -> redis_up E' ->
  (75 <= String.length m1)%nat -> (75 <= String.length m2)%nat ->
  JsString.slice_to 75 m2 = JsString.slice_to 75 m1 ->
  getKnowledgeAnswer E m1 w = (Ok a, w1) ->
  answer_citations a <> [] ->
  knowledge_cache (redis w2) = knowledge_cache (redis w1) ->
  getKnowledgeAnswer E' m2 w2 = (Ok a, after_command w2).
Proof.
  intros Hup Hup' H1 H2 Hsame Hrun Hcited Hk.
  destruct (getKnowledgeAnswer_up E Hup m1 w) as (a' & w1' & Hrun' & Hleft).
  rewrite Hrun in Hrun'. injection Hrun' as <- <-.
  destruct Hleft as [Hhit | (-> & _)]; [|now destruct Hcited].
  apply getKnowledgeAnswer_hit; [exact Hup'|].
  unfold knowledge_key. rewrite (same_cache_key m1 m2) by auto.
  rewrite Hk. exact Hhit.
Qed.

Section Embeddings.
Variable E : Env.
Hypothesis Hup : redis_up E.

Lemma generateEmbedding_hit text0 e w :
  snd <$> emb_cache (redis w) !! emb_key text0 = Some e ->
  generateEmbedding E text0 w = (Ok e, after_command w).
Proof.
  intros Hhit. unfold generateEmbedding, getCachedEmbedding, try_catch, redis_get.
  unfold bind at 1. rewrite (redis_command_up E Hup).
  cbn [fst snd ns_read emb_ns emb_cache set_redis_ops]. fold (emb_key text0).
  rewrite Hhit. reflexivity.
Qed.

(** An embedding that was returned is in the cache. *)
Lemma generateEmbedding_caches text0 e w w1 :
  generateEmbedding E text0 w = (Ok e, w1) ->
  snd <$> emb_cache (redis w1) !! emb_key text0 = Some e.
Proof.
  unfold generateEmbedding, getCachedEmbedding, try_catch, redis_get.
  unfold bind at 1. rewrite (redis_command_up E Hup).
  cbn [fst snd ns_read emb_ns emb_cache set_redis_ops]. fold (emb_key text0).
  destruct (emb_cache (redis w) !! emb_key text0) as [[ttl e']|] eqn:Hc;
    cbn [fmap option_fmap option_map embedding_after_probe].
  - unfold ret. intros H. injection H as <- <-. cbn. now rewrite Hc.
  - unfold bind at 1, of_outcome. destruct (openai_embedding E text0) as [e'|msg].
    + unfold setCachedEmbedding, redis_setex, try_catch, bind.
      rewrite (redis_command_up E Hup). cbn [fst snd]. unfold ret.
      intros H. injection H as <- <-. cbn. fold (emb_key text0).
      now rewrite lookup_insert_eq.
    + unfold throw. discriminate.
Qed.
End Embeddings.

(** X13. The key of the [emb:] cache is cut after 100 characters, which encode
    75 bytes of the text: once a text has an embedding, the same text, and
    every text that shares its first 75 bytes, is given that embedding
    from the cache, without a call to the provider. *)
Theorem long_texts_share_an_embedding (E E' : Env) (t1 t2 : string) (e : list Q)
    (w w1 w2 : World) :
  redis_up E -> redis_up E' ->
  t2 = t1
  \/ ((75 <= String.length t1)%nat /\ (75 <= String.length t2)%nat
      /\ JsString.slice_to 75 t2 = JsString.slice_to 75 t1) ->
  generateEmbedding E t1 w = (Ok e, w1) ->
  emb_cache (redis w2) = emb_cache (redis w1) ->
  generateEmbedding E' t2 w2 = (Ok e, after_command w2).
Proof.
  intros Hup Hup' Hsame Hrun Hc.
  apply generateEmbedding_hit; [exact Hup'|].
  unfold emb_key. rewrite (same_cache_key t1 t2 Hsame), Hc.
  exact (generateEmbedding_caches E Hup t1 e w w1 Hrun).
Qed.

Section Keys.
Context {V : Type}.

Lemma in_keys_of prefix (m : gmap string V) k :
  In k (keys_of prefix m) <-> is_Some (m !! k) /\ JsString.startsWith prefix k = true.
Proof.
  unfold keys_of. rewrite filter_In, in_map_iff. split.
  - intros [([k' v] & <- & Hin) Hp]. split; [|exact Hp].
    apply list_elem_of_In, elem_of_map_to_list in Hin. cbn. eauto.
  - intros [[v Hv] Hp]. split; [|exact Hp]. exists (k, v). split; [reflexivity|].
    apply list_elem_of_In, elem_of_map_to_list. exact Hv.
Qed.

(** Once the keys of a prefix are deleted, no key of the prefix is left. *)
Lemma lookup_cleared prefix (m : gmap string V) k :
  JsString.startsWith prefix k = true ->
  foldr delete m (keys_of prefix m) !! k = None.
Proof.
  intros Hp. destruct (in_dec string_dec k (keys_of prefix m)) as [Hin | Hout].
  - now apply lookup_delete_keys_in.
  - rewrite lookup_delete_keys_out by exact Hout.
    destruct (m !! k) eqn:Hk; [|reflexivity].
    exfalso. apply Hout, in_keys_of. split; [eauto|exact Hp].
Qed.

Lemma keys_of_cleared prefix (m : gmap string V) :
  keys_of prefix (foldr delete m (keys_of prefix m)) = [].
Proof.
  destruct (keys_of prefix (foldr delete m (keys_of prefix m))) as [|k l] eqn:Hl; [reflexivity|].
  assert (Hin : In k (keys_of prefix (foldr delete m (keys_of prefix m))))
    by (rewrite Hl; now left).
  apply in_keys_of in Hin as [[v Hv] Hp].
  rewrite lookup_cleared in Hv by exact Hp. discriminate.
Qed.
End Keys.

Section Sessions.
Variable E : Env.
Hypothesis Hup : redis_up E.

Ltac run :=
  repeat progress
    (unfold bind, ret, gets, modify, try_catch, throw, of_outcome, now_iso, date_now,
       redis_get, redis_setex, redis_del, redis_del_keys, redis_keys;
     cbn beta iota zeta; rewrite ?(redis_command_up E Hup); cbn [fst snd]).

Lemma getLastAppt_up sessionId w :
  getLastAppt E sessionId w
  = (Ok (memory_store (redis w) !! ("memory:" +:+ sessionId) ≫= (last_appt ∘ snd)),
     after_command w).
Proof.
  unfold getLastAppt. run. cbn [ns_read memory_ns memory_store set_redis_ops].
  destruct (memory_store (redis w) !! _) as [[ttl s]|]; reflexivity.
Qed.

Lemma getSession_up sessionId w :
  getSession E sessionId w
  = (Ok (default empty_session (snd <$> memory_store (redis w) !! ("memory:" +:+ sessionId))),
     after_command w).
Proof.
  unfold getSession. run. cbn [ns_read memory_ns memory_store set_redis_ops].
  destruct (memory_store (redis w) !! _) as [[ttl s]|]; reflexivity.
Qed.

Lemma setLastAppt_up sessionId p slot loc apptId w :
  setLastAppt E sessionId p slot loc apptId w
  = (Ok tt,
     set_redis
       (set_memory_store
          (<["memory:" +:+ sessionId :=
               (1800%N,
                {| last_appt :=
                     Some {| last_patient := p; last_slot := slot; last_location := loc;
                             last_appt_id := apptId;
                             last_timestamp :=
                               Date_toISOString E (Z.of_N (Date_now E (clock_reads w))) |} |})]>
             (memory_store (redis w)))
          (set_redis_ops (2 + redis_ops (redis w)) (redis w)))
       (set_clock_reads (S (clock_reads w)) w)).
Proof. unfold setLastAppt. run. reflexivity. Qed.

(** X14. What [setLastAppt] saves for a session is what [getLastAppt] and
    [getSession] give back for it, stamped with the time of the write;
    other sessions are not touched, and [clearSession] forgets it. *)
Theorem last_appointment_is_remembered (sessionId p slot loc apptId : string) (w : World) :
  exists w1,
    let saved :=
      {| last_patient := p; last_slot := slot; last_location := loc; last_appt_id := apptId;
         last_timestamp := Date_toISOString E (Z.of_N (Date_now E (clock_reads w))) |} in
    setLastAppt E sessionId p slot loc apptId w = (Ok tt, w1)
    /\ getLastAppt E sessionId w1 = (Ok (Some saved), after_command w1)
    /\ getSession E sessionId w1 = (Ok {| last_appt := Some saved |}, after_command w1)
    /\ (forall other, other <> sessionId ->
          fst (getLastAppt E other w1) = fst (getLastAppt E other w))
    /\ appt_store (redis w1) = appt_store (redis w)
    /\ exists w2,
         clearSession E sessionId w1 = (Ok tt, w2)
         /\ getLastAppt E sessionId w2 = (Ok None, after_command w2).
Proof.
  eexists. cbv zeta. split; [apply setLastAppt_up|].
  split; [|split; [|split; [|split]]].
  - rewrite getLastAppt_up. cbn. rewrite lookup_insert_eq. reflexivity.
  - rewrite getSession_up. cbn. rewrite lookup_insert_eq. reflexivity.
  - intros other Hne. rewrite !getLastAppt_up. cbn.
    rewrite lookup_insert_ne; [reflexivity|].
    intros Heq. apply (inj (String.append "memory:")) in Heq. congruence.
  - reflexivity.
  - eexists. split.
    + unfold clearSession. run. reflexivity.
    + rewrite getLastAppt_up. cbn. rewrite lookup_delete_eq. reflexivity.
Qed.

(** *** Clearing *)

Lemma clearCache_up (w : World) :
  exists w1,
    clearCache E w = (Ok tt, w1)
    /\ knowledge_cache (redis w1)
       = foldr delete (knowledge_cache (redis w)) (keys_of "knowledge:" (knowledge_cache (redis w)))
    /\ memory_store (redis w1) = memory_store (redis w)
    /\ query_cache (redis w1) = query_cache (redis w)
    /\ emb_cache (redis w1) = emb_cache (redis w)
    /\ appt_store (redis w1) = appt_store (redis w)
    /\ appts_all (redis w1) = appts_all (redis w).
Proof.
  unfold clearCache. run. cbn [ns_read ns_prefix knowledge_ns knowledge_cache set_redis_ops].
  fold (keys_of "knowledge:" (knowledge_cache (redis w))).
  destruct (keys_of "knowledge:" (knowledge_cache (redis w))) as [|k l] eqn:Hk.
  - eexists. split; [reflexivity|]. cbn. auto 10.
  - cbn [length Nat.ltb Nat.leb]. run. eexists. split; [reflexivity|]. cbn. auto 10.
Qed.

Lemma clearAll_up (w : World) :
  exists w1,
    clearAll E w = (Ok tt, w1)
    /\ memory_store (redis w1)
       = foldr delete (memory_store (redis w)) (keys_of "memory:" (memory_store (redis w)))
    /\ knowledge_cache (redis w1) = knowledge_cache (redis w)
    /\ query_cache (redis w1) = query_cache (redis w)
    /\ emb_cache (redis w1) = emb_cache (redis w)
    /\ appt_store (redis w1) = appt_store (redis w)
    /\ appts_all (redis w1) = appts_all (redis w).
Proof.
  unfold clearAll. run. cbn [ns_read ns_prefix memory_ns memory_store set_redis_ops].
  fold (keys_of "memory:" (memory_store (redis w))).
  destruct (keys_of "memory:" (memory_store (redis w))) as [|k l] eqn:Hk.
  - eexists. split; [reflexivity|]. cbn. auto 10.
  - cbn [length Nat.ltb Nat.leb]. run. eexists. split; [reflexivity|]. cbn. auto 10.
Qed.

Lemma getCacheStats_up w :
  getCacheStats E w
  = (Ok (length (keys_of "knowledge:" (knowledge_cache (redis w)))), after_command w).
Proof. unfold getCacheStats. run. reflexivity. Qed.

Lemma getSessionCount_up w :
  getSessionCount E w
  = (Ok (length (keys_of "memory:" (memory_store (redis w)))), after_command w).
Proof. unfold getSessionCount. run. reflexivity. Qed.

(** X15. Clearing all caches, as [DELETE /cache/clear] does, empties the
    [knowledge:] and [memory:] namespaces: no answer and no session is
    left. The cached search results, the cached embeddings and the
    appointments stay. *)
Theorem clearing_caches_spares_results_and_embeddings (w : World) :
  exists w1,
    clear_caches E w = (Ok tt, w1)
    /\ (forall message, knowledge_cache (redis w1) !! knowledge_key message = None)
    /\ (forall sessionId, getLastAppt E sessionId w1 = (Ok None, after_command w1))
    /\ getCacheStats E w1 = (Ok 0%nat, after_command w1)
    /\ getSessionCount E w1 = (Ok 0%nat, after_command w1)
    /\ query_cache (redis w1) = query_cache (redis w)
    /\ emb_cache (redis w1) = emb_cache (redis w)
    /\ appt_store (redis w1) = appt_store (redis w)
    /\ appts_all (redis w1) = appts_all (redis w).
Proof.
  destruct (clearCache_up w) as (wa & Ha & Hk & Hm & Hq & He & Hs & Hi).
  destruct (clearAll_up wa) as (wb & Hb & Hm' & Hk' & Hq' & He' & Hs' & Hi').
  exists wb. split.
  { unfold clear_caches, bind. rewrite Ha. exact Hb. }
  split; [|split; [|split; [|split]]].
  - intros message. rewrite Hk', Hk. apply lookup_cleared. apply startsWith_append.
  - intros sessionId. rewrite getLastAppt_up, Hm'.
    rewrite lookup_cleared by apply startsWith_append. reflexivity.
  - rewrite getCacheStats_up, Hk', Hk, keys_of_cleared. reflexivity.
  - rewrite getSessionCount_up, Hm', keys_of_cleared. reflexivity.
  - repeat split; congruence.
Qed.

End Sessions.

(** ** Ingestion *)

Section Ingest.
Variable E : Env.
Variable G : Ingestion.

Lemma foldM_app {A B} (f : B -> A -> M B) l1 l2 : forall b w,
  foldM f (l1 ++ l2) b w = (b' <- foldM f l1 b ;; foldM f l2 b') w.
Proof.
  induction l1 as [|x l1 IH]; intros b w; cbn [foldM app]; [reflexivity|].
  unfold bind. destruct (f b x w) as [[b'|e] w1]; [|reflexivity].
  rewrite IH. reflexivity.
Qed.

(** A loop within a loop is one loop over the pairs. *)
Lemma foldM_nested {A B C} (g : A -> C -> B -> M C) (h : A -> list B) l : forall c w,
  foldM (fun c a => foldM (g a) (h a) c) l c w
  = foldM (fun c ab => g (fst ab) c (snd ab)) (flat_map (fun a => map (pair a) (h a)) l) c w.
Proof.
  induction l as [|a l IH]; intros c w; cbn [foldM flat_map]; [reflexivity|].
  rewrite foldM_app. unfold bind.
  assert (Hin : forall c w, foldM (g a) (h a) c w
                = foldM (fun c ab => g (fst ab) c (snd ab)) (map (pair a) (h a)) c w).
  { clear. induction (h a) as [|b l IH]; intros c w; cbn [foldM map]; [reflexivity|].
    unfold bind. cbn [fst snd]. destruct (g a c b w) as [[c'|e] w1]; [apply IH|reflexivity]. }
  rewrite Hin. destruct (foldM _ (map (pair a) (h a)) c w) as [[c'|e] w1]; [apply IH|reflexivity].
Qed.

Lemma ensureCollection_ready w : collection_ready G -> ensureCollection G w = (Ok tt, w).
Proof.
  intros (collections & Hc & Hready). unfold ensureCollection, try_catch, bind, of_outcome.
  rewrite Hc. destruct (existsb _ collections); [reflexivity|].
  destruct Hready as [? | ->]; [discriminate|reflexivity].
Qed.

Lemma upsertDocuments_planned documents w :
  collection_ready G ->
  upsertDocuments E G documents w
  = match foldM (upsert_step E G) (planned documents) ([], 0%nat) (set_index [] ∅ w) with
    | (Ok st, w1) =>
        match qdrant_upsert G collectionName (fst st) with
        | Ok _ => (Ok (snd st), w1)
        | Throw e => (Throw e, w1)
        end
    | (Throw e, w1) => (Throw e, w1)
    end.
Proof.
  intros Hready. unfold upsertDocuments, try_catch. unfold bind at 1.
  rewrite (ensureCollection_ready w Hready). unfold bind at 1, modify.
  unfold bind at 1. unfold upsert_document. rewrite foldM_nested.
  fold (upsert_step E G). fold (planned documents).
  destruct (foldM (upsert_step E G) (planned documents) ([], 0%nat) (set_index [] ∅ w))
    as [[st|e] w1]; [|reflexivity].
  unfold bind, of_outcome, ret, throw. destruct (qdrant_upsert G _ _); reflexivity.
Qed.

Lemma upsert_step_runs points n item w :
  upsert_step E G (points, n) item w
  = match generateEmbedding E (snd (snd item)) w with
    | (Ok embedding, w1) =>
        (Ok (points ++ [ {| point_uuid := uuidv4 G n; vector := embedding;
                            point_payload :=
                              {| text := snd (snd item); doc_id := document_id (fst item);
                                 chunk_index := fst (snd item);
                                 tags := Some (default [] (document_tags (fst item))) |} |} ],
             S n),
         set_index (tfidf_documents w1 ++ [snd (snd item)])
           (<[n := entry_of G n item]> (documentMap w1)) w1)
    | (Throw e, w1) => (Throw e, w1)
    end.
Proof.
  destruct item as [doc [i chunk]]. unfold upsert_step, upsert_chunk. cbn [fst snd].
  unfold bind at 1. destruct (generateEmbedding E chunk w) as [[embedding|e] w1]; reflexivity.
Qed.

(** An embedding changes neither the lexical index nor its map. *)
Lemma generateEmbedding_index text0 w :
  tfidf_documents (snd (generateEmbedding E text0 w)) = tfidf_documents w
  /\ documentMap (snd (generateEmbedding E text0 w)) = documentMap w.
Proof.
  pose proof (generateEmbedding_beside E (beside_embeddings w) text0 w eq_refl) as H.
  unfold reads, beside_embeddings in H. injection H as _ _ _ _ _ _ _ H1 H2 _. auto.
Qed.

Lemma aligned_step w n chunk e :
  index_aligned w -> length (tfidf_documents w) = n -> entry_text e = chunk ->
  index_aligned (set_index (tfidf_documents w ++ [chunk]) (<[n := e]> (documentMap w)) w).
Proof.
  intros Ha Hn He i. cbn. destruct (decide (n = i)) as [<- | Hne].
  - rewrite lookup_insert_eq. cbn. rewrite He.
    symmetry. rewrite <- Hn. apply list_lookup_middle. reflexivity.
  - rewrite lookup_insert_ne by exact Hne. rewrite Ha.
    destruct (Nat.lt_ge_cases i n) as [Hlt | Hge].
    + now rewrite lookup_app_l by lia.
    + rewrite lookup_ge_None_2 by lia. symmetry. apply lookup_ge_None_2.
      rewrite length_app. cbn. lia.
Qed.

Lemma upsert_loop_aligned items : forall points n w,
  index_aligned w -> length (tfidf_documents w) = n ->
  index_aligned (snd (foldM (upsert_step E G) items (points, n) w)).
Proof.
  induction items as [|item items IH]; intros points n w Ha Hn; [exact Ha|].
  cbn [foldM]. unfold bind. rewrite upsert_step_runs.
  destruct (generateEmbedding_index (snd (snd item)) w) as [Hd Hm].
  destruct (generateEmbedding E (snd (snd item)) w) as [[embedding|e] w1]; cbn [snd] in Hd, Hm.
  - apply IH.
    + apply aligned_step; [|congruence|reflexivity].
      intros i. rewrite Hd, Hm. apply Ha.
    + cbn. rewrite length_app, Hd. cbn. lia.
  - intros i. cbn. rewrite Hd, Hm. apply Ha.
Qed.

(** X16. However an ingestion ends, the lexical index and its map go together
    afterwards if they did before: a search finds under position [i] the
    text that was scored as document [i]. *)
Theorem ingestion_keeps_the_index_aligned (documents : list Document) (w : World) :
  index_aligned w ->
  index_aligned (snd (upsertDocuments E G documents w)).
Proof.
  intros Ha. unfold upsertDocuments, try_catch. unfold bind at 1.
  destruct (ensureCollection G w) as [[[]|e] w0] eqn:He.
  2:{ unfold ensureCollection, try_catch, bind, of_outcome in He.
      destruct (qdrant_getCollections G); [|injection He as _ <-; exact Ha].
      destruct (existsb _ _); [discriminate|].
      destruct (qdrant_createCollection G _); [discriminate|]. injection He as _ <-. exact Ha. }
  assert (Hw0 : w0 = w).
  { unfold ensureCollection, try_catch, bind, of_outcome in He.
    destruct (qdrant_getCollections G); [|discriminate].
    destruct (existsb _ _); [now injection He|].
    destruct (qdrant_createCollection G _); [now injection He|discriminate]. }
  subst w0. unfold bind at 1, modify. unfold bind at 1.
  unfold upsert_document. rewrite foldM_nested. fold (upsert_step E G). fold (planned documents).
  pose proof (upsert_loop_aligned (planned documents) [] 0%nat (set_index [] ∅ w)) as Hloop.
  destruct (foldM (upsert_step E G) (planned documents) ([], 0%nat) (set_index [] ∅ w))
    as [[st|e] w1]; cbn [snd] in Hloop.
  - unfold bind, of_outcome, ret, throw.
    destruct (qdrant_upsert G _ _); cbn [snd]; apply Hloop; try reflexivity;
      intros i; cbn; now rewrite lookup_empty.
  - cbn [snd]. apply Hloop; [|reflexivity]. intros i. cbn. now rewrite lookup_empty.
Qed.

(** *** An ingestion that succeeds *)

Lemma generateEmbedding_answers text0 w :
  provider_answers E -> exists e w1, generateEmbedding E text0 w = (Ok e, w1).
Proof.
  intros Hp. unfold generateEmbedding, try_catch. unfold bind.
  destruct (getCachedEmbedding E text0 w) as [[[e|]|msg] w1] eqn:Hc; unfold embedding_after_probe.
  - unfold ret. eauto.
  - destruct (Hp text0) as [e He]. unfold bind, of_outcome. rewrite He.
    unfold try_catch. destruct (setCachedEmbedding_swallows E text0 e w1) as [w2 ->].
    unfold ret. eauto.
  - unfold getCachedEmbedding, try_catch in Hc.
    destruct (redis_get E emb_ns _ w) as [[o|m] w']; discriminate.
Qed.

Lemma upsert_loop_builds items : provider_answers E -> forall points n w,
  exists points' w',
    foldM (upsert_step E G) items (points, n) w = (Ok (points', (n + length items)%nat), w')
    /\ tfidf_documents w' = tfidf_documents w ++ map (fun item => snd (snd item)) items
    /\ (forall k, documentMap w' !! k
          = if decide (n <= k < n + length items)%nat
            then entry_of G k <$> items !! (k - n)%nat
            else documentMap w !! k).
Proof.
  intros Hp. induction items as [|item items IH]; intros points n w.
  - exists points, w. cbn [foldM length map]. rewrite Nat.add_0_r, app_nil_r.
    split; [reflexivity|]. split; [reflexivity|].
    intros k. case_decide; [lia|reflexivity].
  - cbn [foldM]. unfold bind. rewrite upsert_step_runs.
    destruct (generateEmbedding_index (snd (snd item)) w) as [Hd Hm].
    destruct (generateEmbedding_answers (snd (snd item)) w Hp) as (e & w1 & He).
    rewrite He in *. cbn [snd] in Hd, Hm.
    match goal with |- context [foldM (upsert_step E G) items (?p, S n) ?w2] =>
      destruct (IH p (S n) w2) as (points' & w' & Hrun & Hdocs & Hmap) end.
    exists points', w'. rewrite Hrun. cbn [length map].
    split; [now replace (n + S (length items))%nat with (S n + length items)%nat by lia|].
    split.
    + rewrite Hdocs. cbn. rewrite Hd, <- app_assoc. reflexivity.
    + intros k. rewrite Hmap. cbn [documentMap set_index].
      destruct (decide (n = k)) as [<- | Hne].
      * rewrite decide_False by lia. rewrite decide_True by lia.
        rewrite lookup_insert_eq, Nat.sub_diag. reflexivity.
      * rewrite lookup_insert_ne by exact Hne. rewrite Hm.
        repeat case_decide; try lia; try reflexivity.
        replace (k - n)%nat with (S (k - S n)) by lia. reflexivity.
Qed.

(** X17. With the collection in place, a provider that answers and an index
    that accepts the points, an ingestion returns the number of chunks of
    all documents and leaves the lexical index rebuilt from nothing: it
    holds the chunks in order, and entry [k] of its map is the [k]-th
    chunk with its document, its number in the document and the
    identifier drawn for it. *)
Theorem ingestion_rebuilds_the_lexical_index (documents : list Document) (w : World) :
  collection_ready G ->
  provider_answers E ->
  (forall points, qdrant_upsert G collectionName points = Ok tt) ->
  exists w',
    upsertDocuments E G documents w = (Ok (length (planned documents)), w')
    /\ tfidf_documents w' = map (fun item => snd (snd item)) (planned documents)
    /\ forall k, documentMap w' !! k = entry_of G k <$> planned documents !! k.
Proof.
  intros Hready Hp Hupsert. rewrite (upsertDocuments_planned documents w Hready).
  destruct (upsert_loop_builds (planned documents) Hp [] 0%nat (set_index [] ∅ w))
    as (points & w' & Hrun & Hdocs & Hmap).
  rewrite Hrun. cbn [fst snd]. rewrite Hupsert. exists w'.
  split; [reflexivity|]. split; [exact Hdocs|].
  intros k. rewrite Hmap. cbn [documentMap set_index]. rewrite lookup_empty, Nat.sub_0_r.
  case_decide; [reflexivity|]. symmetry.
  rewrite lookup_ge_None_2 by lia. reflexivity.
Qed.

(** *** An ingestion that fails *)

Lemma chunkText_cons text0 maxTokens : exists c cs, chunkText text0 maxTokens = c :: cs.
Proof.
  destruct (chunkText_groups text0 maxTokens) as (groups & Hc & Hw & _).
  rewrite Hc. destruct groups as [|g gs]; [|cbn; eauto].
  cbn in Hw. symmetry in Hw. unfold JsString.split_char in Hw.
  destruct (split_char_go_cons " " text0 "") as (y & ys & Hy). congruence.
Qed.

Lemma planned_cons doc documents : exists item items, planned (doc :: documents) = item :: items.
Proof.
  unfold planned. cbn [flat_map].
  destruct (chunkText_cons (document_text doc) 512) as (c & cs & ->). cbn. eauto.
Qed.

(** X18. The index is emptied before the first embedding is asked for: when
    the provider is down and no embedding is cached, an ingestion of at
    least one document rejects and leaves the lexical index empty,
    whatever it held, so that the lexical branch finds nothing. *)
Theorem failed_ingestion_empties_the_lexical_index
    (documents : list Document) (message : string) (w : World) :
  collection_ready G ->
  documents <> [] ->
  (forall t, openai_embedding E t = Throw message) ->
  emb_cache (redis w) = ∅ ->
  exists w',
    upsertDocuments E G documents w = (Throw message, w')
    /\ tfidf_documents w' = []
    /\ documentMap w' = ∅
    /\ forall query limit, bm25Search E query limit w' = (Ok [], w').
Proof.
  intros Hready Hdocs Hdown Hcache. rewrite (upsertDocuments_planned documents w Hready).
  destruct documents as [|doc documents]; [congruence|].
  destruct (planned_cons doc documents) as (item & items & ->).
  cbn [foldM]. unfold bind at 1. rewrite upsert_step_runs.
  assert (Hg : generateEmbedding E (snd (snd item)) (set_index [] ∅ w)
               = (Throw message, after_command (set_index [] ∅ w))).
  { unfold generateEmbedding, try_catch. unfold bind.
    rewrite getCachedEmbedding_miss by (cbn; rewrite Hcache; apply lookup_empty).
    unfold embedding_after_probe, bind, of_outcome, throw. now rewrite Hdown. }
  rewrite Hg. eexists. split; [reflexivity|]. split; [reflexivity|]. split; [reflexivity|].
  intros query limit. reflexivity.
Qed.

End Ingest.

(** ** The lexical branch *)

Section Descending.
Context {A : Type} (key : A -> Q).

Lemma sorted_any (l : list A) : StronglySorted (fun _ _ => True) l.
Proof.
  induction l as [|x l IH]; constructor; [exact IH|].
  apply List.Forall_forall. auto.
Qed.

(** A sort with the comparator [(a, b) => key(b) - key(a)] leaves the keys
    in descending order. *)
Lemma sort_descending (l : list A) :
  StronglySorted (fun a b => (key b <= key a)%Q) (Js.sort (by_key_desc key) l).
Proof.
  pose proof (sort_stable key (fun _ _ => True) l (sorted_any l)) as H.
  induction H as [|x l' Hs IH Hx]; constructor; [exact IH|].
  rewrite List.Forall_forall in Hx |- *. intros y Hy.
  destruct (Hx y Hy) as [Hlt | [Heq _]]; [now apply Qlt_le_weak|].
  rewrite Heq. apply Qle_refl.
Qed.

Lemma sorted_firstn (R : A -> A -> Prop) n (l : list A) :
  StronglySorted R l -> StronglySorted R (firstn n l).
Proof.
  intros H. revert n. induction H as [|x l Hs IH Hx]; intros [|n]; cbn; try constructor.
  - apply IH.
  - rewrite List.Forall_forall in Hx |- *. intros y Hy. apply Hx.
    exact (in_firstn _ _ _ Hy).
Qed.
End Descending.

Section Lexical.
Variable E : Env.

(** X19. [bm25Search] never rejects and changes nothing. It returns at most
    [limit] hits in descending order of score; each has a positive score
    and is built from an entry of [documentMap], without tags. *)
Theorem bm25Search_returns_ranked_entries (query : string) (limit : nat) (w : World) :
  exists hits,
    bm25Search E query limit w = (Ok hits, w)
    /\ (length hits <= limit)%nat
    /\ StronglySorted (fun a b => (score b <= score a)%Q) hits
    /\ (forall h, In h hits ->
          (0 < score h)%Q
          /\ exists i doc,
               documentMap w !! i = Some doc
               /\ point_id h = entry_id doc
               /\ payload h = {| text := entry_text doc; doc_id := entry_doc_id doc;
                                 chunk_index := entry_chunk_index doc; tags := None |})
    /\ (tfidf_documents w = [] -> hits = []).
Proof.
  exists (lexical_results E query limit w). split; [apply bm25Search_runs|].
  unfold lexical_results, bm25Search, try_catch, bind, gets, of_outcome, ret.
  destruct (tfidf_documents w) as [|d docs] eqn:Hdocs.
  { cbn. split; [lia|]. split; [constructor|]. split; [intros h []|reflexivity]. }
  cbn [length Nat.eqb]. destruct (tfidf_tfidfs E _ _) as [measures|e]; cbn [fst].
  2:{ split; [cbn; lia|]. split; [constructor|]. split; [intros h []|discriminate]. }
  split; [unfold Js.slice_to; rewrite length_firstn; lia|].
  split; [apply sorted_firstn, (sort_descending score)|].
  split; [|discriminate].
  intros h Hin. apply in_firstn in Hin.
  apply (Permutation_in _ (sort_perm score _)) in Hin.
  apply in_concat in Hin as (hs & Hhs & Hh).
  apply list_elem_of_In, elem_of_lookup_imap in Hhs as (i & measure & -> & _).
  unfold bm25_collect in Hh.
  destruct (documentMap w !! i) as [doc|] eqn:Hdoc; [|destruct Hh].
  destruct (Js.gt measure 0) eqn:Hpos; [|destruct Hh].
  destruct Hh as [<- | []]. cbn. split; [now apply gt_spec|]. eauto.
Qed.
End Lexical.

(** ** Fusion, whatever the candidate lists *)

Section AnyLists.

Lemma map_set_entry key v (m : Js.omap (V := Q * Hit)) e :
  In e (Js.map_set key v m) -> e = (key, v) \/ In e m.
Proof.
  induction m as [|[k x] m IH]; cbn.
  - intros [<- | []]. now left.
  - destruct (String.eqb_spec key k) as [-> | Hne].
    + intros [<- | H]; [now left | right; now right].
    + intros [<- | H]; [right; now left|].
      destruct (IH H) as [-> | Hin]; [now left | right; now right].
Qed.

Lemma keys_map_set key v (m : Js.omap (V := Q * Hit)) k :
  In k (keys (Js.map_set key v m)) <-> k = key \/ In k (keys m).
Proof.
  induction m as [|[k' x] m IH]; cbn.
  - intuition congruence.
  - destruct (String.eqb_spec key k') as [-> | Hne]; cbn.
    + intuition congruence.
    + unfold keys in IH. rewrite IH. intuition congruence.
Qed.

Lemma map_set_keyed key s h (m : Js.omap (V := Q * Hit)) :
  point_id h = key -> keyed m -> keyed (Js.map_set key (s, h) m).
Proof.
  intros Hh [Hnd Hm]. split.
  - clear Hm. induction m as [|[k x] m IH]; cbn.
    + repeat constructor. intros [].
    + apply List.NoDup_cons_iff in Hnd as [Hk Hnd].
      destruct (String.eqb_spec key k) as [-> | Hne]; cbn.
      * constructor; assumption.
      * constructor; [|now apply IH].
        intros Hin. apply keys_map_set in Hin as [-> | Hin]; [congruence|contradiction].
  - intros e He. apply map_set_entry in He as [-> | He]; [exact Hh | now apply Hm].
Qed.

Lemma add_bm25_keyed results : forall rank m,
  keyed m ->
  keyed (add_bm25 results rank m)
  /\ forall k, In k (keys (add_bm25 results rank m))
       <-> In k (keys m) \/ In k (map point_id results).
Proof.
  induction results as [|h results IH]; intros rank m Hm; cbn [add_bm25 map].
  - split; [exact Hm|]. intros k. cbn. tauto.
  - destruct (IH (S rank) _ (map_set_keyed (point_id h) (rrfScore rank) h m eq_refl Hm))
      as [Hk Hkeys].
    split; [exact Hk|]. intros k. rewrite Hkeys, keys_map_set. cbn. intuition congruence.
Qed.

Lemma add_vector_keyed results : forall rank m,
  keyed m ->
  keyed (add_vector results rank m)
  /\ forall k, In k (keys (add_vector results rank m))
       <-> In k (keys m) \/ In k (map point_id results).
Proof.
  induction results as [|h results IH]; intros rank m Hm; cbn [add_vector map].
  - split; [exact Hm|]. intros k. cbn. tauto.
  - destruct (Js.map_get (point_id h) m) as [[s r]|] eqn:Hget.
    + assert (Hr : point_id r = point_id h).
      { apply map_get_in in Hget. exact (proj2 Hm _ Hget). }
      destruct (IH (S rank) _ (map_set_keyed (point_id h) (s + rrfScore rank)%Q r m Hr Hm))
        as [Hk Hkeys].
      split; [exact Hk|]. intros k. rewrite Hkeys, keys_map_set. cbn. intuition congruence.
    + destruct (IH (S rank) _ (map_set_keyed (point_id h) (rrfScore rank) h m eq_refl Hm))
        as [Hk Hkeys].
      split; [exact Hk|]. intros k. rewrite Hkeys, keys_map_set. cbn. intuition congruence.
Qed.

Lemma score_map_keyed bm25 vec :
  keyed (score_map bm25 vec)
  /\ forall k, In k (keys (score_map bm25 vec))
       <-> In k (map point_id bm25) \/ In k (map point_id vec).
Proof.
  unfold score_map.
  assert (H0 : keyed []) by (split; [constructor | intros e []]).
  destruct (add_bm25_keyed bm25 0 [] H0) as [H1 K1].
  destruct (add_vector_keyed vec 0 _ H1) as [H2 K2].
  split; [exact H2|]. intros k. rewrite K2, K1. cbn. tauto.
Qed.

(** The identifiers of the fused list are the keys of the score map, in
    another order. *)
Lemma merged_ids bm25 vec :
  Permutation (map point_id (mergeResults bm25 vec)) (keys (score_map bm25 vec)).
Proof.
  unfold mergeResults. fold (score_map bm25 vec).
  destruct (score_map_keyed bm25 vec) as [[_ Hm] _].
  rewrite map_map. cbn [with_score point_id].
  rewrite (Permutation_map _ (sort_perm fst _)).
  unfold Js.map_values, keys. rewrite map_map.
  erewrite map_ext_in; [reflexivity|]. intros e He. exact (Hm e He).
Qed.

Lemma merged_ids_distinct bm25 vec :
  List.NoDup (map point_id (mergeResults bm25 vec))
  /\ (forall id, In id (map point_id (mergeResults bm25 vec))
        <-> In id (map point_id bm25) \/ In id (map point_id vec)).
Proof.
  destruct (score_map_keyed bm25 vec) as [[Hnd _] Hkeys].
  pose proof (merged_ids bm25 vec) as Hperm.
  split.
  - apply (Permutation_NoDup (Permutation_sym Hperm)). exact Hnd.
  - intros id. rewrite <- Hkeys. split; apply Permutation_in; [exact Hperm|].
    now apply Permutation_sym.
Qed.

(** X20. Whatever the two candidate lists hold, repeated chunks included, the
    fused list names every chunk of either list exactly once, and its
    scores descend. *)
Theorem mergeResults_lists_each_chunk_once (bm25Results vectorResults : list Hit) :
  List.NoDup (map point_id (mergeResults bm25Results vectorResults))
  /\ (forall id, In id (map point_id (mergeResults bm25Results vectorResults))
        <-> In id (map point_id bm25Results) \/ In id (map point_id vectorResults))
  /\ StronglySorted (fun a b => (score b <= score a)%Q)
       (mergeResults bm25Results vectorResults).
Proof.
  destruct (merged_ids_distinct bm25Results vectorResults) as [Hnd Hids].
  split; [exact Hnd|]. split; [exact Hids|].
  unfold mergeResults. apply StronglySorted_map'. cbn [with_score score].
    apply (sort_descending fst).
Qed.

End AnyLists.

(** ** Similarity of texts *)

Section Similarity.

Lemma split_go_cons fuel ic r : forall prev s cur,
  exists x xs, Regex.split_go fuel ic r prev s cur = x :: xs.
Proof.
  induction fuel as [|fuel IH]; intros prev s cur; cbn [Regex.split_go]; [eauto|].
  destruct s as [|c s]; [eauto|].
  destruct (Regex.match_at ic r _) as [[y cap]|]; [|apply IH].
  destruct (_ && _); [apply IH|eauto].
Qed.

Lemma split_ws_cons s : exists x xs, Regex.split_ws s = x :: xs.
Proof.
  unfold Regex.split_ws, Regex.split. destruct s as [|c s]; [cbn; eauto|].
  apply split_go_cons.
Qed.

(** A text has at least one word, if only the empty one. *)
Lemma word_set_size t : (0 < size (word_set t))%nat.
Proof.
  unfold word_set. destruct (split_ws_cons (JsString.toLowerCase t)) as (x & xs & ->).
  cbn [list_to_set].
  assert (H : size ({[x]} ∪ list_to_set xs : gset string) <> 0%nat); [|lia].
  apply size_non_empty_iff. intros Hempty.
  assert (Hx : x ∈ ({[x]} ∪ list_to_set xs : gset string))
    by (apply elem_of_union_l, elem_of_singleton; reflexivity).
  rewrite Hempty in Hx. now apply not_elem_of_empty in Hx.
Qed.

Lemma of_nat_pos n : (0 < n)%nat -> (0 < Js.of_nat n)%Q.
Proof. intros H. unfold Js.of_nat, Qlt. cbn. lia. Qed.

Lemma of_nat_le n m : (n <= m)%nat -> (Js.of_nat n <= Js.of_nat m)%Q.
Proof. intros H. unfold Js.of_nat, Qle. cbn. lia. Qed.

Lemma of_nat_eq n m : (Js.of_nat n == Js.of_nat m)%Q <-> n = m.
Proof. unfold Js.of_nat, Qeq. cbn. lia. Qed.

Lemma ratio_one n d :
  (0 < d)%nat -> (Js.of_nat n / Js.of_nat d == 1)%Q <-> n = d.
Proof.
  intros Hd.
  assert (Hnz : ~ (Js.of_nat d == 0)%Q).
  { intros H0. pose proof (of_nat_pos d Hd) as Hp. rewrite H0 in Hp.
    now apply Qlt_irrefl in Hp. }
  split.
  - intros H. apply of_nat_eq.
    rewrite <- (Qmult_div_r (Js.of_nat n) (Js.of_nat d) Hnz), H. ring.
  - intros ->. now apply Qmult_inv_r.
Qed.

(** X21. [textSimilarity] is symmetric and lies between 0 and 1, and it is 1
    exactly for two texts with the same set of lowercased words. *)
Theorem textSimilarity_is_one_for_the_same_words (text1 text2 : string) :
  textSimilarity text1 text2 = textSimilarity text2 text1
  /\ (0 <= textSimilarity text1 text2 <= 1)%Q
  /\ ((textSimilarity text1 text2 == 1)%Q <-> word_set text1 = word_set text2).
Proof.
  rewrite !textSimilarity_jaccard. unfold jaccard.
  set (A := word_set text1). set (B := word_set text2).
  assert (Hpos : (0 < size (A ∪ B))%nat).
  { pose proof (word_set_size text1) as H. fold A in H.
    assert (size A <= size (A ∪ B))%nat by (apply subseteq_size, union_subseteq_l). lia. }
  assert (Hsub : A ∩ B ⊆ A ∪ B).
  { intros x Hx. apply elem_of_intersection in Hx as [Hx _]. now apply elem_of_union_l. }
  split; [|split; [split|]].
  - now rewrite (comm_L (∩) A B), (comm_L (∪) A B).
  - apply (jaccard_nonneg text1 text2).
  - apply Qle_shift_div_r; [now apply of_nat_pos|]. rewrite Qmult_1_l.
    now apply of_nat_le, subseteq_size.
  - rewrite (ratio_one _ _ Hpos). split.
    + intros Heq.
      assert (Hsame : A ∩ B = A ∪ B) by (apply set_subseteq_size_eq; [exact Hsub|lia]).
      apply leibniz_equiv. intros x. split; intros Hx.
      * assert (Hu : x ∈ A ∪ B) by now apply elem_of_union_l.
        rewrite <- Hsame in Hu. apply elem_of_intersection in Hu. tauto.
      * assert (Hu : x ∈ A ∪ B) by now apply elem_of_union_r.
        rewrite <- Hsame in Hu. apply elem_of_intersection in Hu. tauto.
    + intros Heq. rewrite <- Heq. now rewrite (idemp_L (∩) A), (idemp_L (∪) A).
Qed.
End Similarity.

(** ** What a search returns *)

Section Results.

(** The loop moves chunks from [remaining] to [selected] and loses none. *)
Lemma mmr_loop_moves rounds lambda k : forall selected remaining,
  exists dropped,
    Permutation (selected ++ remaining)
      (mmr_loop rounds lambda k selected remaining ++ dropped).
Proof.
  induction rounds as [|rounds IH]; intros selected remaining; cbn [mmr_loop].
  - exists remaining. reflexivity.
  - destruct (_ && _); [|exists remaining; reflexivity].
    unfold splice1.
    destruct (nth_error remaining _) as [c|] eqn:Hc; [|exists remaining; reflexivity].
    destruct (IH (selected ++ [c])
                (firstn (fst (best_index lambda selected remaining 0 (0%nat, None))) remaining
                 ++ skipn (S (fst (best_index lambda selected remaining 0 (0%nat, None))))
                      remaining)) as (dropped & Hp).
    exists dropped. rewrite <- Hp. rewrite (nth_error_split_at remaining _ c Hc) at 1.
    rewrite <- app_assoc. apply Permutation_app_head. cbn.
    symmetry. apply Permutation_middle.
Qed.

Lemma applyMMR_moves results k :
  exists dropped, Permutation results (applyMMR results k ++ dropped).
Proof.
  unfold applyMMR, applyMMR_with.
  destruct (length results <=? k)%nat; [exists []; now rewrite app_nil_r|].
  destruct results as [|first remaining]; [exists []; reflexivity|].
  apply (mmr_loop_moves _ _ _ [first] remaining).
Qed.

Lemma NoDup_firstn {A} n (l : list A) : List.NoDup l -> List.NoDup (firstn n l).
Proof.
  intros H. rewrite <- (firstn_skipn n l) in H. now apply List.NoDup_app_remove_r in H.
Qed.

Lemma applyMMR_length results k :
  (length (applyMMR results k) <= Nat.max 1 k)%nat.
Proof.
  unfold applyMMR, applyMMR_with.
  destruct (Nat.leb_spec (length results) k) as [Hle | Hgt]; [lia|].
  destruct results as [|first remaining]; [cbn; lia|].
  rewrite mmr_loop_length by lia. cbn [length].
  destruct (Nat.ltb_spec 1 k); lia.
Qed.

(** X22. On a miss of its cache a search returns at most 8 chunks, and at most
    as many as asked for (one, when none is asked for); no chunk comes
    twice, and each is a result of the lexical or of the dense branch. *)
Theorem search_results_are_distinct_chunks (E : Env) (query : string) (limit : nat)
    (w : World) :
  query_cache (redis w) !! query_key query = None ->
  exists results dense w1 w',
    searchDocuments E query limit w = (Ok results, w')
    /\ vectorSearch E query 8 (after_command w) = (Ok dense, w1)
    /\ List.NoDup (map point_id results)
    /\ (length results <= 8)%nat
    /\ (length results <= Nat.max 1 limit)%nat
    /\ forall h, In h results ->
         In (point_id h) (map point_id (lexical_results E query 8 w))
         \/ In (point_id h) (map point_id dense).
Proof.
  intros Hmiss.
  destruct (searchDocuments_on_miss E query limit w Hmiss) as (dense & w1 & w' & Hv & Hs).
  unfold Js.slice_to in Hs.
  destruct (merged_ids_distinct (lexical_results E query 8 w) dense) as (Hnd & Hids).
  set (merged := mergeResults (lexical_results E query 8 w) dense) in *.
  destruct (applyMMR_moves (firstn 8 merged) limit) as (dropped & Hp).
  exists (applyMMR (firstn 8 merged) limit), dense, w1, w'.
  split; [exact Hs|]. split; [exact Hv|].
  split; [|split; [|split]].
  - apply (Permutation_map point_id) in Hp. rewrite map_app in Hp.
    apply (List.NoDup_app_remove_r _ (map point_id dropped)).
    apply (Permutation_NoDup Hp). rewrite <- firstn_map.
    now apply NoDup_firstn.
  - apply Permutation_length in Hp. rewrite length_app, length_firstn in Hp. lia.
  - apply applyMMR_length.
  - intros h Hh. apply Hids. apply in_map.
    apply applyMMR_in in Hh. exact (in_firstn _ _ _ Hh).
Qed.

End Results.

(** ** Sentences *)

Section Sentences.
Import JsString.

Lemma rev_append (a b : string) : rev (a +:+ b) = rev b +:+ rev a.
Proof.
  induction a as [|x a IH].
  - rewrite append_nil. unfold rev at 3. cbn. now rewrite append_nil_r.
  - rewrite append_cons, !rev_cons, IH. now rewrite append_assoc.
Qed.

Lemma length_append (a b : string) :
  String.length (a +:+ b) = (String.length a + String.length b)%nat.
Proof. induction a as [|x a IH]; [reflexivity|]. rewrite append_cons. cbn. now rewrite IH. Qed.

Lemma ends_sentence_last s0 c :
  is_terminator c = true -> ends_sentence (s0 +:+ String c "") = true.
Proof.
  intros Hc. unfold ends_sentence, endsWithChar. rewrite rev_append.
  change (rev (String c "")) with (String c ""). rewrite append_cons.
  unfold is_terminator in Hc.
  now rewrite (Ascii.eqb_sym "." c), (Ascii.eqb_sym "!" c), (Ascii.eqb_sym "?" c).
Qed.

(** A match of [/[.!?]$/] is the last character. *)
Lemma exec_terminal s : forall prev m,
  Regex.exec_from false terminal_re prev s = Some m ->
  exists s0 c, s = s0 +:+ String c "" /\ is_terminator c = true.
Proof.
  induction s as [|c s IH]; intros prev m H; [discriminate|].
  cbn [Regex.exec_from] in H.
  destruct (Regex.match_at false terminal_re (Regex.Pos prev (String c s))) as [y|] eqn:Hm.
  - unfold Regex.match_at, terminal_re in Hm. cbn in Hm.
    destruct (is_terminator c) eqn:Hc; [|discriminate].
    destruct s; [|discriminate]. exists "", c. split; [reflexivity|exact Hc].
  - destruct (IH _ _ H) as (s0 & c' & -> & Hc').
    exists (String c s0), c'. split; [reflexivity|exact Hc'].
Qed.

Lemma test_terminal s : Regex.test false terminal_re s = true -> ends_sentence s = true.
Proof.
  unfold Regex.test, Regex.exec. destruct (Regex.exec_from _ _ _ _) as [m|] eqn:Hm; [|discriminate].
  intros _. destruct (exec_terminal s None m Hm) as (s0 & c & -> & Hc).
  now apply ends_sentence_last.
Qed.

Lemma terminate_ends s : ends_sentence (terminate s) = true.
Proof.
  unfold terminate. fold (ends_sentence s). destruct (ends_sentence s) eqn:He; [exact He|].
  now apply ends_sentence_last.
Qed.

Lemma terminate_length s : (String.length s <= String.length (terminate s))%nat.
Proof.
  unfold terminate. destruct (_ || _); [lia|]. rewrite length_append. lia.
Qed.

(** X23. The sentences of a text are pairwise distinct; each is longer than 10
    characters and ends with a full stop, an exclamation mark or a
    question mark. *)
Theorem sentences_are_distinct_and_terminated (text0 : string) :
  List.NoDup (splitIntoSentences text0)
  /\ forall s, In s (splitIntoSentences text0) ->
       (10 < String.length s)%nat
       /\ endsWithChar "." s || endsWithChar "!" s || endsWithChar "?" s = true.
Proof.
  unfold splitIntoSentences. cbv zeta. split; [apply dedup_keep_first_nodup|].
  intros s Hs. rewrite uniq_in in Hs.
  apply in_flat_map in Hs as (line & _ & Hs).
  apply in_flat_map in Hs as (sent & Hsent & Hs).
  apply filter_In in Hsent as [_ Hlong]. unfold longer_than in Hlong. apply Nat.ltb_lt in Hlong.
  destruct (longer_than 200 sent || negb (Regex.test false terminal_re sent)) eqn:Hcut.
  - apply in_map_iff in Hs as (x & <- & Hx).
    apply filter_In in Hx as [_ Hx]. unfold longer_than in Hx. apply Nat.ltb_lt in Hx.
    split; [pose proof (terminate_length x); lia|]. apply terminate_ends.
  - destruct Hs as [<- | []]. split; [exact Hlong|].
    apply orb_false_iff in Hcut as [_ Ht]. apply negb_false_iff in Ht.
    now apply test_terminal.
Qed.

End Sentences.

Section BestSentence.
Variable E : Env.
Import JsString.

Lemma score_steps_pick query queryEmbedding l : forall best,
  In (fst (fold_left (score_step E query queryEmbedding) l best)) (fst best :: map fst l).
Proof.
  induction l as [|se l IH]; intros best; cbn [fold_left map]; [now left|].
  destruct (IH (score_step E query queryEmbedding best se)) as [H | H].
  - rewrite <- H. unfold score_step. destruct (Js.gt _ _); cbn [fst]; [right; now left | now left].
  - right. now right.
Qed.

Lemma in_combine_fst {A B} (a : list A) (b : list B) x :
  In x (map fst (combine a b)) -> In x a.
Proof.
  intros H. apply in_map_iff in H as ([x' y] & <- & Hin). exact (in_combine_l _ _ _ _ Hin).
Qed.

Lemma findBestSentence_picks (query text0 : string) (w : World) :
  exists s w',
    findBestSentence E query text0 w = (Ok s, w')
    /\ (s = text0
        \/ exists sentence,
             In sentence (splitIntoSentences text0) /\ (s = sentence \/ s = trim sentence))
    /\ (splitIntoSentences text0 = [] -> s = text0 /\ w' = w)
    /\ (forall only, splitIntoSentences text0 = [only] -> s = only /\ w' = w).
Proof.
  unfold findBestSentence, try_catch.
  destruct (splitIntoSentences text0) as [|first [|second rest]] eqn:Hs.
  - exists text0, w. unfold ret. split; [reflexivity|]. split; [now left|].
    split; [auto|discriminate].
  - exists first, w. unfold ret. split; [reflexivity|]. split.
    + right. exists first. split; [now left | now left].
    + split; [discriminate|]. intros only H. now injection H as <-.
  - set (sentences := first :: second :: rest).
    destruct (List.filter _ sentences) as [|firstValid valid] eqn:Hv.
    + exists first, w. unfold ret. split; [reflexivity|]. split.
      * right. exists first. split; [now left | now left].
      * split; discriminate.
    + unfold bind.
      destruct (generateEmbeddings E (query :: firstValid :: valid) w)
        as [[[|queryEmbedding sentenceEmbeddings]|e] w1].
      * exists text0, w1. unfold ret. split; [reflexivity|]. split; [now left|].
        split; discriminate.
      * eexists. exists w1. unfold ret. split; [reflexivity|]. split; [|split; discriminate].
        right.
        match goal with |- context [fold_left ?f ?l ?b] =>
          pose proof (score_steps_pick query queryEmbedding l b) as Hpick end.
        cbn [fst] in Hpick.
        eexists. split; [|right; reflexivity].
        assert (Hin : forall x, In x (firstValid :: valid) -> In x sentences).
        { intros x Hx. rewrite <- Hv in Hx. now apply filter_In in Hx as [Hx _]. }
        destruct Hpick as [<- | Hpick]; [apply Hin; now left|].
        apply Hin. exact (in_combine_fst _ _ _ Hpick).
      * exists text0, w1. unfold ret. split; [reflexivity|]. split; [now left|].
        split; discriminate.
Qed.

(** X24. [findBestSentence] never rejects. It returns the whole text when the
    text has no sentence, the sentence when there is one, without asking
    for an embedding in either case, and otherwise the whole text or one
    of the sentences, trimmed. *)
Theorem findBestSentence_returns_a_sentence (query text0 : string) (w : World) :
  exists s w',
    findBestSentence E query text0 w = (Ok s, w')
    /\ (s = text0
        \/ exists sentence,
             In sentence (splitIntoSentences text0) /\ (s = sentence \/ s = trim sentence))
    /\ (splitIntoSentences text0 = [] -> s = text0 /\ w' = w)
    /\ (forall only, splitIntoSentences text0 = [only] -> s = only /\ w' = w).
Proof. apply findBestSentence_picks. Qed.

End BestSentence.

(** ** Turns *)

Section Turns.
Variable E : Env.

(** [predict] never rejects, changes nothing, and only looks at [isReady]. *)
Lemma predict_runs message w :
  predict E message w = (Ok (intents_of E (isReady w) message), w).
Proof.
  unfold predict, intents_of, bind, gets, ret, try_catch, of_outcome.
  destruct (isReady w); cbn [negb]; [|reflexivity].
  destruct (classifier_predict E message); reflexivity.
Qed.

(** The turn up to the read of the session. *)
Lemma orchestrate_starts sessionId message w :
  orchestrate E sessionId message w
  = let intent := intents_of E (isReady w) message in
    try_catch
      (ctx <- getLastAppt E sessionId ;;
       if knowledge intent && schedule intent then handleDualIntent E sessionId message
       else if schedule intent then
         match (if isReschedule message then ctx else None) with
         | Some c => handleReschedule E sessionId message c
         | None => handleSchedule E sessionId message
         end
       else if knowledge intent then handleKnowledge E sessionId message
       else respond unclear_reply [] None)
      (fun e =>
         steps <- gets planSteps ;;
         ret {| reply := error_reply; citations := []; plan_steps := steps;
                tool_calls := None; error := Some e |})
      (set_planSteps [intent_detection intent] w).
Proof.
  unfold orchestrate, orchestrate_with. unfold bind at 1, modify.
  unfold try_catch. unfold bind at 1. unfold detectIntent. rewrite predict_runs.
  unfold bind at 1. unfold push_step, modify. reflexivity.
Qed.

(** X25. The session is read before the intent is looked at: when that read is
    rejected the turn ends with the error reply, whatever was asked, with
    the intent as its only plan step; nothing is written. *)
Theorem a_failed_session_read_fails_the_turn (sessionId message failure : string) (w : World) :
  redis_fault E (redis_ops (redis w)) "GET" ("memory:" +:+ sessionId) = Some failure ->
  orchestrate E sessionId message w
  = (Ok {| reply := error_reply; citations := [];
           plan_steps := [intent_detection (intents_of E (isReady w) message)];
           tool_calls := None; error := Some failure |},
     after_command (set_planSteps [intent_detection (intents_of E (isReady w) message)] w)).
Proof.
  intros Hfail. rewrite orchestrate_starts. cbv zeta.
  unfold try_catch. unfold bind at 1. unfold getLastAppt. unfold bind at 1.
  unfold redis_get, redis_command. cbn [redis set_planSteps]. rewrite Hfail. reflexivity.
Qed.

(** [getLastAppt] without a fault, on a world whose session is read. *)
Lemma getLastAppt_reads sessionId w :
  redis_fault E (redis_ops (redis w)) "GET" ("memory:" +:+ sessionId) = None ->
  getLastAppt E sessionId w
  = (Ok (memory_store (redis w) !! ("memory:" +:+ sessionId) ≫= (last_appt ∘ snd)),
     after_command w).
Proof.
  intros Hok. unfold getLastAppt. unfold bind at 1. unfold redis_get, redis_command.
  rewrite Hok. cbn [ns_read memory_ns memory_store set_redis_ops fst snd].
  destruct (memory_store (redis w) !! _) as [[ttl s]|]; reflexivity.
Qed.

Ltac beside :=
  intros; unfold reads, beside_caches in *; cbn in *; try assumption.

Lemma getKnowledgeAnswer_beside x message :
  maintains (reads beside_caches x) (getKnowledgeAnswer E message).
Proof.
  unfold getKnowledgeAnswer, findBestSentence, generateEmbeddings, searchDocuments,
    getCachedResults, setCachedResults, bm25Search, vectorSearch, generateEmbedding,
    getCachedEmbedding, embedding_after_probe, setCachedEmbedding, redis_get, redis_setex.
  frame; solve [beside].
Qed.

(** [getKnowledgeAnswer] never rejects. *)
Lemma getKnowledgeAnswer_total message w :
  exists a w', getKnowledgeAnswer E message w = (Ok a, w').
Proof.
  unfold getKnowledgeAnswer, try_catch.
  match goal with |- context [match ?m w with _ => _ end] => destruct (m w) as [[a|e] w1] end;
    unfold ret; eauto.
Qed.

(** X26. A turn with the knowledge intent alone answers with the reply and the
    citations of [getKnowledgeAnswer], calls no tool, and has two plan
    steps, the second with the number of citations; it writes no session
    and no appointment, and draws no identifier. *)
Theorem a_knowledge_turn_only_reads (sessionId message : string) (w : World) :
  redis_fault E (redis_ops (redis w)) "GET" ("memory:" +:+ sessionId) = None ->
  schedule (intents_of E (isReady w) message) = false ->
  knowledge (intents_of E (isReady w) message) = true ->
  exists answer w1 w',
    getKnowledgeAnswer E message
      (after_command (set_planSteps [intent_detection (intents_of E (isReady w) message)] w))
    = (Ok answer, w1)
    /\ orchestrate E sessionId message w
       = (Ok {| reply := answer_reply answer; citations := answer_citations answer;
                plan_steps := [intent_detection (intents_of E (isReady w) message);
                               retrieve_knowledge (length (answer_citations answer))];
                tool_calls := None; error := None |}, w')
    /\ memory_store (redis w') = memory_store (redis w)
    /\ appt_store (redis w') = appt_store (redis w)
    /\ appts_all (redis w') = appts_all (redis w)
    /\ lastApptNumber w' = lastApptNumber w.
Proof.
  intros Hok Hs Hk. rewrite orchestrate_starts. cbv zeta. rewrite Hs, Hk. cbn [andb].
  set (intent := intents_of E (isReady w) message).
  set (w0 := set_planSteps [intent_detection intent] w).
  unfold try_catch at 1. unfold bind at 1. rewrite getLastAppt_reads by exact Hok.
  destruct (getKnowledgeAnswer_total message (after_command w0)) as (answer & w1 & Ha).
  pose proof (getKnowledgeAnswer_beside (beside_caches (after_command w0)) message
                (after_command w0) eq_refl) as Hb.
  pose proof (keeps_getKnowledgeAnswer E message _ _ _ Ha) as Hsteps.
  rewrite Ha in Hb. cbn [snd] in Hb. unfold reads, beside_caches in Hb.
  injection Hb as Hb1 Hb2 Hb3 Hb4 _ _ _.
  exists answer, w1. eexists. split; [exact Ha|].
  unfold handleKnowledge. unfold bind at 1. rewrite Ha.
  unfold bind, push_step, modify, respond, gets, ret. cbn [planSteps set_planSteps].
  rewrite Hsteps. cbn [planSteps after_command set_redis w0 set_planSteps app].
  split; [reflexivity|]. cbn. auto.
Qed.

Ltac same_plan :=
  intros; unfold starts_with in *; cbn in *; try assumption.

Lemma scheduleAppointment_plan a b name slot loc :
  maintains (starts_with a b) (scheduleAppointment E name slot loc).
Proof.
  unfold scheduleAppointment, now_iso, redis_setex, redis_sadd.
  assert (Hg : maintains (starts_with a b) (generateApptId E))
    by (apply generateApptId_maintains; same_plan).
  frame; solve [same_plan].
Qed.

Lemma push_step_plan a b s : maintains (starts_with a b) (push_step s).
Proof.
  intros w [rest H]. exists (rest ++ [s]). cbn. now rewrite H.
Qed.

(** X27. Without a remembered appointment a message that asks to reschedule
    is handled as a booking: the second plan step holds the entities
    extracted for a booking, and when the name or the time is missing
    the reply is the prompt for a booking. *)
Theorem rescheduling_without_context_is_a_booking (sessionId message : string) (w : World) :
  redis_fault E (redis_ops (redis w)) "GET" ("memory:" +:+ sessionId) = None ->
  memory_store (redis w) !! ("memory:" +:+ sessionId) ≫= (last_appt ∘ snd) = None ->
  schedule (intents_of E (isReady w) message) = true ->
  knowledge (intents_of E (isReady w) message) = false ->
  exists r w' rest,
    orchestrate E sessionId message w = (Ok r, w')
    /\ plan_steps r
       = intent_detection (intents_of E (isReady w) message)
         :: extract_entities (extractName E message) (extractTime E message)
              (extractLocation message)
         :: rest
    /\ (opt_truthy (extractName E message) && opt_truthy (extractTime E message) = false ->
        reply r = schedule_prompt /\ rest = [] /\ tool_calls r = None).
Proof.
  intros Hok Hctx Hs Hk. rewrite orchestrate_starts. cbv zeta. rewrite Hs, Hk. cbn [andb].
  set (a := intent_detection (intents_of E (isReady w) message)).
  set (b := extract_entities (extractName E message) (extractTime E message)
              (extractLocation message)).
  set (w0 := set_planSteps [a] w).
  unfold try_catch at 1. unfold bind at 1. rewrite getLastAppt_reads by exact Hok.
  cbn [redis w0 set_planSteps]. rewrite Hctx.
  assert (Hctx' : (if isReschedule message then None else None) = @None LastAppt)
    by now destruct (isReschedule message).
  rewrite Hctx'.
  destruct (handleSchedule E sessionId message (after_command w0)) as [o w'] eqn:Hh.
  pose proof (responds_handleSchedule E sessionId message _ _ _ Hh) as [_ Hr].
  assert (Hplan : starts_with a b w').
  { revert Hh. unfold handleSchedule. unfold bind at 1. unfold push_step at 1, modify.
    fold b. set (w1 := set_planSteps _ _).
    intros Hh.
    assert (H1 : starts_with a b w1) by (exists []; reflexivity).
    match type of Hh with ?K w1 = _ =>
      assert (HK : maintains (starts_with a b) K) end.
    { pose proof (scheduleAppointment_plan a b).
      pose proof (push_step_plan a b).
      unfold setLastAppt, respond, now_iso, redis_get, redis_setex.
      frame; solve [same_plan]. }
    specialize (HK w1 H1). rewrite Hh in HK. exact HK. }
  destruct Hplan as [rest Hrest].
  destruct o as [r|e].
  - destruct (Hr r eq_refl) as [_ Hp]. exists r, w', rest.
    split; [reflexivity|]. split; [now rewrite Hp|].
    intros Hmissing. revert Hh. unfold handleSchedule.
    assert (Hif : negb (opt_truthy (extractName E message))
                  || negb (opt_truthy (extractTime E message)) = true).
    { destruct (opt_truthy (extractName E message)), (opt_truthy (extractTime E message));
        try reflexivity; discriminate. }
    rewrite Hif. unfold bind, push_step, modify, respond, gets, ret.
    intros H. injection H as <- <-. cbn in Hrest. injection Hrest as <-.
    repeat split; reflexivity.
  - eexists. exists w', rest. unfold bind, gets, ret. split; [reflexivity|].
    split; [exact Hrest|].
    intros Hmissing. exfalso. revert Hh. unfold handleSchedule.
    assert (Hif : negb (opt_truthy (extractName E message))
                  || negb (opt_truthy (extractTime E message)) = true).
    { destruct (opt_truthy (extractName E message)), (opt_truthy (extractTime E message));
        try reflexivity; discriminate. }
    rewrite Hif. unfold bind, push_step, modify, respond, gets, ret. discriminate.
Qed.

End Turns.

(** ** A booking and its correction *)

Section Conversation.
Variable E : Env.
Hypothesis Hup : redis_up E.

Lemma extractLocation_truthy message : truthy (extractLocation message) = true.
Proof.
  unfold extractLocation. cbv zeta.
  repeat match goal with |- context [if ?b then _ else _] => destruct b end; reflexivity.
Qed.

Lemma handleSchedule_books (sessionId message name iso : string) (t : Z) (w : World) :
  extractName E message = Some name -> truthy name = true ->
  extractTime E message = Some iso -> truthy iso = true ->
  Date_parse E iso = Some t ->
  exists a w',
    handleSchedule E sessionId message w
    = (Ok {| reply := booked_reply E name (extractLocation message) a; citations := [];
             plan_steps := planSteps w
                           ++ [extract_entities (Some name) (Some iso) (extractLocation message);
                               schedule_appointment true];
             tool_calls := Some [schedule_call name iso (extractLocation message) (ApiOk a)];
             error := None |}, w')
    /\ patient a = name
    /\ normalized_slot_iso a = Date_toISOString E t
    /\ location a = extractLocation message
    /\ appt_store (redis w') = <["appt:" +:+ appt_id a := (604800%N, a)]> (appt_store (redis w))
    /\ (exists saved,
          memory_store (redis w') !! ("memory:" +:+ sessionId) ≫= (last_appt ∘ snd) = Some saved
          /\ last_appt_id saved = appt_id a)
    /\ isReady w' = isReady w.
Proof.
  intros Hn Hnt Ht Htt Hd. unfold handleSchedule. rewrite Hn, Ht. cbn [opt_truthy or_empty].
  rewrite Hnt, Htt. cbn [negb orb].
  unfold bind at 1. unfold push_step at 1, modify.
  set (w1 := set_planSteps _ w).
  destruct (scheduleAppointment_books E Hup name iso (extractLocation message) t w1
              Hnt Htt (extractLocation_truthy message) Hd)
    as (a & w2 & Hrun & Hp & Hiso & Hloc & _ & _ & Hstore & _ & Hmem & Hready & Hsteps & _).
  unfold bind at 1. rewrite Hrun. unfold bind at 1. unfold push_step at 1, modify.
  cbn [api_ok]. unfold bind at 1. rewrite (setLastAppt_up E Hup).
  unfold respond, bind, gets, ret.
  exists a. eexists. split.
  - cbn [planSteps set_planSteps set_redis set_clock_reads]. rewrite Hsteps.
    subst w1. cbn [planSteps set_planSteps]. rewrite <- app_assoc. reflexivity.
  - cbn. rewrite lookup_insert_eq. cbn. rewrite Hstore, Hready. subst w1. cbn.
    repeat split; auto. eexists. split; reflexivity.
Qed.

Lemma handleReschedule_rebooks (sessionId message iso : string) (t : Z) (ctx : LastAppt)
    (ttl : N) (a : Appointment) (w : World) :
  extractTime E message = Some iso -> truthy iso = true ->
  Date_parse E iso = Some t ->
  appt_store (redis w) !! ("appt:" +:+ last_appt_id ctx) = Some (ttl, a) ->
  exists a' w',
    handleReschedule E sessionId message ctx w
    = (Ok {| reply := "Rebooked " +:+ patient a' +:+ " for "
                      +:+ dateStr E (normalized_slot_iso a')
                      +:+ " at " +:+ location a' +:+ " (" +:+ appt_id a' +:+ ").";
             citations := [];
             plan_steps := planSteps w ++ [extract_time (Some iso); reschedule_appointment true];
             tool_calls := Some [reschedule_call (last_appt_id ctx) iso (ApiOk a')];
             error := None |}, w')
    /\ normalized_slot_iso a' = Date_toISOString E t
    /\ appt_id a' = appt_id a
    /\ patient a' = patient a
    /\ location a' = location a
    /\ appt_store (redis w')
       = <["appt:" +:+ last_appt_id ctx := (604800%N, a')]> (appt_store (redis w)).
Proof.
  intros Ht Htt Hd Hstored. unfold handleReschedule. rewrite Ht. cbn [opt_truthy or_empty].
  rewrite Htt. cbn [negb].
  unfold bind at 1. unfold push_step at 1, modify.
  set (w1 := set_planSteps _ w).
  destruct (rescheduleAppointment_stores E Hup (last_appt_id ctx) iso t ttl a w1 Hstored Hd)
    as (a' & w2 & Hrun & Hiso & Hid & Hp & Hloc & _ & _ & _ & Hstore).
  pose proof (keeps_rescheduleAppointment E _ _ _ _ _ Hrun) as Hsteps.
  unfold bind at 1. rewrite Hrun. unfold bind at 1. unfold push_step at 1, modify.
  cbn [api_ok]. unfold bind at 1. rewrite (setLastAppt_up E Hup).
  unfold respond, bind, gets, ret.
  exists a'. eexists. split.
  - cbn [planSteps set_planSteps set_redis set_clock_reads]. rewrite Hsteps.
    subst w1. cbn [planSteps set_planSteps]. rewrite <- app_assoc. reflexivity.
  - cbn. rewrite Hstore. subst w1. cbn. auto 10.
Qed.

(** X28. A booking followed, in the same session, by a message that asks for
    another time: the second turn reschedules the appointment the first
    one booked, under the same identifier, for the same patient at the
    same location, and the record read back has the new slot. *)
Theorem a_correction_moves_the_booked_appointment
    (sessionId m1 m2 name iso1 iso2 : string) (t1 t2 : Z) (w : World) :
  schedule (intents_of E (isReady w) m1) = true ->
  knowledge (intents_of E (isReady w) m1) = false ->
  isReschedule m1 = false ->
  extractName E m1 = Some name -> truthy name = true ->
  extractTime E m1 = Some iso1 -> truthy iso1 = true ->
  Date_parse E iso1 = Some t1 ->
  schedule (intents_of E (isReady w) m2) = true ->
  knowledge (intents_of E (isReady w) m2) = false ->
  isReschedule m2 = true ->
  extractTime E m2 = Some iso2 -> truthy iso2 = true ->
  Date_parse E iso2 = Some t2 ->
  exists a1 r1 w1 a2 r2 w2,
    orchestrate E sessionId m1 w = (Ok r1, w1)
    /\ tool_calls r1 = Some [schedule_call name iso1 (extractLocation m1) (ApiOk a1)]
    /\ orchestrate E sessionId m2 w1 = (Ok r2, w2)
    /\ tool_calls r2 = Some [reschedule_call (appt_id a1) iso2 (ApiOk a2)]
    /\ plan_steps r2 = [intent_detection (intents_of E (isReady w) m2);
                        extract_time (Some iso2); reschedule_appointment true]
    /\ error r2 = None
    /\ appt_id a2 = appt_id a1
    /\ patient a2 = name
    /\ location a2 = extractLocation m1
    /\ normalized_slot_iso a2 = Date_toISOString E t2
    /\ getAppointment E (appt_id a1) w2 = (Ok (Some a2), after_command w2).
Proof.
  intros Hs1 Hk1 Hr1 Hn Hnt Ht1 Htt1 Hd1 Hs2 Hk2 Hr2 Ht2 Htt2 Hd2.
  (* the booking *)
  pose proof (orchestrate_starts E sessionId m1 w) as Ho1. cbv zeta in Ho1.
  rewrite Hs1, Hk1, Hr1 in Ho1. cbn [andb] in Ho1.
  unfold try_catch at 1 in Ho1. unfold bind at 1 in Ho1.
  rewrite (getLastAppt_up E Hup) in Ho1.
  match type of Ho1 with context [handleSchedule E sessionId m1 ?w0] =>
    destruct (handleSchedule_books sessionId m1 name iso1 t1 w0 Hn Hnt Ht1 Htt1 Hd1)
      as (a1 & w1 & Hh1 & Hp1 & _ & Hl1 & Hstore1 & (saved & Hsaved & Hid) & Hready1)
  end.
  rewrite Hh1 in Ho1.
  cbn [isReady after_command set_redis set_planSteps] in Hready1.
  (* the correction *)
  pose proof (orchestrate_starts E sessionId m2 w1) as Ho2. cbv zeta in Ho2.
  rewrite Hready1, Hs2, Hk2, Hr2 in Ho2. cbn [andb] in Ho2.
  unfold try_catch at 1 in Ho2. unfold bind at 1 in Ho2.
  rewrite (getLastAppt_up E Hup) in Ho2.
  cbn [redis set_planSteps] in Ho2. rewrite Hsaved in Ho2.
  assert (Hstored : forall w', appt_store (redis w') = appt_store (redis w1) ->
            appt_store (redis w') !! ("appt:" +:+ last_appt_id saved) = Some (604800%N, a1)).
  { intros w' ->. rewrite Hid, Hstore1. apply lookup_insert_eq. }
  match type of Ho2 with context [handleReschedule E sessionId m2 saved ?w0] =>
    destruct (handleReschedule_rebooks sessionId m2 iso2 t2 saved _ a1 w0 Ht2 Htt2 Hd2
                (Hstored w0 eq_refl))
      as (a2 & w2 & Hh2 & Hiso2 & Hid2 & Hp2 & Hl2 & Hstore2)
  end.
  rewrite Hh2 in Ho2.
  exists a1. eexists. exists w1, a2. eexists. exists w2.
  split; [exact Ho1|]. split; [reflexivity|]. split; [exact Ho2|].
  cbn [tool_calls plan_steps error]. rewrite Hid.
  split; [reflexivity|]. split; [reflexivity|]. split; [reflexivity|].
  split; [exact Hid2|]. split; [congruence|]. split; [congruence|]. split; [exact Hiso2|].
  rewrite (getAppointment_up E Hup), Hstore2, Hid, lookup_insert_eq. reflexivity.
Qed.

End Conversation.

(** ** Answers *)

Section Answers.
Variable E : Env.
Import JsString.

(** Rounding to two decimals moves a score by at most 0.005. *)
Lemma round2_close (x : Q) : (Qabs (round2 x - x) <= 1 # 200)%Q.
Proof.
  unfold round2, Js.round.
  pose proof (Qfloor_le (x * 100 + (1 # 2))) as Hle.
  pose proof (Qlt_floor (x * 100 + (1 # 2))) as Hlt.
  set (f := Qfloor (x * 100 + (1 # 2))) in *.
  rewrite inject_Z_plus in Hlt. change (inject_Z 1) with 1%Q in Hlt.
  apply Qabs_Qle_condition. split.
  - assert (H : (x - (1 # 200) <= inject_Z f / 100)%Q).
    { apply Qle_shift_div_l; [reflexivity|]. lra. }
    lra.
  - assert (H : (inject_Z f / 100 <= x + (1 # 200))%Q).
    { apply Qle_shift_div_r; [reflexivity|]. lra. }
    lra.
Qed.

(** X29. When no answer is cached for a message, the answer is the error
    reply, the no-information reply, or an answer made from what the
    search returned: its reply is the text of the first chunk or one of
    the sentences of that text, and it cites every chunk returned, in
    order and numbered from 1, with the chunk's document and number and
    its score rounded to two decimals. *)
Theorem answers_quote_the_top_chunk (message : string) (w : World) :
  knowledge_cache (redis w) !! knowledge_key message = None ->
  exists a w',
    getKnowledgeAnswer E message w = (Ok a, w')
    /\ (a = retrieval_error
        \/ a = no_information
        \/ exists top others,
             fst (searchDocuments E message 3 (after_command w)) = Ok (top :: others)
             /\ (answer_reply a = text (payload top)
                 \/ exists sentence,
                      In sentence (splitIntoSentences (text (payload top)))
                      /\ (answer_reply a = sentence \/ answer_reply a = trim sentence))
             /\ length (answer_citations a) = S (length others)
             /\ forall i doc, (top :: others) !! i = Some doc ->
                  exists c,
                    answer_citations a !! i = Some c
                    /\ cite_ref c = S i
                    /\ cite_id c = doc_id (payload doc)
                    /\ cite_chunk c = chunk_index (payload doc)
                    /\ (Qabs (cite_score c - score doc) <= 1 # 200)%Q).
Proof.
  intros Hmiss. unfold getKnowledgeAnswer, try_catch. unfold bind at 1.
  unfold redis_get, redis_command.
  destruct (redis_fault E _ _ _) as [failure|].
  { unfold ret. eexists. eexists. split; [reflexivity|]. now left. }
  cbn [fst snd ns_read knowledge_ns knowledge_cache set_redis_ops].
  fold (knowledge_key message). rewrite Hmiss. cbn [fmap option_fmap option_map].
  fold (after_command w). unfold bind at 1.
  destruct (searchDocuments E message 3 (after_command w)) as [[docs|e] ws] eqn:Hs.
  2:{ unfold ret. eexists. eexists. split; [reflexivity|]. now left. }
  destruct docs as [|top others].
  { unfold ret. eexists. eexists. split; [reflexivity|]. right. now left. }
  destruct (findBestSentence_picks E message (text (payload top)) ws)
    as (s & wf & Hf & Hpick & _).
  unfold bind at 1. rewrite Hf. unfold bind at 1. unfold redis_setex, redis_command.
  destruct (redis_fault E _ _ _) as [failure|].
  { unfold ret. eexists. eexists. split; [reflexivity|]. now left. }
  cbn [fst snd]. unfold bind, ret. eexists. eexists. split; [reflexivity|].
  right. right. exists top, others. cbn [answer_reply answer_citations fst].
  split; [reflexivity|]. split; [|split].
  - destruct Hpick as [-> | Hpick]; [now left | now right].
  - now rewrite length_imap.
  - intros i doc Hdoc. exists (citation_of i doc). rewrite list_lookup_imap, Hdoc.
    split; [reflexivity|]. unfold citation_of. cbn.
    split; [lia|]. split; [reflexivity|]. split; [reflexivity|]. apply round2_close.
Qed.

End Answers.

(** ** The properties on the small installation *)

(** C10 on a message with a knowledge keyword and a schedule keyword. *)
Lemma keyword_fallback_is_never_dual_run :
  isReady Demo.world = false
  /\ exists intents,
       predict Demo.env "what is the late policy and book Rivera" Demo.world
       = (Ok intents, Demo.world)
       /\ intents = {| schedule := true; knowledge := false |}.
Proof.
  split; [reflexivity|].
  destruct (keyword_fallback_is_never_dual Demo.env
              "what is the late policy and book Rivera" Demo.world (or_introl eq_refl))
    as (intents & Hp & Hi & _).
  exists intents. split; [exact Hp|]. rewrite Hi. vm_compute. reflexivity.
Defined.

(** C5 on the predictions of a dual-intent message. *)
Lemma predict_sets_labels_above_threshold_run :
  isReady (Demo.model_loaded Demo.world) = true
  /\ classifier_predict (Demo.with_classifier Demo.dual_predictions Demo.env)
       "what is the late policy and book Rivera" = Ok Demo.dual_predictions
  /\ exists intents,
       predict (Demo.with_classifier Demo.dual_predictions Demo.env)
         "what is the late policy and book Rivera" (Demo.model_loaded Demo.world)
       = (Ok intents, Demo.model_loaded Demo.world).
Proof.
  split; [reflexivity|]. split; [reflexivity|].
  destruct (predict_sets_labels_above_threshold
              (Demo.with_classifier Demo.dual_predictions Demo.env)
              "what is the late policy and book Rivera" (Demo.model_loaded Demo.world)
              Demo.dual_predictions eq_refl eq_refl)
    as (intents & Hp & _).
  exists intents. exact Hp.
Defined.

(** C4 on two lists that share a chunk. *)
Lemma mergeResults_is_rank_fusion_run :
  List.NoDup (map point_id Demo.lexical_hits)
  /\ List.NoDup (map point_id Demo.dense_hits)
  /\ StronglySorted (fused_before Demo.lexical_hits)
       (mergeResults Demo.lexical_hits Demo.dense_hits).
Proof.
  assert (H1 : List.NoDup (map point_id Demo.lexical_hits)).
  { repeat constructor; cbn; intuition discriminate. }
  assert (H2 : List.NoDup (map point_id Demo.dense_hits)).
  { repeat constructor; cbn; intuition discriminate. }
  split; [exact H1|]. split; [exact H2|].
  exact (proj2 (proj2 (proj2
           (mergeResults_is_rank_fusion Demo.lexical_hits Demo.dense_hits H1 H2)))).
Defined.

(** C6 with the embedding provider down. *)
Lemma retrieval_degrades_to_lexical_run :
  dense_branch_fails (Demo.without_provider Demo.env) "what is the late policy?" Demo.world
  /\ query_cache (redis Demo.world) !! ("query:" +:+ Js.base64 "what is the late policy?") = None
  /\ exists w',
       vectorSearch (Demo.without_provider Demo.env) "what is the late policy?" 8 Demo.world
       = (Ok [], w').
Proof.
  assert (H1 : dense_branch_fails (Demo.without_provider Demo.env)
                 "what is the late policy?" Demo.world).
  { left. split; [reflexivity|]. eexists. reflexivity. }
  assert (H2 : query_cache (redis Demo.world)
               !! ("query:" +:+ Js.base64 "what is the late policy?") = None)
    by reflexivity.
  split; [exact H1|]. split; [exact H2|].
  exact (proj1 (retrieval_degrades_to_lexical (Demo.without_provider Demo.env)
                  "what is the late policy?" 3 Demo.world H1 H2)).
Defined.

(** C8 for an appointment at 10:30 moved to 11:00. *)
Lemma reschedule_after_schedule_run :
  redis_up Demo.env
  /\ Date_parse Demo.env "2026-01-02T10:30:00.000Z" = Some Demo.tomorrow
  /\ Date_parse Demo.env "2026-01-02T11:00:00.000Z" = Some (Demo.tomorrow + 1800000)%Z
  /\ exists a w1 a' w2 w3,
       scheduleAppointment Demo.env "Chen" "2026-01-02T10:30:00.000Z" "Midtown" Demo.blank_world
       = (Ok (ApiOk a), w1)
       /\ rescheduleAppointment Demo.env (appt_id a) "2026-01-02T11:00:00.000Z" w1
          = (Ok (ApiOk a'), w2)
       /\ getAppointment Demo.env (appt_id a) w2 = (Ok (Some a'), w3)
       /\ normalized_slot_iso a' = "2026-01-02T11:00:00.000Z".
Proof.
  assert (Hup : redis_up Demo.env) by (intros n command key; reflexivity).
  split; [exact Hup|]. split; [reflexivity|]. split; [reflexivity|].
  destruct (reschedule_after_schedule Demo.env Hup
              "Chen" "2026-01-02T10:30:00.000Z" "Midtown" "2026-01-02T11:00:00.000Z"
              Demo.tomorrow (Demo.tomorrow + 1800000)%Z Demo.blank_world
              eq_refl eq_refl eq_refl eq_refl eq_refl)
    as (a & w1 & a' & w2 & w3 & H1 & H2 & H3 & H4 & _).
  exists a, w1, a', w2, w3. repeat split; assumption.
Defined.

(** ** The further properties on the small installation *)

Lemma demo_up : redis_up Demo.env.
Proof. intros n command key. reflexivity. Qed.

Lemma demo_without_provider_up : redis_up (Demo.without_provider Demo.env).
Proof. intros n command key. reflexivity. Qed.

Lemma demo_clock_times_up : redis_up (Demo.with_clock_times Demo.env).
Proof. intros n command key. reflexivity. Qed.

(** The listing after one booking. *)
Lemma getAllAppointments_lists_the_index_run :
  redis_up Demo.env
  /\ exists l w',
       getAllAppointments Demo.env Demo.booked = (Ok l, w')
       /\ (length l <= size (appts_all (redis Demo.booked)))%nat
       /\ appt_store (redis w') = appt_store (redis Demo.booked).
Proof.
  split; [exact demo_up|].
  destruct (getAllAppointments_lists_the_index Demo.env demo_up Demo.booked)
    as (l & w' & Hrun & _ & Hlen & Hstore & _).
  exists l, w'. split; [exact Hrun|]. split; [exact Hlen | exact Hstore].
Defined.

(** A slot that is no date, after one booking. *)
Lemma invalid_booking_stores_nothing_run :
  redis_up Demo.env
  /\ Date_parse Demo.env "next week" = None
  /\ exists e w',
       scheduleAppointment Demo.env "Rivera" "next week" "Midtown" Demo.booked
       = (Ok (ApiError e), w')
       /\ appt_store (redis w') = appt_store (redis Demo.booked)
       /\ appts_all (redis w') = appts_all (redis Demo.booked).
Proof.
  split; [exact demo_up|]. split; [reflexivity|].
  destruct (invalid_booking_stores_nothing Demo.env demo_up "Rivera" "next week" "Midtown"
              Demo.booked (or_intror eq_refl))
    as (e & w' & Hrun & Hstore & Hall & _).
  exists e, w'. split; [exact Hrun|]. split; [exact Hstore | exact Hall].
Defined.

(** Chen and Rivera at the same time and place. *)
Lemma booking_twice_gives_two_appointments_run :
  redis_up Demo.env
  /\ Date_parse Demo.env "2026-01-02T10:30:00.000Z" = Some Demo.tomorrow
  /\ exists a1 w1 a2 w2,
       scheduleAppointment Demo.env "Chen" "2026-01-02T10:30:00.000Z" "Midtown"
         Demo.blank_world = (Ok (ApiOk a1), w1)
       /\ scheduleAppointment Demo.env "Rivera" "2026-01-02T10:30:00.000Z" "Midtown" w1
          = (Ok (ApiOk a2), w2)
       /\ appt_id a1 <> appt_id a2.
Proof.
  split; [exact demo_up|]. split; [reflexivity|].
  destruct (booking_twice_gives_two_appointments Demo.env demo_up
              "Chen" "2026-01-02T10:30:00.000Z" "Midtown"
              "Rivera" "2026-01-02T10:30:00.000Z" "Midtown"
              Demo.tomorrow Demo.tomorrow Demo.blank_world
              eq_refl eq_refl eq_refl eq_refl eq_refl eq_refl eq_refl eq_refl)
    as (a1 & w1 & a2 & w2 & H1 & H2 & Hne & _).
  exists a1, w1, a2, w2. split; [exact H1|]. split; [exact H2 | exact Hne].
Defined.

(** The appointment of Chen is cancelled. *)
Lemma cancelAppointment_removes_run :
  redis_up Demo.env
  /\ appt_store (redis Demo.booked) !! ("appt:" +:+ "A-400000-1001")
     = Some (604800%N, Demo.chen)
  /\ exists w1,
       cancelAppointment Demo.env "A-400000-1001" Demo.booked
       = (Ok (Cancelled ("Appointment " +:+ "A-400000-1001" +:+ " cancelled")), w1)
       /\ exists w2, getAppointment Demo.env "A-400000-1001" w1 = (Ok None, w2).
Proof.
  assert (Hstored : appt_store (redis Demo.booked) !! ("appt:" +:+ "A-400000-1001")
                    = Some (604800%N, Demo.chen)) by (vm_compute; reflexivity).
  split; [exact demo_up|]. split; [exact Hstored|].
  destruct (cancelAppointment_removes Demo.env demo_up "A-400000-1001" 604800%N Demo.chen
              Demo.booked Hstored)
    as (w1 & Hrun & _ & _ & Hget & _).
  exists w1. split; [exact Hrun | exact Hget].
Defined.

(** Everything is deleted after one booking. *)
Lemma deleteAllAppointments_empties_the_index_run :
  redis_up Demo.env
  /\ exists n message w1,
       deleteAllAppointments Demo.env Demo.booked = (Ok (Deleted n message), w1)
       /\ n = size (appts_all (redis Demo.booked))
       /\ appts_all (redis w1) = ∅.
Proof.
  split; [exact demo_up|].
  destruct (deleteAllAppointments_empties_the_index Demo.env demo_up Demo.booked)
    as (n & message & w1 & Hrun & Hn & Hall & _).
  exists n, message, w1. split; [exact Hrun|]. split; [exact Hn | exact Hall].
Defined.


(** From nothing stored to one booking. *)
Lemma appointments_stay_scheduled_run :
  scheduled_only Demo.blank_world /\ scheduled_only Demo.booked.
Proof.
  assert (Hblank : scheduled_only Demo.blank_world).
  { intros key ttl a Hstored. cbn in Hstored. rewrite lookup_empty in Hstored.
    discriminate Hstored. }
  split; [exact Hblank|].
  exact (proj1 (appointments_stay_scheduled Demo.env Demo.blank_world Hblank)
           "Chen" "2026-01-02T10:30:00.000Z" "Midtown").
Defined.

(** The question on lateness, asked again with the provider down. *)
Lemma answers_repeat_while_cached_run :
  exists a w1 w3,
    getKnowledgeAnswer Demo.env "what is the late policy?" Demo.world = (Ok a, w1)
    /\ getKnowledgeAnswer (Demo.without_provider Demo.env) "what is the late policy?" w1
       = (Ok a, w3).
Proof.
  destruct (getKnowledgeAnswer_total Demo.env "what is the late policy?" Demo.world)
    as (a & w1 & Hrun).
  destruct (answers_repeat_while_cached Demo.env (Demo.without_provider Demo.env)
              "what is the late policy?" a Demo.world w1 w1
              demo_up demo_without_provider_up Hrun eq_refl eq_refl)
    as (w3 & Hagain).
  exists a, w1, w3. split; [exact Hrun | exact Hagain].
Defined.

(** Three results asked for, then five. *)
Lemma cached_results_ignore_the_limit_run :
  exists results w1,
    searchDocuments Demo.env "what is the late policy?" 3 Demo.world = (Ok results, w1)
    /\ searchDocuments (Demo.without_provider Demo.env) "what is the late policy?" 5 w1
       = (Ok results, after_command w1).
Proof.
  destruct (searchDocuments Demo.env "what is the late policy?" 3 Demo.world)
    as [[results|e] w1] eqn:Hrun.
  - exists results, w1. split; [reflexivity|].
    exact (cached_results_ignore_the_limit Demo.env (Demo.without_provider Demo.env)
             "what is the late policy?" 3 5 results Demo.world w1 w1
             demo_up demo_without_provider_up Hrun eq_refl).
  - exfalso.
    assert (Hfst : fst (searchDocuments Demo.env "what is the late policy?" 3 Demo.world)
                   = Throw e) by (rewrite Hrun; reflexivity).
    vm_compute in Hfst. discriminate Hfst.
Defined.

(** The question on weekdays, then the one on weekends. *)
Lemma long_messages_share_an_answer_run :
  Demo.late_weekends <> Demo.late_weekdays
  /\ exists a w1,
       getKnowledgeAnswer Demo.env Demo.late_weekdays Demo.world = (Ok a, w1)
       /\ getKnowledgeAnswer (Demo.without_provider Demo.env) Demo.late_weekends w1
          = (Ok a, after_command w1).
Proof.
  split; [discriminate|].
  destruct (getKnowledgeAnswer_total Demo.env Demo.late_weekdays Demo.world)
    as (a & w1 & Hrun).
  assert (Hcited : answer_citations a <> []).
  { assert (Hfst : fst (getKnowledgeAnswer Demo.env Demo.late_weekdays Demo.world) = Ok a)
      by (rewrite Hrun; reflexivity).
    vm_compute in Hfst. injection Hfst as <-. discriminate. }
  exists a, w1. split; [exact Hrun|].
  apply (long_messages_share_an_answer Demo.env (Demo.without_provider Demo.env)
           Demo.late_weekdays Demo.late_weekends a Demo.world w1 w1
           demo_up demo_without_provider_up).
  - vm_compute. lia.
  - vm_compute. lia.
  - vm_compute. reflexivity.
  - exact Hrun.
  - exact Hcited.
  - reflexivity.
Defined.

(** The two long questions as texts to embed. *)
Lemma long_texts_share_an_embedding_run :
  exists e w1,
    generateEmbedding Demo.env Demo.late_weekdays Demo.world = (Ok e, w1)
    /\ generateEmbedding (Demo.without_provider Demo.env) Demo.late_weekends w1
       = (Ok e, after_command w1).
Proof.
  destruct (generateEmbedding Demo.env Demo.late_weekdays Demo.world)
    as [[e|failure] w1] eqn:Hrun.
  - exists e, w1. split; [reflexivity|].
    apply (long_texts_share_an_embedding Demo.env (Demo.without_provider Demo.env)
             Demo.late_weekdays Demo.late_weekends e Demo.world w1 w1
             demo_up demo_without_provider_up).
    + right. split; [vm_compute; lia|]. split; [vm_compute; lia | vm_compute; reflexivity].
    + exact Hrun.
    + reflexivity.
  - exfalso.
    assert (Hfst : fst (generateEmbedding Demo.env Demo.late_weekdays Demo.world)
                   = Throw failure) by (rewrite Hrun; reflexivity).
    vm_compute in Hfst. discriminate Hfst.
Defined.

(** The session s1 after a booking. *)
Lemma last_appointment_is_remembered_run :
  redis_up Demo.env
  /\ exists w1,
       setLastAppt Demo.env "s1" "Chen" "2026-01-02T10:30:00.000Z" "Midtown" "A-400000-1001"
         Demo.booked = (Ok tt, w1)
       /\ exists saved,
            getLastAppt Demo.env "s1" w1 = (Ok (Some saved), after_command w1)
            /\ last_appt_id saved = "A-400000-1001".
Proof.
  split; [exact demo_up|].
  destruct (last_appointment_is_remembered Demo.env demo_up
              "s1" "Chen" "2026-01-02T10:30:00.000Z" "Midtown" "A-400000-1001" Demo.booked)
    as (w1 & Hset & Hget & _).
  exists w1. split; [exact Hset|]. eexists. split; [exact Hget | reflexivity].
Defined.

(** The caches are cleared after one booking. *)
Lemma clearing_caches_spares_results_and_embeddings_run :
  redis_up Demo.env
  /\ exists w1,
       clear_caches Demo.env Demo.booked = (Ok tt, w1)
       /\ getCacheStats Demo.env w1 = (Ok 0%nat, after_command w1)
       /\ appt_store (redis w1) = appt_store (redis Demo.booked).
Proof.
  split; [exact demo_up|].
  destruct (clearing_caches_spares_results_and_embeddings Demo.env demo_up Demo.booked)
    as (w1 & Hrun & _ & _ & Hstats & _ & _ & _ & Hstore & _).
  exists w1. split; [exact Hrun|]. split; [exact Hstats | exact Hstore].
Defined.

(** The policy document is ingested again. *)
Lemma ingestion_keeps_the_index_aligned_run :
  index_aligned Demo.world
  /\ index_aligned (snd (upsertDocuments Demo.env Demo.ingestion Demo.documents Demo.world)).
Proof.
  assert (Haligned : index_aligned Demo.world).
  { intros [|i]; [reflexivity|]. cbn.
    rewrite lookup_singleton_ne by discriminate. reflexivity. }
  split; [exact Haligned|].
  exact (ingestion_keeps_the_index_aligned Demo.env Demo.ingestion Demo.documents
           Demo.world Haligned).
Defined.

(** The policy document is ingested into the blank installation. *)
Lemma ingestion_rebuilds_the_lexical_index_run :
  collection_ready Demo.ingestion
  /\ provider_answers Demo.env
  /\ exists w',
       upsertDocuments Demo.env Demo.ingestion Demo.documents Demo.blank_world
       = (Ok (length (planned Demo.documents)), w')
       /\ tfidf_documents w' = map (fun item => snd (snd item)) (planned Demo.documents).
Proof.
  assert (Hready : collection_ready Demo.ingestion).
  { exists ["fastlane_knowledge"]. split; [reflexivity | left; reflexivity]. }
  assert (Hprovider : provider_answers Demo.env).
  { intros t. eexists. reflexivity. }
  split; [exact Hready|]. split; [exact Hprovider|].
  destruct (ingestion_rebuilds_the_lexical_index Demo.env Demo.ingestion Demo.documents
              Demo.blank_world Hready Hprovider (fun points => eq_refl))
    as (w' & Hrun & Hdocs & _).
  exists w'. split; [exact Hrun | exact Hdocs].
Defined.

(** The policy document is ingested again with the provider down. *)
Lemma failed_ingestion_empties_the_lexical_index_run :
  tfidf_documents Demo.world = [Demo.late_policy]
  /\ exists w',
       upsertDocuments (Demo.without_provider Demo.env) Demo.ingestion Demo.documents
         Demo.world = (Throw "503 Service Unavailable", w')
       /\ tfidf_documents w' = []
       /\ documentMap w' = ∅.
Proof.
  split; [reflexivity|].
  assert (Hready : collection_ready Demo.ingestion).
  { exists ["fastlane_knowledge"]. split; [reflexivity | left; reflexivity]. }
  assert (Hsome : Demo.documents <> []) by discriminate.
  destruct (failed_ingestion_empties_the_lexical_index (Demo.without_provider Demo.env)
              Demo.ingestion Demo.documents "503 Service Unavailable" Demo.world
              Hready Hsome (fun t => eq_refl) eq_refl)
    as (w' & Hrun & Hdocs & Hmap & _).
  exists w'. split; [exact Hrun|]. split; [exact Hdocs | exact Hmap].
Defined.

(** The question on lateness, not asked before. *)
Lemma search_results_are_distinct_chunks_run :
  query_cache (redis Demo.world) !! query_key "what is the late policy?" = None
  /\ exists results w',
       searchDocuments Demo.env "what is the late policy?" 3 Demo.world = (Ok results, w')
       /\ List.NoDup (map point_id results)
       /\ (length results <= 8)%nat.
Proof.
  assert (Hmiss : query_cache (redis Demo.world) !! query_key "what is the late policy?"
                  = None) by reflexivity.
  split; [exact Hmiss|].
  destruct (search_results_are_distinct_chunks Demo.env "what is the late policy?" 3
              Demo.world Hmiss)
    as (results & dense & w1 & w' & Hrun & _ & Hdistinct & Hlen & _).
  exists results, w'. split; [exact Hrun|]. split; [exact Hdistinct | exact Hlen].
Defined.

(** A question on lateness while the sessions cannot be read. *)
Lemma a_failed_session_read_fails_the_turn_run :
  exists r w',
    orchestrate (Demo.with_faults (Demo.reads_fail "memory:") Demo.env)
      "s1" "what is the late policy?" Demo.world = (Ok r, w')
    /\ reply r = error_reply
    /\ error r = Some "ECONNRESET".
Proof.
  eexists. eexists. split.
  - exact (a_failed_session_read_fails_the_turn
             (Demo.with_faults (Demo.reads_fail "memory:") Demo.env)
             "s1" "what is the late policy?" "ECONNRESET" Demo.world eq_refl).
  - split; reflexivity.
Defined.

(** A question on lateness after one booking. *)
Lemma a_knowledge_turn_only_reads_run :
  exists r w',
    orchestrate Demo.env "s1" "what is the late policy?" Demo.world = (Ok r, w')
    /\ tool_calls r = None
    /\ appt_store (redis w') = appt_store (redis Demo.world)
    /\ memory_store (redis w') = memory_store (redis Demo.world).
Proof.
  destruct (a_knowledge_turn_only_reads Demo.env "s1" "what is the late policy?" Demo.world
              eq_refl eq_refl eq_refl)
    as (answer & w1 & w' & _ & Hrun & Hmemory & Hstore & _).
  eexists. exists w'. split; [exact Hrun|]. split; [reflexivity|].
  split; [exact Hstore | exact Hmemory].
Defined.

(** A correction in a session that has booked nothing. *)
Lemma rescheduling_without_context_is_a_booking_run :
  isReschedule "Make it tomorrow" = true
  /\ exists r w' rest,
       orchestrate Demo.env "s1" "Make it tomorrow" Demo.blank_world = (Ok r, w')
       /\ plan_steps r
          = intent_detection {| schedule := true; knowledge := false |}
            :: extract_entities (Some "it") (Some "2026-01-02T10:30:00.000Z") "Midtown"
            :: rest.
Proof.
  split; [reflexivity|].
  destruct (rescheduling_without_context_is_a_booking Demo.env "s1" "Make it tomorrow"
              Demo.blank_world eq_refl eq_refl eq_refl eq_refl)
    as (r & w' & rest & Hrun & Hplan & _).
  exists r, w', rest. split; [exact Hrun | exact Hplan].
Defined.

(** Chen is booked for tomorrow at 10:30, then moved to 11:00. *)
Lemma a_correction_moves_the_booked_appointment_run :
  exists a1 r1 w1 a2 r2 w2,
    orchestrate (Demo.with_clock_times Demo.env) "s1" "Book Chen for tomorrow" Demo.blank_world
    = (Ok r1, w1)
    /\ orchestrate (Demo.with_clock_times Demo.env) "s1" "Make it 11:00" w1 = (Ok r2, w2)
    /\ appt_id a2 = appt_id a1
    /\ patient a2 = "Chen"
    /\ normalized_slot_iso a2 = "2026-01-02T11:00:00.000Z"
    /\ getAppointment (Demo.with_clock_times Demo.env) (appt_id a1) w2
       = (Ok (Some a2), after_command w2).
Proof.
  destruct (a_correction_moves_the_booked_appointment (Demo.with_clock_times Demo.env)
              demo_clock_times_up "s1" "Book Chen for tomorrow" "Make it 11:00" "Chen"
              "2026-01-02T10:30:00.000Z" "2026-01-02T11:00:00.000Z"
              Demo.tomorrow (Demo.tomorrow + 1800000)%Z Demo.blank_world
              eq_refl eq_refl eq_refl eq_refl eq_refl eq_refl eq_refl eq_refl
              eq_refl eq_refl eq_refl eq_refl eq_refl eq_refl)
    as (a1 & r1 & w1 & a2 & r2 & w2 & H1 & _ & H2 & _ & _ & _ & Hid & Hp & _ & Hslot & Hget).
  exists a1, r1, w1, a2, r2, w2.
  split; [exact H1|]. split; [exact H2|]. split; [exact Hid|]. split; [exact Hp|].
  split; [exact Hslot | exact Hget].
Defined.

(** The question on lateness, not answered before. *)
Lemma answers_quote_the_top_chunk_run :
  knowledge_cache (redis Demo.world) !! knowledge_key "what is the late policy?" = None
  /\ exists a w',
       getKnowledgeAnswer Demo.env "what is the late policy?" Demo.world = (Ok a, w')
       /\ (a = retrieval_error \/ a = no_information
           \/ (length (answer_citations a) <= 3)%nat).
Proof.
  assert (Hmiss : knowledge_cache (redis Demo.world)
                  !! knowledge_key "what is the late policy?" = None) by reflexivity.
  split; [exact Hmiss|].
  destruct (answers_quote_the_top_chunk Demo.env "what is the late policy?" Demo.world Hmiss)
    as (a & w' & Hrun & _).
  exists a, w'. split; [exact Hrun|].
  assert (Hfst : fst (getKnowledgeAnswer Demo.env "what is the late policy?" Demo.world)
                 = Ok a) by (rewrite Hrun; reflexivity).
  vm_compute in Hfst. injection Hfst as <-. right. right. cbn. lia.
Defined.
